(** * Bluetooth HCI client: command dispatcher and wire codec

    A shallow embedding of the HCI command layer of the bluetooth-hci
    library: [HciOpcode] and [HciCmd] of [HciCmd.ts], and the command
    encoders, the unit conversions and the [send] dispatcher of the
    stand-alone [Hci] class.  JavaScript numbers that the code treats as
    integers (opcodes, lengths, enum ordinals, handles) are [Z]; the
    millisecond arguments that go through [Math.round (ms / unit)] are
    IEEE-754 binary64 values ([float]); a Node [Buffer] is a list of bytes
    held as [Z] in [0, 255]. *)

From Stdlib Require Import ZArith List Bool Lia String.
From Stdlib Require Import Floats Uint63 QArith Qround.
From stdpp Require Import base option gmap.
Import ListNotations.

#[local] Open Scope Z_scope.

(** ** JavaScript integer operators

    The operators [<<], [>>], [|] and [&] first convert their operands with
    ToInt32 and yield a signed 32-bit result; the shift count is taken
    modulo 32. *)
Module JS.

Definition ToInt32 (x : Z) : Z := (x + 2 ^ 31) mod 2 ^ 32 - 2 ^ 31.

Definition shl (a n : Z) : Z := ToInt32 (Z.shiftl (ToInt32 a) (n mod 32)).

Definition sar (a n : Z) : Z := Z.shiftr (ToInt32 a) (n mod 32).

Definition bor (a b : Z) : Z := Z.lor (ToInt32 a) (ToInt32 b).

Definition band (a b : Z) : Z := Z.land (ToInt32 a) (ToInt32 b).

(** *** Numbers

    A JavaScript Number is a binary64 value.  [value] reads one exactly,
    through the kernel's decoding [Prim2SF] of a double into sign [s],
    mantissa [m] and exponent [e]: the double is [signed s m * 2^e].  With
    [e < 0] the integer below it is [signed s m] shifted right by [- e]
    (a floor, also for negative numbers). *)
Inductive numval :=
  | NaN
  | PosInf
  | NegInf
  | Integer (n : Z)          (* exactly the integer [n] *)
  | Fraction (below : Z).   (* strictly between [below] and [below + 1] *)

Definition signed (s : bool) (m : positive) : Z :=
  if s then Z.neg m else Z.pos m.

Definition value (x : float) : numval :=
  match Prim2SF x with
  | S754_zero _ => Integer 0
  | S754_infinity s => if s then NegInf else PosInf
  | S754_nan => NaN
  | S754_finite s m e =>
      if 0 <=? e then Integer (Z.shiftl (signed s m) e)
      else
        let below := Z.shiftr (signed s m) (- e) in
        if Z.shiftl below (- e) =? signed s m then Integer below
        else Fraction below
  end.

(** The Number of an integer (exact below [2^53]). *)
Definition Number (z : Z) : float :=
  let a := of_uint63 (Uint63.of_Z (Z.abs z)) in
  if z <? 0 then (- a)%float else a.

(** [Math.round(x)]: the integer closest to [x], a tie going up, that is
    the floor of [x + 1/2]; NaN, the infinities, the zeros and integers are
    returned as they are, and a negative [x] that rounds to zero gives
    [-0]. *)
Definition Math_round (x : float) : float :=
  match Prim2SF x with
  | S754_finite s m e =>
      if 0 <=? e then x
      else
        let half := Z.shiftl 1 (- e - 1) in
        let n := Z.shiftr (signed s m + half) (- e) in
        if (n =? 0) && s then (- 0)%float else Number n
  | _ => x
  end.

(** The integer a Number leaves in an unsigned integer field once the range
    check has let it through: the fraction is dropped and NaN becomes 0. *)
Definition ToUint (x : float) : Z :=
  match value x with
  | Integer n => n
  | Fraction below => below
  | _ => 0
  end.

End JS.

(** ** HciOpcode (the same class text in HciCmd.ts and in Hci.ts) *)
Module HciOpcode.

Record t := { ogf : Z; ocf : Z }.

(** [return opcode.ogf << 10 | opcode.ocf;] *)
Definition build (opcode : t) : Z := JS.bor (JS.shl (ogf opcode) 10) (ocf opcode).

(** [ogf = opcode >> 10; ocf = opcode & 1023] *)
Definition expand (opcode : Z) : t :=
  {| ogf := JS.sar opcode 10; ocf := JS.band opcode 1023 |}.

(** The construction rule as the specification words it:
    [(ogf << 10) | (ocf & 0x3FF)]. *)
Definition spec_build (opcode : t) : Z :=
  JS.bor (JS.shl (ogf opcode) 10) (JS.band (ocf opcode) 1023).

End HciOpcode.

(** ** Errors *)

(** [enum HciParserError] *)
Inductive HciParserError := InvalidPayloadSize | Busy | Timeout.

(** Modelled from the spec: [HciError.ts], with [makeParserError],
    [makeHciError] and [HciErrorCode], is not among the sources.  The two
    functions are taken as free constructors of the error values: a parser
    error carries its [HciParserError] kind and a controller error carries
    the status byte it was made from.  [RangeError] is what Node's [Buffer]
    writers throw on a value or an offset out of range, and
    [JsError message] is [new Error(message)]. *)
Inductive Error :=
  | RangeError
  | JsError (message : string)
  | makeParserError (kind : HciParserError)
  | makeHciError (code : Z).

(** Modelled from the spec: [HciErrorCode.Success] is status [0x00], and
    [HciErrorCode.InvalidCommandParameter] is the code [0x12] of Invalid HCI
    Command Parameters. *)
Definition Success : Z := 0.
Definition InvalidCommandParameter : Z := 18.

(** A computation that returns a value or throws. *)
Inductive result (A : Type) :=
  | Ok (a : A)
  | Throw (e : Error).
Arguments Ok {A} a.
Arguments Throw {A} e.

Definition bind {A B : Type} (r : result A) (k : A -> result B) : result B :=
  match r with
  | Ok a => k a
  | Throw e => Throw e
  end.

Notation "'let*' x ':=' r 'in' k" := (bind r (fun x => k))
  (at level 10, x pattern, r at level 100, k at level 200).

(** ** Node Buffer *)
Module Buffer.

Definition t := list Z.

(** [Buffer.allocUnsafe(size)]: [size] bytes of whatever the allocator's
    memory [mem] holds. *)
Definition allocUnsafe (mem : nat -> Z) (size : nat) : t := map mem (seq 0 size).

Fixpoint le_bytes (byteLength : nat) (value : Z) : list Z :=
  match byteLength with
  | O => []
  | S n => value mod 256 :: le_bytes n (value / 256)
  end.

(** Overwrite [buf] with [bytes] from index [offset] on. *)
Definition poke (buf : t) (offset : nat) (bytes : list Z) : t :=
  firstn offset buf ++ bytes ++ skipn (offset + length bytes) buf.

(** [buf.writeUIntLE(value, offset, byteLength)]: throws unless
    [0 <= value < 2^(8*byteLength)] and the bytes fit; returns the offset
    after the bytes written. *)
Definition writeUIntLE (buf : t) (value : Z) (offset byteLength : nat)
  : result (t * nat) :=
  if (0 <=? value) && (value <? 2 ^ (8 * Z.of_nat byteLength))
     && (offset + byteLength <=? length buf)%nat
  then Ok (poke buf offset (le_bytes byteLength value), (offset + byteLength)%nat)
  else Throw RangeError.

Definition writeUInt16LE (buf : t) (value : Z) (offset : nat) : result (t * nat) :=
  writeUIntLE buf value offset 2.

Definition writeUInt8 (buf : t) (value : Z) (offset : nat) : result (t * nat) :=
  writeUIntLE buf value offset 1.

(** The range check of the integer writers on a Number: it throws when
    [value > max || value < min], which lets NaN through. *)
Definition checkInt (value : float) (max : Z) : bool :=
  match JS.value value with
  | JS.NaN => true
  | JS.Integer n => (0 <=? n) && (n <=? max)
  | JS.Fraction below => (0 <=? below) && (below <? max)
  | JS.PosInf | JS.NegInf => false
  end.

(** [buf.writeUIntLE(value, offset, byteLength)] for a [value] that comes
    out of floating-point arithmetic. *)
Definition writeNumberLE (buf : t) (value : float) (offset byteLength : nat)
  : result (t * nat) :=
  if checkInt value (2 ^ (8 * Z.of_nat byteLength) - 1)
  then writeUIntLE buf (JS.ToUint value) offset byteLength
  else Throw RangeError.

(** [src.copy(target, targetStart)]: copies as much of [src] as fits. *)
Definition copy (src target : t) (targetStart : nat) : t :=
  poke target targetStart
       (firstn (Nat.min (length src) (length target - targetStart)) src).

(** [buf.readUInt16LE(offset)] *)
Definition readUInt16LE (buf : t) (offset : nat) : result Z :=
  match skipn offset buf with
  | b0 :: b1 :: _ => Ok (b0 + 256 * b1)
  | _ => Throw RangeError
  end.

End Buffer.

(** ** Command framing *)

(** [interface Command] of HciCmd.ts *)
Module Command.
Record t := {
  opcode : Z;
  connHandle : option Z;
  payload : option Buffer.t;
}.
End Command.

(** [interface HciCommand] of Hci.ts *)
Module HciCommand.
Record t := {
  opcode : Z;
  params : option Buffer.t;
}.
End HciCommand.

(** [cmd.payload?.length ?? 0] *)
Definition payloadLength (p : option Buffer.t) : nat :=
  match p with
  | Some b => length b
  | None => 0%nat
  end.

(** [if (cmd.payload && payloadLength > 0) cmd.payload.copy(buffer, 3)] *)
Definition copyPayload (p : option Buffer.t) (buffer : Buffer.t) : Buffer.t :=
  match p with
  | Some b => if (0 <? payloadLength p)%nat then Buffer.copy b buffer 3 else buffer
  | None => buffer
  end.

(** [HciCmd.buildCommand] *)
Definition buildCommand (mem : nat -> Z) (cmd : Command.t) : result Buffer.t :=
  let n := payloadLength (Command.payload cmd) in
  let buffer := Buffer.allocUnsafe mem (3 + n) in
  let o := 0%nat in
  let* (buffer, o) := Buffer.writeUIntLE buffer (Command.opcode cmd) o 2 in
  let* (buffer, o) := Buffer.writeUIntLE buffer (Z.of_nat n) o 1 in
  Ok (copyPayload (Command.payload cmd) buffer).

(** [Hci.buildBuffer] *)
Definition buildBuffer (mem : nat -> Z) (cmd : HciCommand.t) : result Buffer.t :=
  let n := payloadLength (HciCommand.params cmd) in
  let buffer := Buffer.allocUnsafe mem (3 + n) in
  let* (buffer, _) := Buffer.writeUInt16LE buffer (HciCommand.opcode cmd) 0 in
  let* (buffer, _) := Buffer.writeUInt8 buffer (Z.of_nat n) 2 in
  Ok (copyPayload (HciCommand.params cmd) buffer).

(** ** Enumerations of HciLe.ts

    A TypeScript numeric enum is written to the wire as its number.  Where
    two enums have a member of the same name, the member is prefixed here
    ([Own], [Peer], [ScanRsp]). *)
Class Enum (A : Type) := ordinal : A -> Z.

Inductive LeAdvertisingType :=
  | Undirected | DirectedHighDutyCycle | Scannable | NonConnectable
  | DirectedLowDutyCycle.

#[export] Instance LeAdvertisingType_enum : Enum LeAdvertisingType := fun e =>
  match e with
  | Undirected => 0 | DirectedHighDutyCycle => 1 | Scannable => 2
  | NonConnectable => 3 | DirectedLowDutyCycle => 4
  end.

Inductive LeAdvertisingChannelMap := Channel37 | Channel38 | Channel39.

#[export] Instance LeAdvertisingChannelMap_enum : Enum LeAdvertisingChannelMap :=
  fun e => match e with Channel37 => 0 | Channel38 => 1 | Channel39 => 2 end.

Inductive LeOwnAddressType :=
  | OwnPublicDeviceAddress | OwnRandomDeviceAddress
  | UsePublicAddressIfNoMatching | UseRandomAddressIfNoMatching.

#[export] Instance LeOwnAddressType_enum : Enum LeOwnAddressType := fun e =>
  match e with
  | OwnPublicDeviceAddress => 0 | OwnRandomDeviceAddress => 1
  | UsePublicAddressIfNoMatching => 2 | UseRandomAddressIfNoMatching => 3
  end.

Inductive LePeerAddressType := PeerPublicDeviceAddress | PeerRandomDeviceAddress.

#[export] Instance LePeerAddressType_enum : Enum LePeerAddressType := fun e =>
  match e with PeerPublicDeviceAddress => 0 | PeerRandomDeviceAddress => 1 end.

Inductive LeAdvertisingFilterPolicy :=
  | Any | WhiteListConnect | WhiteListScan | WhiteListScanConnect.

#[export] Instance LeAdvertisingFilterPolicy_enum : Enum LeAdvertisingFilterPolicy :=
  fun e =>
  match e with
  | Any => 0 | WhiteListConnect => 1 | WhiteListScan => 2
  | WhiteListScanConnect => 3
  end.

Inductive LeAdvertisingDataOperation :=
  | FragmentIntermediate | FragmentFirst | FragmentLast | Complete | Unchanged.

#[export] Instance LeAdvertisingDataOperation_enum : Enum LeAdvertisingDataOperation :=
  fun e =>
  match e with
  | FragmentIntermediate => 0 | FragmentFirst => 1 | FragmentLast => 2
  | Complete => 3 | Unchanged => 4
  end.

Inductive LeScanResponseDataOperation :=
  | ScanRspFragmentIntermediate | ScanRspFragmentFirst | ScanRspFragmentLast.

#[export] Instance LeScanResponseDataOperation_enum :
  Enum LeScanResponseDataOperation := fun e =>
  match e with
  | ScanRspFragmentIntermediate => 0 | ScanRspFragmentFirst => 1
  | ScanRspFragmentLast => 2
  end.

Inductive LeScanningFilterPolicy :=
  | All | FromWhiteList | AllExceptDirectedAdvertisingPackets
  | AllExceptPacketFromWhiteListAndDirectedAdvertising.

#[export] Instance LeScanningFilterPolicy_enum : Enum LeScanningFilterPolicy :=
  fun e =>
  match e with
  | All => 0 | FromWhiteList => 1 | AllExceptDirectedAdvertisingPackets => 2
  | AllExceptPacketFromWhiteListAndDirectedAdvertising => 3
  end.

Inductive LeScanningPhy := Phy1M | PhyCoded.

#[export] Instance LeScanningPhy_enum : Enum LeScanningPhy := fun e =>
  match e with Phy1M => 0 | PhyCoded => 2 end.

Inductive LeScanType := Passive | Active.

#[export] Instance LeScanType_enum : Enum LeScanType := fun e =>
  match e with Passive => 0 | Active => 1 end.

Inductive LeScanFilterDuplicates := Disabled | Enabled | Reset.

#[export] Instance LeScanFilterDuplicates_enum : Enum LeScanFilterDuplicates :=
  fun e => match e with Disabled => 0 | Enabled => 1 | Reset => 2 end.

(** ** Command encoders of the [Hci] class

    Each encoder is the part of the method that fills the payload handed to
    [sendLeCommand]; [mem] is the memory [Buffer.allocUnsafe] returns. *)
Module Hci.

(** [Math.round(ms / 0.625)] *)
Definition msToHciValue (ms : float) : float := JS.Math_round (ms / 0.625).

(** [val * 0.625] *)
Definition hciValueToMs (val : float) : float := (val * 0.625)%float.

(** [for (const bit of bits) bitfield |= 1 << bit] *)
Definition buildBitfield (bits : list Z) : Z :=
  fold_left (fun bitfield bit => JS.bor bitfield (JS.shl 1 bit)) bits 0.

(** [cond ? 1 : 0] *)
Definition flag (cond : bool) : Z := if cond then 1 else 0.

(** A write that happens only when the optional object is there:
    [if (x) { o = payload.write...(f(x), o, n) }]. *)
Definition whenSome {A : Type} (x : option A)
  (write : A -> Buffer.t -> nat -> result (Buffer.t * nat))
  (payload : Buffer.t) (o : nat) : result (Buffer.t * nat) :=
  match x with
  | Some a => write a payload o
  | None => Ok (payload, o)
  end.

Definition leSetAdvertisingParameters (mem : nat -> Z)
  (advertisingIntervalMinMs advertisingIntervalMaxMs : float)
  (advertisingType : LeAdvertisingType)
  (ownAddressType : LeOwnAddressType)
  (peerAddressType : LePeerAddressType)
  (peerAddress : Z)
  (advertisingChannelMap : list LeAdvertisingChannelMap)
  (advertisingFilterPolicy : LeAdvertisingFilterPolicy) : result Buffer.t :=
  let advertisingIntervalMin := JS.Math_round (advertisingIntervalMinMs / 0.625) in
  let advertisingIntervalMax := JS.Math_round (advertisingIntervalMaxMs / 0.625) in
  let advertisingChannelMap := buildBitfield (map ordinal advertisingChannelMap) in
  let payload := Buffer.allocUnsafe mem 15 in
  let o := 0%nat in
  let* (payload, o) := Buffer.writeNumberLE payload advertisingIntervalMin o 2 in
  let* (payload, o) := Buffer.writeNumberLE payload advertisingIntervalMax o 2 in
  let* (payload, o) := Buffer.writeUIntLE payload (ordinal advertisingType) o 1 in
  let* (payload, o) := Buffer.writeUIntLE payload (ordinal ownAddressType) o 1 in
  let* (payload, o) := Buffer.writeUIntLE payload (ordinal peerAddressType) o 1 in
  let* (payload, o) := Buffer.writeUIntLE payload peerAddress o 6 in
  let* (payload, o) := Buffer.writeUIntLE payload advertisingChannelMap o 1 in
  let* (payload, o) := Buffer.writeUIntLE payload (ordinal advertisingFilterPolicy) o 1 in
  Ok payload.

(** The body shared, word for word, by [leSetExtendedAdvertisingData] and
    [leSetExtendedScanResponseData]. *)
Definition extendedData {Op : Type} `{Enum Op} (mem : nat -> Z)
  (advertisingHandle : Z) (operation : Op) (fragment : bool) (data : Buffer.t)
  : result Buffer.t :=
  let payload := Buffer.allocUnsafe mem (4 + length data) in
  let o := 0%nat in
  let* (payload, o) := Buffer.writeUIntLE payload advertisingHandle o 1 in
  let* (payload, o) := Buffer.writeUIntLE payload (ordinal operation) o 1 in
  let* (payload, o) := Buffer.writeUIntLE payload (if fragment then 0 else 1) o 1 in
  let* (payload, o) := Buffer.writeUIntLE payload (Z.of_nat (length data)) o 1 in
  Ok (Buffer.copy data payload o).

Definition leSetExtendedAdvertisingData (mem : nat -> Z)
  (advertisingHandle : Z) (operation : LeAdvertisingDataOperation)
  (fragment : bool) (data : Buffer.t) : result Buffer.t :=
  extendedData mem advertisingHandle operation fragment data.

Definition leSetExtendedScanResponseData (mem : nat -> Z)
  (advertisingHandle : Z) (operation : LeScanResponseDataOperation)
  (fragment : bool) (data : Buffer.t) : result Buffer.t :=
  extendedData mem advertisingHandle operation fragment data.

(** One entry of [params.scanningPhy]. *)
Record ScanningPhy := {
  type : LeScanType;
  intervalMs : float;
  windowMs : float;
}.

Definition leSetExtendedScanParameters (mem : nat -> Z)
  (ownAddressType : LeOwnAddressType)
  (scanningFilterPolicy : LeScanningFilterPolicy)
  (scanningPhy_Phy1M scanningPhy_PhyCoded : option ScanningPhy)
  : result Buffer.t :=
  let '(count, bitmask) := (0%nat, 0) in
  let '(count, bitmask) :=
    match scanningPhy_Phy1M with
    | Some _ => (S count, JS.bor bitmask (JS.shl 1 (ordinal Phy1M)))
    | None => (count, bitmask)
    end in
  let '(count, bitmask) :=
    match scanningPhy_PhyCoded with
    | Some _ => (S count, JS.bor bitmask (JS.shl 1 (ordinal PhyCoded)))
    | None => (count, bitmask)
    end in
  if (count =? 0)%nat then Throw (makeHciError InvalidCommandParameter)
  else
    let payload := Buffer.allocUnsafe mem (3 + count * (1 + 2 + 2)) in
    let o := 0%nat in
    let* (payload, o) := Buffer.writeUIntLE payload (ordinal ownAddressType) o 1 in
    let* (payload, o) := Buffer.writeUIntLE payload (ordinal scanningFilterPolicy) o 1 in
    let* (payload, o) := Buffer.writeUIntLE payload bitmask o 1 in
    let* (payload, o) :=
      whenSome scanningPhy_Phy1M
        (fun phy payload o => Buffer.writeUIntLE payload (ordinal (type phy)) o 1)
        payload o in
    let* (payload, o) :=
      whenSome scanningPhy_PhyCoded
        (fun phy payload o => Buffer.writeUIntLE payload (ordinal (type phy)) o 1)
        payload o in
    let* (payload, o) :=
      whenSome scanningPhy_Phy1M
        (fun phy payload o =>
           Buffer.writeNumberLE payload (msToHciValue (intervalMs phy)) o 2)
        payload o in
    let* (payload, o) :=
      whenSome scanningPhy_PhyCoded
        (fun phy payload o =>
           Buffer.writeNumberLE payload (msToHciValue (intervalMs phy)) o 2)
        payload o in
    let* (payload, o) :=
      whenSome scanningPhy_Phy1M
        (fun phy payload o =>
           Buffer.writeNumberLE payload (msToHciValue (windowMs phy)) o 2)
        payload o in
    let* (payload, o) :=
      whenSome scanningPhy_PhyCoded
        (fun phy payload o =>
           Buffer.writeNumberLE payload (msToHciValue (windowMs phy)) o 2)
        payload o in
    Ok payload.

(** [x ?? 0] *)
Definition orZero (x : option float) : float :=
  match x with
  | Some v => v
  | None => 0%float
  end.

#[local] Set Warnings "-inexact-float".
Definition leSetExtendedScanEnable (mem : nat -> Z)
  (enable : bool) (filterDuplicates : LeScanFilterDuplicates)
  (durationMs periodSec : option float) : result Buffer.t :=
  let duration := JS.Math_round (orZero durationMs / 10) in
  let period := JS.Math_round (orZero periodSec / 1.28) in
  let payload := Buffer.allocUnsafe mem (1 + 1 + 2 + 2) in
  let o := 0%nat in
  let* (payload, o) := Buffer.writeUIntLE payload (flag enable) o 1 in
  let* (payload, o) := Buffer.writeUIntLE payload (ordinal filterDuplicates) o 1 in
  let* (payload, o) := Buffer.writeNumberLE payload duration o 2 in
  let* (payload, o) := Buffer.writeNumberLE payload period o 2 in
  Ok payload.
#[local] Set Warnings "+inexact-float".

End Hci.

(** ** The command dispatcher of HciCmd.ts

    [sendWaitResult] makes a promise, a timer and a closure [onResult] that
    remembers its command; the promise's [resolve] and [reject] act once.
    The state keeps what the closures close over: calls are numbered in the
    order the promises are made, the installed closure is the pair of its
    call and its command, a timer is named by the call that armed it, and a
    promise is absent from [promises] until it is settled.  The [send]
    function given to the constructor is taken to return normally; [sent]
    lists what it was called with, oldest first. *)

(** Modelled from the spec: [HciPacketType.ts] is not among the sources; the
    tags are Command = 0x01, ACL = 0x02 and Event = 0x04. *)
Inductive HciPacketType := HciCommand | HciAclData | HciEvent.

#[export] Instance HciPacketType_enum : Enum HciPacketType := fun e =>
  match e with HciCommand => 1 | HciAclData => 2 | HciEvent => 4 end.

(** [interface HciCmdResult] *)
Module HciCmdResult.
Record t := {
  numHciPackets : Z;
  opcode : Z;
  status : Z;
  returnParameters : option Buffer.t;
}.
End HciCmdResult.

(** How a promise ended. *)
Inductive settlement :=
  | Resolved (evt : HciCmdResult.t)
  | Rejected (err : Error).

Module HciCmd.

Record closure := {
  call : nat;
  cmd : Command.t;
}.

Record state := {
  onResult : option closure;
  timers : gset nat;
  promises : gmap nat settlement;
  calls : nat;
  sent : list (HciPacketType * Buffer.t);
}.

(** [new HciCmd(send, timeout)] *)
Definition init : state :=
  {| onResult := None; timers := ∅; promises := ∅; calls := 0; sent := [] |}.

(** [resolve] and [reject]: the first one to run settles the promise. *)
Definition settle (id : nat) (how : settlement) (st : state) : state :=
  match promises st !! id with
  | Some _ => st
  | None =>
      {| onResult := onResult st; timers := timers st;
         promises := <[id := how]> (promises st);
         calls := calls st; sent := sent st |}
  end.

(** [complete]: [clearTimeout(timeoutId); this.onResult = null;
    err ? reject(err) : resolve(evt)]. *)
Definition complete (id : nat) (how : settlement) (st : state) : state :=
  settle id how
    {| onResult := None; timers := timers st ∖ {[id]};
       promises := promises st; calls := calls st; sent := sent st |}.

(** [evt.status !== HciErrorCode.Success ? complete(makeHciError(evt.status))
    : complete(undefined, evt)] *)
Definition classify (id : nat) (evt : HciCmdResult.t) (st : state) : state :=
  if HciCmdResult.status evt =? Success
  then complete id (Resolved evt) st
  else complete id (Rejected (makeHciError (HciCmdResult.status evt))) st.

(** The closure stored in [this.onResult]. *)
Definition handler (c : closure) (evt : HciCmdResult.t) (st : state) : state :=
  if negb (Command.opcode (cmd c) =? HciCmdResult.opcode evt) then st
  else
    match Command.connHandle (cmd c) with
    | None => classify (call c) evt st
    | Some connHandle =>
        match HciCmdResult.returnParameters evt with
        | None => st
        | Some returnParameters =>
            if (length returnParameters <? 2)%nat then st
            else
              match Buffer.readUInt16LE returnParameters 0 with
              | Ok handle =>
                  if negb (connHandle =? handle) then st
                  else classify (call c) evt st
              | Throw _ => st  (* two bytes are there: the read returns *)
              end
        end
    end.

(** [sendWaitResult(cmd)]; an exception of [buildCommand] inside the
    promise's executor rejects the promise, after the timer and the closure
    were set up and before anything is sent. *)
Definition sendWaitResult (mem : nat -> Z) (c : Command.t) (st : state) : state :=
  let id := calls st in
  let st :=
    {| onResult := onResult st; timers := timers st; promises := promises st;
       calls := S id; sent := sent st |} in
  match onResult st with
  | Some _ => settle id (Rejected (makeParserError Busy)) st
  | None =>
      let st :=
        {| onResult := Some {| call := id; cmd := c |};
           timers := timers st ∪ {[id]};
           promises := promises st; calls := calls st; sent := sent st |} in
      match buildCommand mem c with
      | Ok packet =>
          {| onResult := onResult st; timers := timers st;
             promises := promises st; calls := calls st;
             sent := sent st ++ [(HciCommand, packet)] |}
      | Throw e => settle id (Rejected e) st
      end
  end.

(** [onCmdResult(result)] *)
Definition onCmdResult (result : HciCmdResult.t) (st : state) : state :=
  match onResult st with
  | Some c => handler c result st
  | None => st
  end.

(** The timer of call [id] fires, if it is still armed:
    [complete(makeParserError(HciParserError.Timeout))]. *)
Definition onTimeout (id : nat) (st : state) : state :=
  if decide (id ∈ timers st)
  then complete id (Rejected (makeParserError Timeout)) st
  else st.

(** What can happen to an [HciCmd]: a caller submits a command, the event
    router delivers a result, a timer fires. *)
Inductive input :=
  | Submit (mem : nat -> Z) (c : Command.t)
  | Deliver (result : HciCmdResult.t)
  | Expire (id : nat).

Definition step (st : state) (i : input) : state :=
  match i with
  | Submit mem c => sendWaitResult mem c st
  | Deliver result => onCmdResult result st
  | Expire id => onTimeout id st
  end.

Definition run (inputs : list input) : state := fold_left step inputs init.

(** Call [id] was made and its promise is not settled. *)
Definition outstanding (st : state) (id : nat) : Prop :=
  (id < calls st)%nat /\ promises st !! id = None.

(** A result answers a command: same opcode and, when the command
    registered a handle, that handle in the first two return bytes. *)
Definition answers (c : Command.t) (evt : HciCmdResult.t) : Prop :=
  Command.opcode c = HciCmdResult.opcode evt /\
  match Command.connHandle c with
  | None => True
  | Some connHandle =>
      exists returnParameters,
        HciCmdResult.returnParameters evt = Some returnParameters /\
        Buffer.readUInt16LE returnParameters 0 = Ok connHandle
  end.

End HciCmd.

(** ** The command dispatcher of the stand-alone [Hci] class

    [Hci.send] keeps the pending opcode in the field [cmdOpcode] and the
    closure in [onCmdComplete]; the closure reads the field, not its
    command, so the command recorded with it here is only a note of which
    call installed it. *)

(** [interface HciEvtCmdComplete] *)
Module HciEvtCmdComplete.
Record t := {
  numHciPackets : Z;
  opcode : Z;
  status : Z;
  returnParameters : Buffer.t;
}.
End HciEvtCmdComplete.

Module HciSend.

(** [Hci.makeError] *)
Definition makeError (code : HciParserError) : Error :=
  match code with
  | InvalidPayloadSize => JsError "Cannot parse payload, invalid size"
  | Busy => JsError "Busy, command in progress."
  | Timeout => JsError "Command timeout"
  end.

Inductive settlement :=
  | Resolved (evt : HciEvtCmdComplete.t)
  | Rejected (err : Error).

Record closure := {
  call : nat;
  cmd : HciCommand.t;
}.

Record state := {
  cmdOpcode : Z;
  onCmdComplete : option closure;
  timers : gset nat;
  promises : gmap nat settlement;
  calls : nat;
  sent : list Buffer.t;
}.

Definition init : state :=
  {| cmdOpcode := 0; onCmdComplete := None; timers := ∅; promises := ∅;
     calls := 0; sent := [] |}.

Definition settle (id : nat) (how : settlement) (st : state) : state :=
  match promises st !! id with
  | Some _ => st
  | None =>
      {| cmdOpcode := cmdOpcode st; onCmdComplete := onCmdComplete st;
         timers := timers st; promises := <[id := how]> (promises st);
         calls := calls st; sent := sent st |}
  end.

(** [clearTimeout(timeoutId); this.onCmdComplete = null;
    err ? reject(err) : resolve(evt)] *)
Definition complete (id : nat) (how : settlement) (st : state) : state :=
  settle id how
    {| cmdOpcode := cmdOpcode st; onCmdComplete := None;
       timers := timers st ∖ {[id]}; promises := promises st;
       calls := calls st; sent := sent st |}.

(** The closure stored in [this.onCmdComplete]. *)
Definition handler (c : closure) (evt : HciEvtCmdComplete.t) (st : state) : state :=
  if negb (cmdOpcode st =? HciEvtCmdComplete.opcode evt) then st
  else if HciEvtCmdComplete.status evt =? Success
       then complete (call c) (Resolved evt) st
       else complete (call c)
              (Rejected (makeHciError (HciEvtCmdComplete.status evt))) st.

(** [Hci.send(cmd)] *)
Definition send (mem : nat -> Z) (c : HciCommand.t) (st : state) : state :=
  let id := calls st in
  let st :=
    {| cmdOpcode := cmdOpcode st; onCmdComplete := onCmdComplete st;
       timers := timers st; promises := promises st; calls := S id;
       sent := sent st |} in
  match onCmdComplete st with
  | Some _ => settle id (Rejected (makeError Busy)) st
  | None =>
      let st :=
        {| cmdOpcode := HciCommand.opcode c;
           onCmdComplete := Some {| call := id; cmd := c |};
           timers := timers st ∪ {[id]};
           promises := promises st; calls := calls st; sent := sent st |} in
      match buildBuffer mem c with
      | Ok packet =>
          {| cmdOpcode := cmdOpcode st; onCmdComplete := onCmdComplete st;
             timers := timers st; promises := promises st; calls := calls st;
             sent := sent st ++ [packet] |}
      | Throw e => settle id (Rejected e) st
      end
  end.

(** What [onData] does with a well-formed Command Complete event:
    [if (this.onCmdComplete) this.onCmdComplete(evt)]. *)
Definition onCmdCompleteEvent (evt : HciEvtCmdComplete.t) (st : state) : state :=
  match onCmdComplete st with
  | Some c => handler c evt st
  | None => st
  end.

Definition onTimeout (id : nat) (st : state) : state :=
  if decide (id ∈ timers st)
  then complete id (Rejected (makeError Timeout)) st
  else st.

Inductive input :=
  | Submit (mem : nat -> Z) (c : HciCommand.t)
  | Deliver (evt : HciEvtCmdComplete.t)
  | Expire (id : nat).

Definition step (st : state) (i : input) : state :=
  match i with
  | Submit mem c => send mem c st
  | Deliver evt => onCmdCompleteEvent evt st
  | Expire id => onTimeout id st
  end.

Definition run (inputs : list input) : state := fold_left step inputs init.

End HciSend.

(** ** Sample traffic

    The commands and results of the end-to-end scenarios: [Reset]
    (opcode 0x0C03) and its completion [0E 04 01 03 0C 00], [ReadBdAddr]
    (0x1009), and [LeReadChannelMap] (0x2015) for connection 0x000A with
    completions that carry the handles 0x000B and 0x000A. *)
Module Scenario.

Definition mem : nat -> Z := fun _ => 170.

Definition reset : Command.t :=
  {| Command.opcode := 3075; Command.connHandle := None; Command.payload := None |}.

Definition readBdAddr : Command.t :=
  {| Command.opcode := 4105; Command.connHandle := None; Command.payload := None |}.

Definition leReadChannelMap : Command.t :=
  {| Command.opcode := 8213; Command.connHandle := Some 10;
     Command.payload := Some [10; 0] |}.

Definition resetComplete : HciCmdResult.t :=
  {| HciCmdResult.numHciPackets := 1; HciCmdResult.opcode := 3075;
     HciCmdResult.status := 0; HciCmdResult.returnParameters := Some [] |}.

Definition readBdAddrComplete : HciCmdResult.t :=
  {| HciCmdResult.numHciPackets := 1; HciCmdResult.opcode := 4105;
     HciCmdResult.status := 0;
     HciCmdResult.returnParameters := Some [1; 2; 3; 4; 5; 6] |}.

Definition channelMapOf (handle : Z) : HciCmdResult.t :=
  {| HciCmdResult.numHciPackets := 1; HciCmdResult.opcode := 8213;
     HciCmdResult.status := 0;
     HciCmdResult.returnParameters := Some [handle; 0; 255; 255; 255; 255; 31] |}.

(** A [CommandStatus] result: no return parameters; status 0x0C is
    Command Disallowed. *)
Definition channelMapStatus : HciCmdResult.t :=
  {| HciCmdResult.numHciPackets := 1; HciCmdResult.opcode := 8213;
     HciCmdResult.status := 12; HciCmdResult.returnParameters := None |}.

Definition resetPending : list HciCmd.input := [HciCmd.Submit mem reset].

(** Active scanning on 1M, 100 ms interval and 50 ms window; passive
    scanning on Coded, 300 ms and 150 ms. *)
Definition scan1M : Hci.ScanningPhy :=
  {| Hci.type := Active; Hci.intervalMs := 100; Hci.windowMs := 50 |}.

Definition scanCoded : Hci.ScanningPhy :=
  {| Hci.type := Passive; Hci.intervalMs := 300; Hci.windowMs := 150 |}.

Definition channelMapPending : list HciCmd.input :=
  [HciCmd.Submit mem leReadChannelMap].

End Scenario.

(** ** Unit conversions, as the specification words them

    [round(ms / unit)] in exact rational arithmetic, a tie going up. *)
Definition spec_round (q : Q) : Z := Qfloor (q + (1 # 2)).

Definition spec_ticks (ms : Z) (unit : Q) : Z := spec_round (inject_Z ms / unit).

(** The rational number a finite double stands for. *)
Definition double_value (x : float) : option Q :=
  match Prim2SF x with
  | S754_zero _ => Some 0%Q
  | S754_finite s m e =>
      let sm := if s then Z.neg m else Z.pos m in
      Some (if 0 <=? e then inject_Z (sm * 2 ^ e) else sm # Z.to_pos (2 ^ (- e)))
  | _ => None
  end.

(** A 16-bit number on the wire, low byte first. *)
Definition uint16_le (v : Z) : list Z := [v mod 256; v / 256].

(** The ticks of an optional whole duration: an absent one counts as 0. *)
Definition spec_ticks_or_zero (ms : option Z) (unit : Q) : Z :=
  match ms with
  | Some ms => spec_ticks ms unit
  | None => 0
  end.

(** ** Reading a double with the primitive operations

    The conversions are compared with [spec_ticks] on every whole input of
    their range by evaluation.  To keep one evaluation to a few machine
    operations, a positive double below [2^53] that is not whole-number
    sized is taken apart with [frshiftexp] and [normfr_mantissa] into its
    53-bit mantissa [mant] and the number [k] of fraction bits, so that the
    double is [mant / 2^k] with [1 <= k <= 62]; [decode_spec] below shows
    that this is what [Prim2SF] returns. *)
Module Double.

Definition decode (x : float) : option (int * int) :=
  if PrimFloat.is_nan x || PrimFloat.is_zero x || PrimFloat.is_infinity x ||
     PrimFloat.get_sign x
  then None
  else
    let (r, se) := frshiftexp x in
    let mant := normfr_mantissa r in
    if ((4503599627370496 <=? mant) && (mant <? 9007199254740992) &&
        (2092 <=? se) && (se <=? 2153))%uint63
    then Some (mant, (2154 - se)%uint63)
    else None.

(** The integer [Math.round] returns on such a double. *)
Definition round (x : float) : option int :=
  match decode x with
  | Some (mant, k) => Some ((mant + (1 << (k - 1))) >> k)%uint63
  | None => None
  end.

(** The integer such a double is, when it is one. *)
Definition integer (x : float) : option int :=
  match decode x with
  | Some (mant, k) =>
      let below := (mant >> k)%uint63 in
      if (below << k =? mant)%uint63 then Some below else None
  | None => None
  end.

(** [all_from depth f lo step], with [step = 2^depth], runs [f] on the
    [2^depth] integers from [lo] on; [within lo hi f] is [f] inside
    [lo .. hi] and vacuous outside. *)
Fixpoint all_from (depth : nat) (f : int -> bool) (lo step : int) : bool :=
  match depth with
  | O => f lo
  | S d =>
      let half := (step >> 1)%uint63 in
      all_from d f lo half && all_from d f (lo + half)%uint63 half
  end.

Definition within (lo hi : int) (f : int -> bool) (i : int) : bool :=
  if ((lo <=? i) && (i <=? hi))%uint63 then f i else true.

End Double.

(** The checks that are evaluated: on the whole number [ms], the rounded
    quotient is [round(ms / unit)], written with integer division
    ([round(ms / 0.625) = (16 ms + 5) div 10] and so on); the ticks times
    0.625 round back to [ms]; the Number of [n] is the integer [n]. *)
#[local] Set Warnings "-inexact-float".
Definition ticks_ok (ms : int) : bool :=
  match Double.round (of_uint63 ms / 0.625) with
  | Some n => (n =? (16 * ms + 5) / 10)%uint63
  | None => false
  end.

Definition duration_ok (ms : int) : bool :=
  match Double.round (of_uint63 ms / 10) with
  | Some n => (n =? (ms + 5) / 10)%uint63
  | None => false
  end.

Definition period_ok (sec : int) : bool :=
  match Double.round (of_uint63 sec / 1.28) with
  | Some n => (n =? (25 * sec + 16) / 32)%uint63
  | None => false
  end.

Definition roundtrip_ok (ms : int) : bool :=
  match Double.round (of_uint63 ms / 0.625) with
  | Some n =>
      match Double.round (of_uint63 n * 0.625) with
      | Some back => (back =? ms)%uint63
      | None => false
      end
  | None => false
  end.
#[local] Set Warnings "+inexact-float".

Definition uint16_ok (n : int) : bool :=
  match Double.integer (of_uint63 n) with
  | Some k => (k =? n)%uint63
  | None => false
  end.

(** ** The command groups of [HciCmd] *)

(** Modelled from the spec: [HciOgfOcf.ts] is not among the sources; the
    opcode groups are Link Control = 0x01, Controller and Baseband = 0x03,
    Information Parameters = 0x04, Status Parameters = 0x05 and
    LE Controller = 0x08.  An OCF is taken as a number. *)
Inductive HciOgf :=
  | LinkControlCommands
  | ControlAndBasebandCommands
  | InformationParameters
  | StatusParameters
  | LeControllerCommands.

#[export] Instance HciOgf_enum : Enum HciOgf := fun e =>
  match e with
  | LinkControlCommands => 1
  | ControlAndBasebandCommands => 3
  | InformationParameters => 4
  | StatusParameters => 5
  | LeControllerCommands => 8
  end.

Module HciCmdGroups.

(** [HciCmd.controlAndBaseband] *)
Definition controlAndBaseband (mem : nat -> Z) (ocf : Z) (connHandle : option Z)
  (payload : option Buffer.t) (st : HciCmd.state) : HciCmd.state :=
  HciCmd.sendWaitResult mem
    {| Command.opcode :=
         HciOpcode.build {| HciOpcode.ogf := ordinal ControlAndBasebandCommands;
                            HciOpcode.ocf := ocf |};
       Command.payload := payload;
       Command.connHandle := connHandle |} st.

(** [HciCmd.informationParameters] *)
Definition informationParameters (mem : nat -> Z) (ocf : Z) (connHandle : option Z)
  (payload : option Buffer.t) (st : HciCmd.state) : HciCmd.state :=
  HciCmd.sendWaitResult mem
    {| Command.opcode :=
         HciOpcode.build {| HciOpcode.ogf := ordinal InformationParameters;
                            HciOpcode.ocf := ocf |};
       Command.payload := payload;
       Command.connHandle := connHandle |} st.

(** [HciCmd.statusParameters] *)
Definition statusParameters (mem : nat -> Z) (ocf : Z) (connHandle : option Z)
  (payload : option Buffer.t) (st : HciCmd.state) : HciCmd.state :=
  HciCmd.sendWaitResult mem
    {| Command.opcode :=
         HciOpcode.build {| HciOpcode.ogf := ordinal StatusParameters;
                            HciOpcode.ocf := ocf |};
       Command.payload := payload;
       Command.connHandle := connHandle |} st.

(** [HciCmd.lowEnergy] *)
Definition lowEnergy (mem : nat -> Z) (ocf : Z) (connHandle : option Z)
  (payload : option Buffer.t) (st : HciCmd.state) : HciCmd.state :=
  HciCmd.sendWaitResult mem
    {| Command.opcode :=
         HciOpcode.build {| HciOpcode.ogf := ordinal LeControllerCommands;
                            HciOpcode.ocf := ocf |};
       Command.payload := payload;
       Command.connHandle := connHandle |} st.

End HciCmdGroups.

(** The framing every packet on the wire has. *)
Definition well_framed (p : HciPacketType * Buffer.t) : Prop :=
  fst p = HciCommand /\
  (3 <= length (snd p) <= 258)%nat /\
  nth_error (snd p) 2 = Some (Z.of_nat (length (snd p) - 3)).

(** ** Reading from a Buffer *)
Module BufferRead.

(** The number a run of bytes stands for, least significant byte first. *)
Fixpoint le_value (bytes : list Z) : Z :=
  match bytes with
  | [] => 0
  | b :: rest => b + 256 * le_value rest
  end.

(** [buf.readUIntLE(offset, byteLength)]: throws when the bytes are not all
    inside the buffer. *)
Definition readUIntLE (buf : Buffer.t) (offset byteLength : nat) : result Z :=
  if (offset + byteLength <=? length buf)%nat
  then Ok (le_value (firstn byteLength (skipn offset buf)))
  else Throw RangeError.

(** [buf.readUInt8(offset)] *)
Definition readUInt8 (buf : Buffer.t) (offset : nat) : result Z :=
  readUIntLE buf offset 1.

(** [buf.readInt8(offset)]: the byte as a two's complement number. *)
Definition readInt8 (buf : Buffer.t) (offset : nat) : result Z :=
  let* b := readUIntLE buf offset 1 in
  Ok (if b <? 128 then b else b - 256).

(** [buf.readBigUInt64LE(offset)] *)
Definition readBigUInt64LE (buf : Buffer.t) (offset : nat) : result Z :=
  readUIntLE buf offset 8.

(** [buf[i]] for an index inside the buffer ([undefined] outside, which no
    caller here reaches; it reads as 0). *)
Definition at_ (buf : Buffer.t) (i : nat) : Z := nth i buf 0.

(** [buf.slice(start)] *)
Definition slice (buf : Buffer.t) (start : nat) : Buffer.t := skipn start buf.

End BufferRead.

(** ** Event routing of the [Hci] class built on [HciCmd]

    [onData] hands event packets to [onHciEvent], which checks the length
    byte and switches on the event code.  Command Complete and Command
    Status go to the dispatcher; the other handlers decode and notify the
    subscribers.  The state is the dispatcher and the list of notifications
    emitted so far, oldest first.  What the decoders of [HciLeController.ts]
    and [getHciErrorMessage] of [HciError.ts] return is not in the sources:
    they are the variables of the section. *)

(** Modelled from the spec: [HciEvent.ts] is not among the sources; the
    event codes are Disconnection Complete = 0x05, Encryption Change = 0x08,
    Command Complete = 0x0E, Command Status = 0x0F, Number Of Completed
    Packets = 0x13 and LE Meta = 0x3E, and the LE sub-event codes are
    Connection Complete = 0x01, Advertising Report = 0x02, Connection Update
    Complete = 0x03, Read Remote Features Complete = 0x04, Enhanced
    Connection Complete = 0x0A, Extended Advertising Report = 0x0D and
    Channel Selection Algorithm = 0x14. *)
Inductive HciEventCode :=
  | DisconnectionComplete | EncryptionChange | CommandComplete | CommandStatus
  | NumberOfCompletedPackets | LEMeta.

#[export] Instance HciEventCode_enum : Enum HciEventCode := fun e =>
  match e with
  | DisconnectionComplete => 5 | EncryptionChange => 8 | CommandComplete => 14
  | CommandStatus => 15 | NumberOfCompletedPackets => 19 | LEMeta => 62
  end.

Inductive HciLeEventCode :=
  | LeConnectionComplete | LeAdvertisingReport | LeConnectionUpdateComplete
  | LeReadRemoteFeaturesComplete | LeEnhancedConnectionComplete
  | LeExtendedAdvertisingReport | LeChannelSelectionAlgorithm.

#[export] Instance HciLeEventCode_enum : Enum HciLeEventCode := fun e =>
  match e with
  | LeConnectionComplete => 1 | LeAdvertisingReport => 2
  | LeConnectionUpdateComplete => 3 | LeReadRemoteFeaturesComplete => 4
  | LeEnhancedConnectionComplete => 10 | LeExtendedAdvertisingReport => 13
  | LeChannelSelectionAlgorithm => 20
  end.

Module HciEvents.
Section Router.

Variable getHciErrorMessage : Z -> string.

(** What a decoder of [HciLeController.ts] hands back. *)
Context {leEventData : Type}.
Variables LeConnectionComplete_parse LeConnectionUpdateComplete_parse
          LeReadRemoteFeaturesComplete_parse LeEnhConnectionComplete_parse
  : Buffer.t -> result (Z * leEventData).
Variables LeAdvReport_parse LeExtAdvReport_parse
  : Buffer.t -> result (list leEventData).

(** The event object of a notification. *)
Inductive eventObject :=
  | DisconnectionCompleteEvent (connectionHandle : Z) (code : Z) (message : string)
  | EncryptionChangeEvent (connectionHandle : Z) (encEnabled : Z)
  | LeChannelSelAlgoEvent (connectionHandle : Z) (algorithm : Z)
  | LeEvent (data : leEventData).

(** [this.emit(label, err, event)] for the events that carry a status
    ([err] is [null] on success), [this.emit(label, event)] for the
    others. *)
Inductive notification :=
  | EmitStatus (label : string) (err : option Error) (event : eventObject)
  | Emit (label : string) (event : eventObject).

Record state := {
  cmd : HciCmd.state;
  emitted : list notification;
}.

Definition emit (n : notification) (st : state) : state :=
  {| cmd := cmd st; emitted := emitted st ++ [n] |}.

(** [Hci.emitEvent] *)
Definition emitEvent (label : string) (status : Z) (event : eventObject)
  (st : state) : state :=
  if status =? Success
  then emit (EmitStatus label None event) st
  else emit (EmitStatus label (Some (makeHciError status)) event) st.

(** [Hci.onDisconnectionComplete]: a payload that is not 4 bytes long is
    only logged; the reads go on. *)
Definition onDisconnectionComplete (payload : Buffer.t) (st : state) : result state :=
  let o := 0%nat in
  let* status := BufferRead.readUIntLE payload o 1 in
  let o := (o + 1)%nat in
  let* connectionHandle := BufferRead.readUIntLE payload o 2 in
  let o := (o + 2)%nat in
  let* reasonCode := BufferRead.readUIntLE payload o 1 in
  Ok (emitEvent "DisconnectionComplete" status
        (DisconnectionCompleteEvent connectionHandle reasonCode
           (getHciErrorMessage reasonCode)) st).

(** [Hci.onEncryptionChange] *)
Definition onEncryptionChange (payload : Buffer.t) (st : state) : result state :=
  let o := 0%nat in
  let* status := BufferRead.readUIntLE payload o 1 in
  let o := (o + 1)%nat in
  let* connectionHandle := BufferRead.readUIntLE payload o 2 in
  let o := (o + 2)%nat in
  let* encEnabled := BufferRead.readUIntLE payload o 1 in
  Ok (emitEvent "EncryptionChange" status
        (EncryptionChangeEvent connectionHandle encEnabled) st).

(** [Hci.onCommandComplete] *)
Definition onCommandComplete (payload : Buffer.t) (st : state) : result state :=
  if (length payload <? 4)%nat then Ok st
  else
    let* opcode := Buffer.readUInt16LE payload 1 in
    Ok {| cmd :=
            HciCmd.onCmdResult
              {| HciCmdResult.status := BufferRead.at_ payload 3;
                 HciCmdResult.numHciPackets := BufferRead.at_ payload 0;
                 HciCmdResult.opcode := opcode;
                 HciCmdResult.returnParameters := Some (BufferRead.slice payload 4) |}
              (cmd st);
          emitted := emitted st |}.

(** [Hci.onCommandStatus] *)
Definition onCommandStatus (payload : Buffer.t) (st : state) : result state :=
  if (length payload <? 4)%nat then Ok st
  else
    let* opcode := Buffer.readUInt16LE payload 2 in
    Ok {| cmd :=
            HciCmd.onCmdResult
              {| HciCmdResult.status := BufferRead.at_ payload 0;
                 HciCmdResult.numHciPackets := BufferRead.at_ payload 1;
                 HciCmdResult.opcode := opcode;
                 HciCmdResult.returnParameters := None |}
              (cmd st);
          emitted := emitted st |}.

(** [count] reads of two bytes each, from [o] on. *)
Fixpoint readPairs (payload : Buffer.t) (count : nat) (o : nat) : result (list Z * nat) :=
  match count with
  | O => Ok ([], o)
  | S n =>
      let* v := BufferRead.readUIntLE payload o 2 in
      let* (rest, o') := readPairs payload n (o + 2) in
      Ok (v :: rest, o')
  end.

(** [Hci.onNumberOfCompletedPackets]: the handles and counts are read and
    logged, nothing more. *)
Definition onNumberOfCompletedPackets (payload : Buffer.t) (st : state) : result state :=
  let o := 0%nat in
  let* numHandles := BufferRead.readUIntLE payload o 1 in
  let o := (o + 1)%nat in
  let* (connectionHandles, o) := readPairs payload (Z.to_nat numHandles) o in
  let* (numCompletedPackets, o) := readPairs payload (Z.to_nat numHandles) o in
  Ok st.

(** [emitEvent(label, status, eventData)] on what a decoder returned. *)
Definition onLeStatusEvent (label : string)
  (parse : Buffer.t -> result (Z * leEventData)) (data : Buffer.t) (st : state)
  : result state :=
  let* (status, eventData) := parse data in
  Ok (emitEvent label status (LeEvent eventData) st).

(** [for (const report of reports) this.emit(label, report)] *)
Definition onLeReports (label : string)
  (parse : Buffer.t -> result (list leEventData)) (data : Buffer.t) (st : state)
  : result state :=
  let* reports := parse data in
  Ok (fold_left (fun st report => emit (Emit label (LeEvent report)) st) reports st).

(** [Hci.onLeChannelSelectionAlgorithm] *)
Definition onLeChannelSelectionAlgorithm (data : Buffer.t) (st : state) : result state :=
  let* connectionHandle := BufferRead.readUIntLE data 0 2 in
  let* algorithm := BufferRead.readUIntLE data 2 1 in
  Ok (emit (Emit "LeChannelSelectionAlgorithm"
              (LeChannelSelAlgoEvent connectionHandle algorithm)) st).

(** [Hci.onLeEvent]; with no byte at all [data[0]] is [undefined] and the
    switch takes its default. *)
Definition onLeEvent (data : Buffer.t) (st : state) : result state :=
  match data with
  | [] => Ok st
  | eventType :: payload =>
      if eventType =? ordinal LeConnectionComplete then
        onLeStatusEvent "LeConnectionComplete" LeConnectionComplete_parse payload st
      else if eventType =? ordinal LeAdvertisingReport then
        onLeReports "LeAdvertisingReport" LeAdvReport_parse payload st
      else if eventType =? ordinal LeConnectionUpdateComplete then
        onLeStatusEvent "LeConnectionUpdateComplete"
          LeConnectionUpdateComplete_parse payload st
      else if eventType =? ordinal LeReadRemoteFeaturesComplete then
        onLeStatusEvent "LeReadRemoteFeaturesComplete"
          LeReadRemoteFeaturesComplete_parse payload st
      else if eventType =? ordinal LeEnhancedConnectionComplete then
        onLeStatusEvent "LeEnhancedConnectionComplete"
          LeEnhConnectionComplete_parse payload st
      else if eventType =? ordinal LeExtendedAdvertisingReport then
        onLeReports "LeExtendedAdvertisingReport" LeExtAdvReport_parse payload st
      else if eventType =? ordinal LeChannelSelectionAlgorithm then
        onLeChannelSelectionAlgorithm payload st
      else Ok st
  end.

(** [Hci.onHciEvent] *)
Definition onHciEvent (data : Buffer.t) (st : state) : result state :=
  if (length data <? 2)%nat then Ok st
  else
    let eventCode := BufferRead.at_ data 0 in
    let payloadLength := BufferRead.at_ data 1 in
    let payload := BufferRead.slice data 2 in
    if negb (payloadLength =? Z.of_nat (length payload)) then Ok st
    else if eventCode =? ordinal DisconnectionComplete then
      onDisconnectionComplete payload st
    else if eventCode =? ordinal EncryptionChange then
      onEncryptionChange payload st
    else if eventCode =? ordinal CommandComplete then
      onCommandComplete payload st
    else if eventCode =? ordinal CommandStatus then
      onCommandStatus payload st
    else if eventCode =? ordinal NumberOfCompletedPackets then
      onNumberOfCompletedPackets payload st
    else if eventCode =? ordinal LEMeta then
      onLeEvent payload st
    else Ok st.

(** [Hci.onData]: only event packets are looked at, and whatever a handler
    throws is caught and logged. *)
Definition onData (packetType : HciPacketType) (data : Buffer.t) (st : state) : state :=
  match packetType with
  | HciEvent =>
      match onHciEvent data st with
      | Ok st' => st'
      | Throw _ => st
      end
  | HciAclData => st
  | HciCommand => st
  end.

End Router.
End HciEvents.

(** ** Vocabulary of the properties *)

(** The frame both builders produce: opcode, length byte, payload. *)
Definition frame (op : Z) (p : option Buffer.t) : Buffer.t :=
  op mod 256 :: op / 256 mod 256 :: Z.of_nat (payloadLength p) ::
  match p with Some b => b | None => [] end.

(** What holds of every state the [HciCmd] dispatcher can reach: a pending
    call owns the slot, the armed timer is the slot's, and closures and
    settled promises belong to calls that were made. *)
Record inv (st : HciCmd.state) : Prop := {
  inv_slot : forall id, HciCmd.outstanding st id ->
             exists c, HciCmd.onResult st = Some c /\ HciCmd.call c = id;
  inv_timers : HciCmd.timers st =
               match HciCmd.onResult st with
               | Some c => {[HciCmd.call c]}
               | None => ∅
               end;
  inv_call : forall c, HciCmd.onResult st = Some c ->
             (HciCmd.call c < HciCmd.calls st)%nat;
  inv_made : forall id, is_Some (HciCmd.promises st !! id) ->
             (id < HciCmd.calls st)%nat;
}.

(** What [classify] makes of a call that is still unsettled. *)
Definition classified (id : nat) (evt : HciCmdResult.t) (st' : HciCmd.state) : Prop :=
  HciCmd.onResult st' = None /\
  (id ∉ HciCmd.timers st') /\
  (HciCmdResult.status evt = 0 ->
   HciCmd.promises st' !! id = Some (Resolved evt)) /\
  (HciCmdResult.status evt <> 0 ->
   HciCmd.promises st' !! id =
   Some (Rejected (makeHciError (HciCmdResult.status evt)))).

(** The commands of the submissions, in order: call [id] is the one that
    the [id]-th submission made. *)
Definition submitted (inputs : list HciCmd.input) : list Command.t :=
  flat_map (fun i => match i with HciCmd.Submit _ c => [c] | _ => [] end) inputs.

(** Where the outcome of call [id], made for the command [c], comes from. *)
Definition outcome_of (inputs : list HciCmd.input) (id : nat) (c : Command.t)
  (how : settlement) : Prop :=
  match how with
  | Resolved evt =>
      In (HciCmd.Deliver evt) inputs /\ HciCmd.answers c evt /\
      HciCmdResult.status evt = 0
  | Rejected err =>
      err = makeParserError Busy \/
      (err = RangeError /\
       ~ (0 <= Command.opcode c <= 65535 /\
          (payloadLength (Command.payload c) <= 255)%nat)) \/
      (err = makeParserError Timeout /\ In (HciCmd.Expire id) inputs) \/
      (exists evt,
         In (HciCmd.Deliver evt) inputs /\ HciCmd.answers c evt /\
         HciCmdResult.status evt <> 0 /\
         err = makeHciError (HciCmdResult.status evt))
  end.

(** Every reachable state remembers whose outcome is whose. *)
Definition traced (inputs : list HciCmd.input) : Prop :=
  let st := HciCmd.run inputs in
  HciCmd.calls st = length (submitted inputs) /\
  (forall p, HciCmd.onResult st = Some p ->
     nth_error (submitted inputs) (HciCmd.call p) = Some (HciCmd.cmd p)) /\
  (forall id how, HciCmd.promises st !! id = Some how ->
     exists c, nth_error (submitted inputs) id = Some c /\
               outcome_of inputs id c how).

(** ** ACL data of the [Hci] class built on [HciCmd] *)

(** [enum AclDataBoundary]; its member [Complete] is [AclComplete] here. *)
Inductive AclDataBoundary := FirstNoFlushFrag | NextFrag | FirstFrag | AclComplete.

#[export] Instance AclDataBoundary_enum : Enum AclDataBoundary := fun e =>
  match e with
  | FirstNoFlushFrag => 0 | NextFrag => 1 | FirstFrag => 2 | AclComplete => 3
  end.

Inductive AclDataBroadcast := PointToPoint | Broadcast.

#[export] Instance AclDataBroadcast_enum : Enum AclDataBroadcast := fun e =>
  match e with PointToPoint => 0 | Broadcast => 1 end.

(** [Hci.sendAclData]: the buffer handed to [send] with the packet type
    [HciAclData]. *)
Definition sendAclData (mem : nat -> Z) (handle : Z)
  (boundary : AclDataBoundary) (broadcast : AclDataBroadcast) (data : Buffer.t)
  : result Buffer.t :=
  let aclHdrSize := 4%nat in
  let hdr :=
    JS.bor (JS.bor (JS.shl handle 0) (JS.shl (ordinal boundary) 12))
           (JS.shl (ordinal broadcast) 14) in
  let totalSize := (aclHdrSize + length data)%nat in
  let buffer := Buffer.allocUnsafe mem totalSize in
  let* (buffer, _) := Buffer.writeUInt16LE buffer hdr 0 in
  let* (buffer, _) := Buffer.writeUInt16LE buffer (Z.of_nat (length data)) 2 in
  Ok (Buffer.copy data buffer aclHdrSize).

(** ** Supported LE states (HciLe.ts) *)

Inductive LeState :=
  | ScanUndirectAdv | ConnScanUndirectAdv | NonConnNonScanUndirectAdv
  | HighDutyConnDirectAdv | LowDutyConnDirectAdv | ActiveScanning
  | PassiveScanning | Initiating | ConnectionMasterRole | ConnectionSlaveRole.

#[export] Instance LeState_enum : Enum LeState := fun e =>
  match e with
  | ScanUndirectAdv => 0 | ConnScanUndirectAdv => 1
  | NonConnNonScanUndirectAdv => 2 | HighDutyConnDirectAdv => 3
  | LowDutyConnDirectAdv => 4 | ActiveScanning => 5 | PassiveScanning => 6
  | Initiating => 7 | ConnectionMasterRole => 8 | ConnectionSlaveRole => 9
  end.

#[export] Instance LeState_eq_dec : EqDecision LeState.
Proof. solve_decision. Defined.

Definition LeStateNames : list string := [
  "Scannable Undirected Advertising State";
  "Connectable and Scannable Undirected Advertising State";
  "Non-connectable and Non-Scannable Undirected Advertising State";
  "High Duty Cycle Connectable Directed Advertising State";
  "Low Duty Cycle Connectable Directed Advertising State";
  "Active Scanning State";
  "Passive Scanning State";
  "Initiating State";
  "Connection State (Master Role)";
  "Connection State (Slave Role)"
]%string.

Definition LeAllowedStates : list (list LeState) := [
  [NonConnNonScanUndirectAdv];
  [ScanUndirectAdv];
  [ConnScanUndirectAdv];
  [HighDutyConnDirectAdv];
  [PassiveScanning];
  [ActiveScanning];
  [Initiating];
  [ConnectionSlaveRole];
  [NonConnNonScanUndirectAdv; PassiveScanning];
  [ScanUndirectAdv; PassiveScanning];
  [ConnScanUndirectAdv; PassiveScanning];
  [HighDutyConnDirectAdv; PassiveScanning];
  [NonConnNonScanUndirectAdv; ActiveScanning];
  [ScanUndirectAdv; ActiveScanning];
  [ConnScanUndirectAdv; ActiveScanning];
  [HighDutyConnDirectAdv; ActiveScanning];
  [NonConnNonScanUndirectAdv; Initiating];
  [ScanUndirectAdv; Initiating];
  [NonConnNonScanUndirectAdv; ConnectionMasterRole];
  [ScanUndirectAdv; ConnectionMasterRole];
  [NonConnNonScanUndirectAdv; ConnectionSlaveRole];
  [ScanUndirectAdv; ConnectionSlaveRole];
  [PassiveScanning; Initiating];
  [ActiveScanning; Initiating];
  [PassiveScanning; ConnectionMasterRole];
  [ActiveScanning; ConnectionMasterRole];
  [PassiveScanning; ConnectionSlaveRole];
  [ActiveScanning; ConnectionSlaveRole];
  [Initiating; ConnectionMasterRole];
  [LowDutyConnDirectAdv];
  [LowDutyConnDirectAdv; PassiveScanning];
  [LowDutyConnDirectAdv; ActiveScanning];
  [ConnScanUndirectAdv; Initiating];
  [HighDutyConnDirectAdv; Initiating];
  [LowDutyConnDirectAdv; Initiating];
  [ConnScanUndirectAdv; ConnectionMasterRole];
  [HighDutyConnDirectAdv; ConnectionMasterRole];
  [LowDutyConnDirectAdv; ConnectionMasterRole];
  [ConnScanUndirectAdv; ConnectionSlaveRole];
  [HighDutyConnDirectAdv; ConnectionSlaveRole];
  [LowDutyConnDirectAdv; ConnectionSlaveRole];
  [Initiating; ConnectionSlaveRole]
].

Module LeSupportedStates.

(** The class wraps the list [states]. *)
Definition t := list (list LeState).

(** One turn of the loop of [fromBitmask]:
    [if ((bitmask & (1n << b)) !== 0n) states.push(LeAllowedStates[Number(b)])]. *)
Definition pushIfSet (bitmask : Z) (states : t) (b : nat) : t :=
  if negb (Z.land bitmask (Z.shiftl 1 (Z.of_nat b)) =? 0)
  then states ++ [nth b LeAllowedStates []]
  else states.

(** [LeSupportedStates.fromBitmask(bitmask)], [b] going from 0 to 41. *)
Definition fromBitmask (bitmask : Z) : t :=
  fold_left (pushIfSet bitmask) (seq 0 42) [].

(** [toString()] *)
Definition toString (states : t) : list (list string) :=
  map (map (fun e => nth (Z.to_nat (ordinal e)) LeStateNames EmptyString)) states.

End LeSupportedStates.

Inductive LePhy := LePhy1M | LePhy2M | LePhyCoded.

#[export] Instance LePhy_enum : Enum LePhy := fun e =>
  match e with LePhy1M => 0 | LePhy2M => 1 | LePhyCoded => 2 end.

(** ** Command parameters of the stand-alone [Hci] class

    What each method hands to [sendLeCommand] as the payload; a method that
    throws before it gets there sends nothing. *)
Module HciPayload.


(** The body shared by [leSetAdvertisingData] and [leSetScanResponseData]:
    [Buffer.alloc(1+31, 0)], the length, the data. *)
Definition legacyData (data : Buffer.t) : result Buffer.t :=
  if (31 <? length data)%nat then Throw (makeHciError InvalidCommandParameter)
  else
    let payload := repeat 0 (1 + 31) in
    let* (payload, _) := Buffer.writeUInt8 payload (Z.of_nat (length data)) 0 in
    Ok (Buffer.copy data payload 1).

Definition leSetAdvertisingData (data : Buffer.t) : result Buffer.t :=
  legacyData data.

Definition leSetScanResponseData (data : Buffer.t) : result Buffer.t :=
  legacyData data.

Definition leSetAdvertisingEnable (mem : nat -> Z) (enable : bool) : result Buffer.t :=
  let payload := Buffer.allocUnsafe mem 1 in
  let* (payload, _) := Buffer.writeUInt8 payload (Hci.flag enable) 0 in
  Ok payload.

(** [leSetScanEnable]: both [writeUInt8] calls leave the offset out, and it
    defaults to 0.  [filterDuplicates] is optional; left out it counts as
    false. *)
Definition leSetScanEnable (mem : nat -> Z) (enable : bool)
  (filterDuplicates : option bool) : result Buffer.t :=
  let payload := Buffer.allocUnsafe mem 2 in
  let* (payload, _) := Buffer.writeUInt8 payload (Hci.flag enable) 0 in
  let* (payload, _) :=
    Buffer.writeUInt8 payload
      (Hci.flag (match filterDuplicates with Some b => b | None => false end)) 0 in
  Ok payload.

Definition leWriteSuggestedDefaultDataLength (mem : nat -> Z)
  (suggestedMaxTxOctets suggestedMaxTxTime : Z) : result Buffer.t :=
  let payload := Buffer.allocUnsafe mem 4 in
  let* (payload, _) := Buffer.writeUInt16LE payload suggestedMaxTxOctets 0 in
  let* (payload, _) := Buffer.writeUInt16LE payload suggestedMaxTxTime 2 in
  Ok payload.

Definition leReadPhy (mem : nat -> Z) (connectionHandle : Z) : result Buffer.t :=
  let payload := Buffer.allocUnsafe mem 2 in
  let* (payload, _) := Buffer.writeUInt16LE payload connectionHandle 0 in
  Ok payload.

Definition leSetDefaultPhy (mem : nat -> Z) (txPhys rxPhys : option LePhy)
  : result Buffer.t :=
  let '(allPhys, txPhys_, rxPhys_) := (0, 0, 0) in
  let '(allPhys, txPhys_) :=
    match txPhys with
    | None => (JS.bor allPhys (JS.shl 1 0), txPhys_)
    | Some phy => (allPhys, JS.shl 1 (ordinal phy))
    end in
  let '(allPhys, rxPhys_) :=
    match rxPhys with
    | None => (JS.bor allPhys (JS.shl 1 1), rxPhys_)
    | Some phy => (allPhys, JS.shl 1 (ordinal phy))
    end in
  let payload := Buffer.allocUnsafe mem 3 in
  let o := 0%nat in
  let* (payload, o) := Buffer.writeUInt8 payload allPhys o in
  let* (payload, o) := Buffer.writeUInt8 payload txPhys_ o in
  let* (payload, o) := Buffer.writeUInt8 payload rxPhys_ o in
  Ok payload.

Definition leSetAdvertisingSetRandomAddress (mem : nat -> Z)
  (advertisingHandle advertisingRandomAddress : Z) : result Buffer.t :=
  let payload := Buffer.allocUnsafe mem 7 in
  let o := 0%nat in
  let* (payload, o) := Buffer.writeUIntLE payload advertisingHandle o 1 in
  let* (payload, o) := Buffer.writeUIntLE payload advertisingRandomAddress o 6 in
  Ok payload.

End HciPayload.

(** ** Return parameters of the stand-alone [Hci] class

    What each method makes of [result.returnParameters] once [send] has
    resolved: the value it returns, or the error it throws. *)
Module HciReturn.

Definition invalidPayloadSize : Error := HciSend.makeError InvalidPayloadSize.

Definition readLocalSupportedFeatures (returnParameters : Buffer.t) : result Z :=
  if (length returnParameters <? 64 / 8)%nat then Throw invalidPayloadSize
  else BufferRead.readBigUInt64LE returnParameters 0.

Definition readBdAddr (returnParameters : Buffer.t) : result Z :=
  if (length returnParameters <? 6)%nat then Throw invalidPayloadSize
  else BufferRead.readUIntLE returnParameters 0 6.

(** [{ leAclDataPacketLength, totalNumLeAclDataPackets }] *)
Definition leReadBufferSize (returnParameters : Buffer.t) : result (Z * Z) :=
  if (length returnParameters <? 3)%nat then Throw invalidPayloadSize
  else
    let* leAclDataPacketLength := Buffer.readUInt16LE returnParameters 0 in
    let* totalNumLeAclDataPackets := BufferRead.readUInt8 returnParameters 2 in
    Ok (leAclDataPacketLength, totalNumLeAclDataPackets).

(** [{ leAclDataPacketLength, totalNumLeAclDataPackets, isoDataPacketLength,
    totalNumIsoDataPackets }] *)
Definition leReadBufferSizeV2 (returnParameters : Buffer.t) : result (Z * Z * Z * Z) :=
  if (length returnParameters <? 6)%nat then Throw invalidPayloadSize
  else
    let* leAclDataPacketLength := Buffer.readUInt16LE returnParameters 0 in
    let* totalNumLeAclDataPackets := BufferRead.readUInt8 returnParameters 2 in
    let* isoDataPacketLength := Buffer.readUInt16LE returnParameters 3 in
    let* totalNumIsoDataPackets := BufferRead.readUInt8 returnParameters 5 in
    Ok (leAclDataPacketLength, totalNumLeAclDataPackets,
        isoDataPacketLength, totalNumIsoDataPackets).

Definition leReadSupportedFeatures (returnParameters : Buffer.t) : result Z :=
  if (length returnParameters <? 64 / 8)%nat then Throw invalidPayloadSize
  else BufferRead.readBigUInt64LE returnParameters 0.

Definition leReadAdvertisingPhysicalChannelTxPower (returnParameters : Buffer.t)
  : result Z :=
  if (length returnParameters <? 1)%nat then Throw invalidPayloadSize
  else BufferRead.readInt8 returnParameters 0.

Definition leReadWhiteListSize (returnParameters : Buffer.t) : result Z :=
  if (length returnParameters <? 1)%nat then Throw invalidPayloadSize
  else BufferRead.readUInt8 returnParameters 0.

Definition leReadSupportedStates (params : Buffer.t) : result LeSupportedStates.t :=
  if (length params <? 64 / 8)%nat then Throw invalidPayloadSize
  else
    let* bitmask := BufferRead.readBigUInt64LE params 0 in
    Ok (LeSupportedStates.fromBitmask bitmask).

(** [{ suggestedMaxTxOctets, suggestedMaxTxTime }] *)
Definition leReadSuggestedDefaultDataLength (params : Buffer.t) : result (Z * Z) :=
  if (length params <? 4)%nat then Throw invalidPayloadSize
  else
    let* suggestedMaxTxOctets := Buffer.readUInt16LE params 0 in
    let* suggestedMaxTxTime := Buffer.readUInt16LE params 2 in
    Ok (suggestedMaxTxOctets, suggestedMaxTxTime).

Definition leReadResolvingListSize (returnParameters : Buffer.t) : result Z :=
  if (length returnParameters <? 1)%nat then Throw invalidPayloadSize
  else BufferRead.readUInt8 returnParameters 0.

(** [{ supportedMaxTxOctets, supportedMaxTxTime, supportedMaxRxOctets,
    supportedMaxRxTime }] *)
Definition leReadMaximumDataLength (params : Buffer.t) : result (Z * Z * Z * Z) :=
  if (length params <? 8)%nat then Throw invalidPayloadSize
  else
    let* supportedMaxTxOctets := Buffer.readUInt16LE params 0 in
    let* supportedMaxTxTime := Buffer.readUInt16LE params 2 in
    let* supportedMaxRxOctets := Buffer.readUInt16LE params 4 in
    let* supportedMaxRxTime := Buffer.readUInt16LE params 6 in
    Ok (supportedMaxTxOctets, supportedMaxTxTime,
        supportedMaxRxOctets, supportedMaxRxTime).

(** [{ connectionHandle, txPhy, rxPhy }] *)
Definition leReadPhy (params : Buffer.t) : result (Z * Z * Z) :=
  if (length params <? 4)%nat then Throw invalidPayloadSize
  else
    let* connectionHandle := Buffer.readUInt16LE params 0 in
    let* txPhy := BufferRead.readUInt8 params 2 in
    let* rxPhy := BufferRead.readUInt8 params 3 in
    Ok (connectionHandle, txPhy, rxPhy).

Definition leReadNumberOfSupportedAdvertisingSets (returnParameters : Buffer.t)
  : result Z :=
  if (length returnParameters <? 1)%nat then Throw invalidPayloadSize
  else BufferRead.readUInt8 returnParameters 0.

(** The selected TX power of [leSetExtendedAdvertisingParameters]. *)
Definition leSetExtendedAdvertisingParameters (returnParameters : Buffer.t)
  : result Z :=
  if (length returnParameters <? 1)%nat then Throw invalidPayloadSize
  else BufferRead.readInt8 returnParameters 0.

End HciReturn.

(** ** Incoming data of the stand-alone [Hci] class

    [Hci.onData] gets every packet as an event packet.  The state is the
    dispatcher of [Hci.send] and the ['parser-error'] notifications emitted
    so far, oldest first. *)
Module HciReceive.

(** The two messages of ['parser-error']:
    [(evt) invalid payload size: ${payloadLength}/${payload.length}] and
    [(evt-cmd_complete) invalid payload size: ${payload.length}]. *)
Inductive parserError :=
  | InvalidEventSize (payloadLength : Z) (actual : nat)
  | InvalidCmdCompleteSize (actual : nat).

Record state := {
  dispatcher : HciSend.state;
  parserErrors : list parserError;
}.

Definition emit (e : parserError) (st : state) : state :=
  {| dispatcher := dispatcher st; parserErrors := parserErrors st ++ [e] |}.

(** [HciEventCode.HCI_EVT_CMD_COMPLETE] *)
Definition HCI_EVT_CMD_COMPLETE : Z := 14.

(** [Hci.onData] *)
Definition onData (data : Buffer.t) (st : state) : result state :=
  if (length data <? 2)%nat then Ok st
  else
    let eventCode := BufferRead.at_ data 0 in
    let payloadLength := BufferRead.at_ data 1 in
    let payload := BufferRead.slice data 2 in
    if negb (payloadLength =? Z.of_nat (length payload))
    then Ok (emit (InvalidEventSize payloadLength (length payload)) st)
    else if eventCode =? HCI_EVT_CMD_COMPLETE then
      if (length payload <? 4)%nat
      then Ok (emit (InvalidCmdCompleteSize (length payload)) st)
      else
        match HciSend.onCmdComplete (dispatcher st) with
        | Some onCmdComplete =>
            let* opcode := Buffer.readUInt16LE payload 1 in
            Ok {| dispatcher :=
                    HciSend.handler onCmdComplete
                      {| HciEvtCmdComplete.numHciPackets := BufferRead.at_ payload 0;
                         HciEvtCmdComplete.opcode := opcode;
                         HciEvtCmdComplete.status := BufferRead.at_ payload 3;
                         HciEvtCmdComplete.returnParameters :=
                           BufferRead.slice payload 4 |}
                      (dispatcher st);
                  parserErrors := parserErrors st |}
        | None => Ok st
        end
    else Ok st.

(** [Hci.sendLeCommand(ocf, payload)] *)
Definition sendLeCommand (mem : nat -> Z) (ocf : Z) (payload : option Buffer.t)
  (st : state) : state :=
  {| dispatcher :=
       HciSend.send mem
         {| HciCommand.opcode :=
              HciOpcode.build {| HciOpcode.ogf := ordinal LeControllerCommands;
                                 HciOpcode.ocf := ocf |};
            HciCommand.params := payload |}
         (dispatcher st);
     parserErrors := parserErrors st |}.

End HciReceive.

(** ** Command parameters built in line by the [Hci] class on [HciCmd]

    The methods that make their payload themselves, without a codec of
    [HciLeController.ts]. *)
Module HciInline.

(** [Buffer.from([ value ])]: an array entry is stored modulo 256. *)
Definition fromByte (value : Z) : Buffer.t := [value mod 256].





Definition leSetAddressResolutionEnable (enable : bool) : Buffer.t :=
  fromByte (Hci.flag enable).


(** What [leReadMaximumAdvertisingDataLength] makes of the return
    parameters: [if (!params || params.length < 2) throw ...]. *)
Definition leReadMaximumAdvertisingDataLength (params : option Buffer.t) : result Z :=
  match params with
  | None => Throw (makeParserError InvalidPayloadSize)
  | Some params =>
      if (length params <? 2)%nat then Throw (makeParserError InvalidPayloadSize)
      else Buffer.readUInt16LE params 0
  end.


End HciInline.

(** A router to run: its advertising decoders return one report per byte,
    the other decoders refuse everything, no error has a message; the LE
    Read Channel Map command of handle 10 is pending. *)
Module RouterScenario.

Definition refuse (data : Buffer.t) : result (Z * Z) := Throw RangeError.

Definition perByte (data : Buffer.t) : result (list Z) := Ok data.

Definition onData :=
  HciEvents.onData (fun _ => EmptyString) refuse refuse refuse refuse perByte perByte.

Definition channelMapPending : HciEvents.state (leEventData := Z) :=
  {| HciEvents.cmd := HciCmd.run Scenario.channelMapPending;
     HciEvents.emitted := [] |}.

Definition pending : HciCmd.closure :=
  {| HciCmd.call := 0; HciCmd.cmd := Scenario.leReadChannelMap |}.

End RouterScenario.

(** A step of the event router that leaves the dispatcher alone and drops
    no notification. *)
Definition only_notifies {leEventData : Type}
  (st st' : HciEvents.state (leEventData := leEventData)) : Prop :=
  HciEvents.cmd st' = HciEvents.cmd st /\
  exists more, HciEvents.emitted st' = HciEvents.emitted st ++ more.

(** A decoder of return parameters checks for [size] bytes: with fewer it
    throws the invalid-size error, and with [size] or more it returns a
    value that the bytes after the first [size] do not change. *)
Definition guards {A : Type} (decode : Buffer.t -> result A) (size : nat) : Prop :=
  forall returnParameters,
    ((length returnParameters < size)%nat ->
     decode returnParameters = Throw (JsError "Cannot parse payload, invalid size")) /\
    ((size <= length returnParameters)%nat ->
     exists v,
       decode returnParameters = Ok v /\
       forall extra,
         decode (firstn size returnParameters ++ extra) = Ok v).

(** The sub-blocks of [LeSetExtendedScanParameters] in wire order. *)
Definition scanTicks (ms : float) : list Z :=
  Buffer.le_bytes 2 (JS.ToUint (Hci.msToHciValue ms)).

Definition scanBlocks (selected : list Hci.ScanningPhy) : list Z :=
  map (fun phy => ordinal (Hci.type phy)) selected ++
  flat_map (fun phy => scanTicks (Hci.intervalMs phy)) selected ++
  flat_map (fun phy => scanTicks (Hci.windowMs phy)) selected.

(** Both tick values of a PHY pass the 2-byte range check. *)
Definition scanFits (phy : Hci.ScanningPhy) : Prop :=
  Buffer.checkInt (Hci.msToHciValue (Hci.intervalMs phy)) 65535 = true /\
  Buffer.checkInt (Hci.msToHciValue (Hci.windowMs phy)) 65535 = true.

(** Reachable states: the field [cmdOpcode] is the opcode of the command
    whose closure is installed; closures, armed timers and settled promises
    belong to calls that were made. *)
Record HciSend_inv (st : HciSend.state) : Prop := {
  send_inv_opcode : forall c, HciSend.onCmdComplete st = Some c ->
                    HciSend.cmdOpcode st = HciCommand.opcode (HciSend.cmd c) /\
                    (HciSend.call c < HciSend.calls st)%nat;
  send_inv_timers : forall id, id ∈ HciSend.timers st ->
                    (id < HciSend.calls st)%nat;
  send_inv_made : forall id, is_Some (HciSend.promises st !! id) ->
                  (id < HciSend.calls st)%nat;
}.

(** * Properties *)

Lemma ToInt32_small (x : Z) : - 2 ^ 31 <= x < 2 ^ 31 -> JS.ToInt32 x = x.
Proof.
  intros Hx. unfold JS.ToInt32.
  rewrite Z.mod_small by lia. lia.
Qed.

Lemma band_low10 (x : Z) : 0 <= x <= 1023 -> JS.band x 1023 = x.
Proof.
  intros Hx. unfold JS.band.
  rewrite !ToInt32_small by lia.
  change 1023 with (Z.ones 10).
  rewrite Z.land_ones by lia.
  apply Z.mod_small. change (2 ^ 10) with 1024. lia.
Qed.

Lemma lor_disjoint (hi lo : Z) :
  0 <= hi -> 0 <= lo < 2 ^ 10 -> Z.lor (hi * 2 ^ 10) lo = hi * 2 ^ 10 + lo.
Proof.
  intros Hhi Hlo.
  assert (Hland : Z.land (hi * 2 ^ 10) lo = 0).
  { apply Z.bits_inj'. intros n Hn. rewrite Z.land_spec, Z.bits_0.
    destruct (Z.lt_ge_cases n 10) as [Hlt|Hge].
    - rewrite Z.mul_pow2_bits_low by lia. reflexivity.
    - rewrite andb_comm.
      destruct (Z.eq_dec lo 0) as [->|Hnz]; [now rewrite Z.bits_0|].
      rewrite Z.bits_above_log2; [reflexivity|lia|].
      apply Z.lt_le_trans with 10; [|exact Hge].
      apply Z.log2_lt_pow2; lia. }
  rewrite <- Z.lxor_lor by exact Hland.
  symmetry. apply Z.add_nocarry_lxor. exact Hland.
Qed.

(** On protocol values, a 6-bit OGF and a 10-bit OCF, [build] packs the two
    fields into the 16-bit opcode and [expand] takes them apart again. *)
Lemma build_value (g c : Z) :
  0 <= g < 64 -> 0 <= c <= 1023 ->
  HciOpcode.build {| HciOpcode.ogf := g; HciOpcode.ocf := c |} = g * 1024 + c.
Proof.
  intros Hg Hc. unfold HciOpcode.build, JS.bor, JS.shl.
  cbn [HciOpcode.ogf HciOpcode.ocf].
  change (10 mod 32) with 10.
  rewrite (ToInt32_small g) by lia.
  rewrite Z.shiftl_mul_pow2 by lia.
  rewrite !(ToInt32_small (g * 2 ^ 10)) by lia.
  rewrite (ToInt32_small c) by lia.
  rewrite lor_disjoint by lia. reflexivity.
Qed.

Lemma expand_build (g c : Z) :
  0 <= g < 64 -> 0 <= c <= 1023 ->
  HciOpcode.expand (HciOpcode.build {| HciOpcode.ogf := g; HciOpcode.ocf := c |}) =
  {| HciOpcode.ogf := g; HciOpcode.ocf := c |}.
Proof.
  intros Hg Hc. rewrite build_value by assumption.
  unfold HciOpcode.expand, JS.sar, JS.band.
  change (10 mod 32) with 10.
  rewrite (ToInt32_small (g * 1024 + c)), (ToInt32_small 1023) by lia.
  f_equal.
  - rewrite Z.shiftr_div_pow2 by lia. change (2 ^ 10) with 1024.
    rewrite Z.div_add_l by lia. rewrite Z.div_small by lia. lia.
  - change 1023 with (Z.ones 10). rewrite Z.land_ones by lia.
    change (2 ^ 10) with 1024.
    rewrite Z.add_comm, Z.mod_add by lia. apply Z.mod_small. lia.
Qed.

(** C2, as stated, fails: [build] never masks the OCF.  With the LE
    controller group (OGF 8) and an OCF of [0x401] the code yields [0x2401]
    where the stated formula yields [0x2001]. *)
Lemma build_no_truncation :
  HciOpcode.build {| HciOpcode.ogf := 8; HciOpcode.ocf := 1025 |} = 9217 /\
  HciOpcode.spec_build {| HciOpcode.ogf := 8; HciOpcode.ocf := 1025 |} = 8193 /\
  HciOpcode.build {| HciOpcode.ogf := 8; HciOpcode.ocf := 1025 |} <>
  HciOpcode.spec_build {| HciOpcode.ogf := 8; HciOpcode.ocf := 1025 |}.
Proof. repeat split; vm_compute; congruence. Qed.

(** C2 (amended): for every OGF and every OCF that already fits in 10 bits,
    [HciOpcode.build] returns [(ogf << 10) | ocf], which is then equal to
    [(ogf << 10) | (ocf & 0x3FF)]. *)
Theorem build_masked_when_ocf_fits (g c : Z) :
  0 <= c <= 1023 ->
  HciOpcode.build {| HciOpcode.ogf := g; HciOpcode.ocf := c |} =
  HciOpcode.spec_build {| HciOpcode.ogf := g; HciOpcode.ocf := c |}.
Proof.
  intros Hc. unfold HciOpcode.build, HciOpcode.spec_build. simpl.
  now rewrite band_low10.
Qed.

Lemma build_masked_when_ocf_fits_witness :
  HciOpcode.build {| HciOpcode.ogf := 3; HciOpcode.ocf := 3 |} =
  HciOpcode.spec_build {| HciOpcode.ogf := 3; HciOpcode.ocf := 3 |}.
Proof. apply (build_masked_when_ocf_fits 3 3). lia. Defined.

(** ** Buffers *)

Lemma allocUnsafe_length (mem : nat -> Z) (n : nat) :
  length (Buffer.allocUnsafe mem n) = n.
Proof. unfold Buffer.allocUnsafe. now rewrite length_map, length_seq. Qed.

(** Writing over the middle of a buffer split as [pre ++ old ++ post]. *)
Lemma poke_app (pre old post bytes : list Z) :
  length old = length bytes ->
  Buffer.poke (pre ++ old ++ post) (length pre) bytes = pre ++ bytes ++ post.
Proof.
  intros Hlen. unfold Buffer.poke.
  rewrite firstn_app, firstn_all, Nat.sub_diag. simpl. rewrite app_nil_r.
  rewrite skipn_app.
  rewrite (skipn_all2 pre) by lia. simpl.
  replace (length pre + length bytes - length pre)%nat with (length old) by lia.
  rewrite skipn_app, skipn_all, Nat.sub_diag. reflexivity.
Qed.

Lemma writeUIntLE_ok (buf : Buffer.t) (v : Z) (off n : nat) :
  0 <= v < 2 ^ (8 * Z.of_nat n) ->
  (off + n <= length buf)%nat ->
  Buffer.writeUIntLE buf v off n =
  Ok (Buffer.poke buf off (Buffer.le_bytes n v), (off + n)%nat).
Proof.
  intros Hv Hoff. unfold Buffer.writeUIntLE.
  destruct (Z.leb_spec 0 v); [|lia].
  destruct (Z.ltb_spec v (2 ^ (8 * Z.of_nat n))); [|lia].
  destruct (Nat.leb_spec (off + n) (length buf)); [|lia].
  reflexivity.
Qed.

Lemma writeUIntLE_throws (buf : Buffer.t) (v : Z) (off n : nat) :
  ~ 0 <= v < 2 ^ (8 * Z.of_nat n) ->
  Buffer.writeUIntLE buf v off n = Throw RangeError.
Proof.
  intros Hv. unfold Buffer.writeUIntLE.
  destruct (Z.leb_spec 0 v); [|reflexivity].
  destruct (Z.ltb_spec v (2 ^ (8 * Z.of_nat n))); [lia|reflexivity].
Qed.

(** A buffer of [3 + n] bytes is three header bytes and [n] more. *)
Lemma buffer_header_split (buf : Buffer.t) (n : nat) :
  length buf = (3 + n)%nat ->
  exists a b c rest, buf = a :: b :: c :: rest /\ length rest = n.
Proof.
  intros H. destruct buf as [|a [|b [|c rest]]]; simpl in H; try lia.
  exists a, b, c, rest. split; [reflexivity|lia].
Qed.

(** Copying [src] over the tail of a buffer, after the cells [pre]. *)
Lemma copy_after (pre rest src : Buffer.t) :
  length rest = length src ->
  Buffer.copy src (pre ++ rest) (length pre) = pre ++ src.
Proof.
  intros Hlen. unfold Buffer.copy.
  rewrite length_app.
  replace (length pre + length rest - length pre)%nat with (length rest) by lia.
  rewrite Hlen, Nat.min_id, firstn_all.
  replace (pre ++ rest) with (pre ++ rest ++ []) by (now rewrite app_nil_r).
  rewrite (poke_app pre rest [] src Hlen).
  now rewrite app_nil_r.
Qed.

Lemma copy_fills_tail (a b c : Z) (rest src : Buffer.t) :
  length rest = length src ->
  Buffer.copy src (a :: b :: c :: rest) 3 = a :: b :: c :: src.
Proof. intros Hlen. exact (copy_after [a; b; c] rest src Hlen). Qed.


Lemma write_opcode (mem : nat -> Z) (op : Z) (n : nat) :
  0 <= op <= 65535 ->
  exists c rest,
    length rest = n /\
    Buffer.writeUIntLE (Buffer.allocUnsafe mem (3 + n)) op 0 2 =
    Ok (op mod 256 :: op / 256 mod 256 :: c :: rest, 2%nat).
Proof.
  intros Hop.
  destruct (buffer_header_split (Buffer.allocUnsafe mem (3 + n)) n
              (allocUnsafe_length _ _)) as (a & b & c & rest & -> & Hrest).
  exists c, rest. split; [exact Hrest|].
  rewrite writeUIntLE_ok; [reflexivity| |simpl; lia].
  change (2 ^ (8 * Z.of_nat 2)) with 65536. lia.
Qed.

Lemma write_length (a b c : Z) (rest : Buffer.t) (n : nat) :
  (n <= 255)%nat ->
  Buffer.writeUIntLE (a :: b :: c :: rest) (Z.of_nat n) 2 1 =
  Ok (a :: b :: Z.of_nat n :: rest, 3%nat).
Proof.
  intros Hn.
  rewrite writeUIntLE_ok; [|change (2 ^ (8 * Z.of_nat 1)) with 256; lia|simpl; lia].
  unfold Buffer.poke. simpl. now rewrite Z.mod_small by lia.
Qed.

Lemma copyPayload_frame (op : Z) (p : option Buffer.t) (rest : Buffer.t) :
  length rest = payloadLength p ->
  copyPayload p
    (op mod 256 :: op / 256 mod 256 :: Z.of_nat (payloadLength p) :: rest) =
  frame op p.
Proof.
  intros Hrest. unfold frame, copyPayload. destruct p as [src|]; simpl in *.
  - destruct (Nat.ltb_spec 0 (length src)) as [Hpos|Hz].
    + now rewrite copy_fills_tail.
    + destruct src; [|simpl in Hz; lia]. destruct rest; [reflexivity|simpl in Hrest; lia].
  - destruct rest; [reflexivity|simpl in Hrest; lia].
Qed.

Lemma buildCommand_frame (mem : nat -> Z) (cmd : Command.t) :
  0 <= Command.opcode cmd <= 65535 ->
  (payloadLength (Command.payload cmd) <= 255)%nat ->
  buildCommand mem cmd = Ok (frame (Command.opcode cmd) (Command.payload cmd)).
Proof.
  intros Hop Hlen. unfold buildCommand.
  destruct (write_opcode mem (Command.opcode cmd)
              (payloadLength (Command.payload cmd)) Hop)
    as (c & rest & Hrest & ->).
  cbn [bind]. rewrite write_length by exact Hlen. cbn [bind].
  now rewrite copyPayload_frame.
Qed.

Lemma buildBuffer_frame (mem : nat -> Z) (cmd : HciCommand.t) :
  0 <= HciCommand.opcode cmd <= 65535 ->
  (payloadLength (HciCommand.params cmd) <= 255)%nat ->
  buildBuffer mem cmd = Ok (frame (HciCommand.opcode cmd) (HciCommand.params cmd)).
Proof.
  intros Hop Hlen. unfold buildBuffer, Buffer.writeUInt16LE, Buffer.writeUInt8.
  destruct (write_opcode mem (HciCommand.opcode cmd)
              (payloadLength (HciCommand.params cmd)) Hop)
    as (c & rest & Hrest & ->).
  cbn [bind]. rewrite write_length by exact Hlen. cbn [bind].
  now rewrite copyPayload_frame.
Qed.

(** Outside that domain [buildCommand] throws: an opcode that is not a
    16-bit number, or a payload longer than 255 bytes, makes a write fail. *)
Lemma buildCommand_throws (mem : nat -> Z) (cmd : Command.t) :
  ~ (0 <= Command.opcode cmd <= 65535 /\
     (payloadLength (Command.payload cmd) <= 255)%nat) ->
  buildCommand mem cmd = Throw RangeError.
Proof.
  intros Hbad. unfold buildCommand.
  destruct (Z_le_dec 0 (Command.opcode cmd)) as [H0|H0];
    [destruct (Z_le_dec (Command.opcode cmd) 65535) as [H1|H1]|].
  - destruct (write_opcode mem (Command.opcode cmd)
                (payloadLength (Command.payload cmd)) (conj H0 H1))
      as (c & rest & Hrest & ->).
    cbn [bind]. rewrite writeUIntLE_throws; [reflexivity|].
    change (2 ^ (8 * Z.of_nat 1)) with 256. lia.
  - rewrite writeUIntLE_throws; [reflexivity|].
    change (2 ^ (8 * Z.of_nat 2)) with 65536. lia.
  - rewrite writeUIntLE_throws; [reflexivity|]. lia.
Qed.

Lemma frame_length (op : Z) (p : option Buffer.t) :
  length (frame op p) = (3 + payloadLength p)%nat.
Proof. unfold frame. destruct p; reflexivity. Qed.

Lemma frame_opcode (op : Z) (p : option Buffer.t) :
  0 <= op <= 65535 -> Buffer.readUInt16LE (frame op p) 0 = Ok op.
Proof.
  intros Hop. unfold frame, Buffer.readUInt16LE. simpl. f_equal.
  rewrite (Z.mod_small (op / 256)).
  - rewrite Z.add_comm. symmetry. apply Z.div_mod. lia.
  - split; [apply Z.div_pos; lia|apply Z.div_lt_upper_bound; lia].
Qed.

(** C3: for a 16-bit opcode and a payload of [L <= 255] bytes,
    [HciCmd.buildCommand] (and [Hci.buildBuffer], which frames the same way)
    returns a packet of exactly [3 + L] bytes, whatever the freshly allocated
    buffer held: the opcode little-endian in bytes 0 and 1, the length byte
    [L] at offset 2 and the payload from offset 3 on; with no payload the
    packet is the three header bytes with length byte 0. *)
Theorem command_packet_layout
  (mem : nat -> Z) (op : Z) (h : option Z) (p : option Buffer.t) :
  0 <= op <= 65535 ->
  (payloadLength p <= 255)%nat ->
  exists pkt,
    buildCommand mem
      {| Command.opcode := op; Command.connHandle := h; Command.payload := p |} = Ok pkt /\
    buildBuffer mem {| HciCommand.opcode := op; HciCommand.params := p |} = Ok pkt /\
    length pkt = (3 + payloadLength p)%nat /\
    Buffer.readUInt16LE pkt 0 = Ok op /\
    firstn 2 pkt = [op mod 256; op / 256 mod 256] /\
    nth_error pkt 2 = Some (Z.of_nat (payloadLength p)) /\
    skipn 3 pkt = match p with Some b => b | None => [] end /\
    (p = None -> pkt = [op mod 256; op / 256 mod 256; 0]).
Proof.
  intros Hop Hlen. exists (frame op p).
  split; [now apply buildCommand_frame|].
  split; [now apply buildBuffer_frame|].
  split; [apply frame_length|].
  split; [now apply frame_opcode|].
  repeat split. intros ->. reflexivity.
Qed.

Lemma command_packet_layout_witness :
  exists pkt,
    buildCommand (fun _ => 170)
      {| Command.opcode := 8204; Command.connHandle := None;
         Command.payload := Some [1; 0] |} = Ok pkt /\
    buildBuffer (fun _ => 170)
      {| HciCommand.opcode := 8204; HciCommand.params := Some [1; 0] |} = Ok pkt /\
    length pkt = 5%nat /\
    Buffer.readUInt16LE pkt 0 = Ok 8204 /\
    firstn 2 pkt = [12; 32] /\
    nth_error pkt 2 = Some 2 /\
    skipn 3 pkt = [1; 0] /\
    (Some [1; 0] = None -> pkt = [12; 32; 0]).
Proof.
  apply (command_packet_layout (fun _ => 170) 8204 None (Some [1; 0])).
  - lia.
  - simpl. lia.
Defined.

(** ** The dispatcher: promises settle once *)
Section Settle.
Import HciCmd.
Variables (id : nat) (how : settlement) (st : state).

Lemma settle_onResult : onResult (settle id how st) = onResult st.
Proof. unfold settle. now destruct (promises st !! id). Qed.

Lemma settle_timers : timers (settle id how st) = timers st.
Proof. unfold settle. now destruct (promises st !! id). Qed.

Lemma settle_calls : calls (settle id how st) = calls st.
Proof. unfold settle. now destruct (promises st !! id). Qed.

Lemma settle_sent : sent (settle id how st) = sent st.
Proof. unfold settle. now destruct (promises st !! id). Qed.

Lemma settle_fresh :
  promises st !! id = None -> promises (settle id how st) !! id = Some how.
Proof. intros H. unfold settle. rewrite H. simpl. apply lookup_insert_eq. Qed.

Lemma settle_settled (x : settlement) :
  promises st !! id = Some x -> settle id how st = st.
Proof. intros H. unfold settle. now rewrite H. Qed.

Lemma settle_other (j : nat) :
  j <> id -> promises (settle id how st) !! j = promises st !! j.
Proof.
  intros H. unfold settle. destruct (promises st !! id); [reflexivity|].
  simpl. now apply lookup_insert_ne.
Qed.

Lemma settle_keeps (j : nat) (x : settlement) :
  promises st !! j = Some x -> promises (settle id how st) !! j = Some x.
Proof.
  intros H. destruct (decide (j = id)) as [->|Hne].
  - now rewrite (settle_settled x H).
  - now rewrite settle_other.
Qed.

Lemma settle_is_Some (j : nat) :
  is_Some (promises (settle id how st) !! j) ->
  j = id \/ is_Some (promises st !! j).
Proof.
  intros H. destruct (decide (j = id)) as [->|Hne]; [now left|].
  right. now rewrite settle_other in H.
Qed.
End Settle.

(** ** The dispatcher: what holds of every state it can reach *)

Lemma inv_init : inv HciCmd.init.
Proof.
  split; simpl.
  - intros id [H _]. simpl in H. lia.
  - reflexivity.
  - discriminate.
  - intros id [x H]. now rewrite lookup_empty in H.
Qed.

Lemma inv_complete (st : HciCmd.state) (c : HciCmd.closure) (how : settlement) :
  inv st -> HciCmd.onResult st = Some c ->
  inv (HciCmd.complete (HciCmd.call c) how st).
Proof.
  intros [Hslot Htim Hcall Hmade] Hc. unfold HciCmd.complete. rewrite Hc in Htim.
  split.
  - intros id [Hlt Hnone]. exfalso.
    rewrite settle_calls in Hlt. simpl in Hlt.
    destruct (decide (id = HciCmd.call c)) as [->|Hne].
    + destruct (HciCmd.promises st !! HciCmd.call c) as [x|] eqn:E.
      * erewrite settle_keeps in Hnone by exact E. discriminate.
      * rewrite settle_fresh in Hnone by exact E. discriminate.
    + rewrite settle_other in Hnone by exact Hne. simpl in Hnone.
      destruct (Hslot id (conj Hlt Hnone)) as (c' & Hc' & Hid). congruence.
  - rewrite settle_timers, settle_onResult. simpl. rewrite Htim.
    apply set_eq. intros x. rewrite elem_of_difference, elem_of_empty. tauto.
  - intros c'. rewrite settle_onResult. discriminate.
  - intros id H. rewrite settle_calls. simpl.
    destruct (settle_is_Some _ _ _ _ H) as [->|H']; [now apply Hcall|now apply Hmade].
Qed.

Lemma inv_classify (st : HciCmd.state) (c : HciCmd.closure) (evt : HciCmdResult.t) :
  inv st -> HciCmd.onResult st = Some c ->
  inv (HciCmd.classify (HciCmd.call c) evt st).
Proof.
  intros Hinv Hc. unfold HciCmd.classify.
  destruct (HciCmdResult.status evt =? Success); now apply inv_complete.
Qed.

Lemma inv_handler (st : HciCmd.state) (c : HciCmd.closure) (evt : HciCmdResult.t) :
  inv st -> HciCmd.onResult st = Some c -> inv (HciCmd.handler c evt st).
Proof.
  intros Hinv Hc. unfold HciCmd.handler.
  destruct (negb _); [exact Hinv|].
  destruct (Command.connHandle _); [|now apply inv_classify].
  destruct (HciCmdResult.returnParameters evt) as [rp|]; [|exact Hinv].
  destruct (_ <? _)%nat; [exact Hinv|].
  destruct (Buffer.readUInt16LE rp 0); [|exact Hinv].
  destruct (negb _); [exact Hinv|now apply inv_classify].
Qed.

Lemma inv_sendWaitResult (mem : nat -> Z) (c : Command.t) (st : HciCmd.state) :
  inv st -> inv (HciCmd.sendWaitResult mem c st).
Proof.
  intros [Hslot Htim Hcall Hmade]. unfold HciCmd.sendWaitResult. simpl.
  assert (Hfresh : HciCmd.promises st !! HciCmd.calls st = None).
  { destruct (HciCmd.promises st !! HciCmd.calls st) eqn:E; [|reflexivity].
    assert (HciCmd.calls st < HciCmd.calls st)%nat by (apply Hmade; eauto). lia. }
  destruct (HciCmd.onResult st) as [p|] eqn:Hp.
  - (* busy *)
    split.
    + intros id [Hlt Hnone]. rewrite settle_onResult. simpl.
      rewrite settle_calls in Hlt. simpl in Hlt.
      destruct (decide (id = HciCmd.calls st)) as [->|Hne].
      * rewrite settle_fresh in Hnone by exact Hfresh. discriminate.
      * rewrite settle_other in Hnone by exact Hne. simpl in Hnone.
        apply Hslot. split; [lia|exact Hnone].
    + rewrite settle_timers, settle_onResult. simpl. exact Htim.
    + intros c'. rewrite settle_onResult, settle_calls. simpl.
      intros H. specialize (Hcall c' H). lia.
    + intros id H. rewrite settle_calls. simpl.
      destruct (settle_is_Some _ _ _ _ H) as [->|H']; [lia|]. simpl in H'.
      specialize (Hmade id H'). lia.
  - (* the slot is free: nothing is outstanding *)
    assert (Hidle : forall id, (id < HciCmd.calls st)%nat ->
                               is_Some (HciCmd.promises st !! id)).
    { intros id Hlt. destruct (HciCmd.promises st !! id) eqn:E; [eauto|].
      destruct (Hslot id (conj Hlt E)) as (c' & Hc' & _). discriminate. }
    destruct (buildCommand mem c) as [packet|e].
    + split; simpl.
      * intros id [Hlt Hnone]. simpl in Hlt, Hnone.
        eexists. split; [reflexivity|]. simpl.
        destruct (decide (id = HciCmd.calls st)) as [->|Hne]; [reflexivity|].
        destruct (Hidle id) as [x Hx]; [lia|congruence].
      * rewrite Htim. apply (left_id_L ∅ (∪)).
      * intros c' [= <-]. simpl. lia.
      * intros id H. specialize (Hmade id H). lia.
    + split.
      * intros id [Hlt Hnone]. exfalso.
        rewrite settle_calls in Hlt. simpl in Hlt.
        destruct (decide (id = HciCmd.calls st)) as [->|Hne].
        -- rewrite settle_fresh in Hnone by exact Hfresh. discriminate.
        -- rewrite settle_other in Hnone by exact Hne. simpl in Hnone.
           destruct (Hidle id) as [x Hx]; [lia|congruence].
      * rewrite settle_timers, settle_onResult. simpl. rewrite Htim.
        apply (left_id_L ∅ (∪)).
      * intros c'. rewrite settle_onResult, settle_calls. simpl.
        intros [= <-]. simpl. lia.
      * intros id H. rewrite settle_calls. simpl.
        destruct (settle_is_Some _ _ _ _ H) as [->|H']; [lia|]. simpl in H'.
        specialize (Hmade id H'). lia.
Qed.

Lemma inv_step (st : HciCmd.state) (i : HciCmd.input) :
  inv st -> inv (HciCmd.step st i).
Proof.
  intros Hinv. destruct i as [mem c|evt|id]; simpl.
  - now apply inv_sendWaitResult.
  - unfold HciCmd.onCmdResult.
    destruct (HciCmd.onResult st) eqn:Hc; [now apply inv_handler|exact Hinv].
  - unfold HciCmd.onTimeout. destruct (decide _) as [Hin|]; [|exact Hinv].
    rewrite (inv_timers st Hinv) in Hin.
    destruct (HciCmd.onResult st) as [c|] eqn:Hc;
      [|now apply elem_of_empty in Hin].
    apply elem_of_singleton in Hin as ->.
    now apply inv_complete.
Qed.

Lemma inv_run (inputs : list HciCmd.input) : inv (HciCmd.run inputs).
Proof.
  unfold HciCmd.run. induction inputs as [|i inputs IH] using rev_ind.
  - exact inv_init.
  - rewrite fold_left_app. simpl. now apply inv_step.
Qed.

(** ** The dispatcher: completing a call *)

Lemma readUInt16LE_two (rp : Buffer.t) (h : Z) :
  Buffer.readUInt16LE rp 0 = Ok h -> (length rp <? 2)%nat = false.
Proof.
  unfold Buffer.readUInt16LE. simpl.
  destruct rp as [|b0 [|b1 rp]]; try discriminate. reflexivity.
Qed.

Lemma handler_answers (p : HciCmd.closure) (evt : HciCmdResult.t) (st : HciCmd.state) :
  HciCmd.answers (HciCmd.cmd p) evt ->
  HciCmd.handler p evt st = HciCmd.classify (HciCmd.call p) evt st.
Proof.
  intros [Hop Hh]. unfold HciCmd.handler.
  rewrite Hop, Z.eqb_refl. simpl.
  destruct (Command.connHandle (HciCmd.cmd p)) as [h|]; [|reflexivity].
  destruct Hh as (rp & -> & Hrd).
  rewrite (readUInt16LE_two rp h Hrd), Hrd, Z.eqb_refl. reflexivity.
Qed.

Lemma complete_settles (id : nat) (how : settlement) (st : HciCmd.state) :
  HciCmd.promises st !! id = None ->
  HciCmd.promises (HciCmd.complete id how st) !! id = Some how /\
  HciCmd.onResult (HciCmd.complete id how st) = None /\
  (id ∉ HciCmd.timers (HciCmd.complete id how st)) /\
  HciCmd.sent (HciCmd.complete id how st) = HciCmd.sent st.
Proof.
  intros Hnone. unfold HciCmd.complete.
  rewrite settle_fresh, settle_onResult, settle_timers, settle_sent by exact Hnone.
  simpl. repeat split. rewrite elem_of_difference, elem_of_singleton. tauto.
Qed.

Lemma complete_clears (id : nat) (how : settlement) (st : HciCmd.state) :
  HciCmd.onResult (HciCmd.complete id how st) = None.
Proof. unfold HciCmd.complete. now rewrite settle_onResult. Qed.


Lemma classify_classified (id : nat) (evt : HciCmdResult.t) (st : HciCmd.state) :
  HciCmd.promises st !! id = None ->
  classified id evt (HciCmd.classify id evt st).
Proof.
  intros Hnone. unfold classified, HciCmd.classify, Success.
  destruct (Z.eqb_spec (HciCmdResult.status evt) 0) as [Hz|Hnz].
  - destruct (complete_settles id (Resolved evt) st Hnone) as (H1 & H2 & H3 & _).
    repeat split; try assumption; [now intros _|intros; contradiction].
  - destruct (complete_settles id
                (Rejected (makeHciError (HciCmdResult.status evt))) st Hnone)
      as (H1 & H2 & H3 & _).
    repeat split; try assumption; [intros; contradiction|now intros _].
Qed.

Lemma answered (st : HciCmd.state) (p : HciCmd.closure) (evt : HciCmdResult.t) :
  HciCmd.onResult st = Some p ->
  HciCmd.promises st !! HciCmd.call p = None ->
  HciCmd.answers (HciCmd.cmd p) evt ->
  classified (HciCmd.call p) evt (HciCmd.onCmdResult evt st).
Proof.
  intros Hp Hnone Hans. unfold HciCmd.onCmdResult. rewrite Hp.
  rewrite handler_answers by exact Hans. now apply classify_classified.
Qed.

(** C4: when the installed closure's call is unsettled and a result answers
    its command (same opcode and, if a handle was registered, that handle),
    [onCmdResult] empties the slot and disarms the timer; status [0x00]
    resolves the promise with the result itself, return parameters
    included, and any other status rejects it with the controller error
    made from that status byte. *)
Theorem status_classification
  (st : HciCmd.state) (p : HciCmd.closure) (evt : HciCmdResult.t) :
  HciCmd.onResult st = Some p ->
  HciCmd.promises st !! HciCmd.call p = None ->
  HciCmd.answers (HciCmd.cmd p) evt ->
  let st' := HciCmd.onCmdResult evt st in
  HciCmd.onResult st' = None /\
  (HciCmd.call p ∉ HciCmd.timers st') /\
  (HciCmdResult.status evt = 0 ->
   HciCmd.promises st' !! HciCmd.call p = Some (Resolved evt)) /\
  (HciCmdResult.status evt <> 0 ->
   HciCmd.promises st' !! HciCmd.call p =
   Some (Rejected (makeHciError (HciCmdResult.status evt)))).
Proof. intros Hp Hnone Hans. exact (answered st p evt Hp Hnone Hans). Qed.

Lemma status_classification_witness :
  let st := HciCmd.run Scenario.resetPending in
  let st' := HciCmd.onCmdResult Scenario.resetComplete st in
  HciCmd.onResult st' = None /\
  (0%nat ∉ HciCmd.timers st') /\
  (0 = 0 -> HciCmd.promises st' !! 0%nat = Some (Resolved Scenario.resetComplete)) /\
  (0 <> 0 -> HciCmd.promises st' !! 0%nat = Some (Rejected (makeHciError 0))).
Proof.
  apply (status_classification (HciCmd.run Scenario.resetPending)
           {| HciCmd.call := 0; HciCmd.cmd := Scenario.reset |}
           Scenario.resetComplete).
  - reflexivity.
  - reflexivity.
  - split; [reflexivity|exact I].
Defined.

(** C5: a result whose opcode differs from the opcode of the command in the
    slot changes nothing: the promise is neither resolved nor rejected, the
    timer stays armed and the closure stays installed. *)
Theorem mismatched_opcode_discarded
  (st : HciCmd.state) (p : HciCmd.closure) (evt : HciCmdResult.t) :
  HciCmd.onResult st = Some p ->
  Command.opcode (HciCmd.cmd p) <> HciCmdResult.opcode evt ->
  HciCmd.onCmdResult evt st = st /\
  HciCmd.onResult (HciCmd.onCmdResult evt st) = Some p /\
  HciCmd.promises (HciCmd.onCmdResult evt st) !! HciCmd.call p =
  HciCmd.promises st !! HciCmd.call p.
Proof.
  intros Hp Hne.
  assert (E : HciCmd.onCmdResult evt st = st).
  { unfold HciCmd.onCmdResult, HciCmd.handler. rewrite Hp.
    destruct (Z.eqb_spec (Command.opcode (HciCmd.cmd p)) (HciCmdResult.opcode evt));
      [contradiction|reflexivity]. }
  rewrite E. auto.
Qed.

Lemma mismatched_opcode_discarded_witness :
  let st := HciCmd.run Scenario.resetPending in
  HciCmd.onCmdResult Scenario.readBdAddrComplete st = st /\
  HciCmd.onResult (HciCmd.onCmdResult Scenario.readBdAddrComplete st) =
  Some {| HciCmd.call := 0; HciCmd.cmd := Scenario.reset |} /\
  HciCmd.promises (HciCmd.onCmdResult Scenario.readBdAddrComplete st) !! 0%nat =
  HciCmd.promises st !! 0%nat.
Proof.
  apply (mismatched_opcode_discarded (HciCmd.run Scenario.resetPending)
           {| HciCmd.call := 0; HciCmd.cmd := Scenario.reset |}
           Scenario.readBdAddrComplete).
  - reflexivity.
  - simpl. lia.
Defined.

(** C6: with a handle registered, a result of the same opcode whose return
    parameters start with another little-endian 16-bit handle changes
    nothing, and one whose leading handle is the registered one empties the
    slot and settles the unsettled promise by its status. *)
Theorem handle_demultiplexing
  (st : HciCmd.state) (p : HciCmd.closure) (connHandle handle : Z)
  (evt : HciCmdResult.t) (returnParameters : Buffer.t) :
  HciCmd.onResult st = Some p ->
  Command.connHandle (HciCmd.cmd p) = Some connHandle ->
  Command.opcode (HciCmd.cmd p) = HciCmdResult.opcode evt ->
  HciCmdResult.returnParameters evt = Some returnParameters ->
  Buffer.readUInt16LE returnParameters 0 = Ok handle ->
  let st' := HciCmd.onCmdResult evt st in
  (handle <> connHandle -> st' = st) /\
  (handle = connHandle ->
   HciCmd.onResult st' = None /\
   (HciCmd.promises st !! HciCmd.call p = None ->
    (HciCmdResult.status evt = 0 ->
     HciCmd.promises st' !! HciCmd.call p = Some (Resolved evt)) /\
    (HciCmdResult.status evt <> 0 ->
     HciCmd.promises st' !! HciCmd.call p =
     Some (Rejected (makeHciError (HciCmdResult.status evt)))))).
Proof.
  intros Hp Hh Hop Hrp Hrd. cbv zeta. split.
  - intros Hne. unfold HciCmd.onCmdResult, HciCmd.handler.
    rewrite Hp, Hop, Z.eqb_refl, Hh, Hrp. simpl.
    rewrite (readUInt16LE_two _ _ Hrd), Hrd.
    destruct (Z.eqb_spec connHandle handle) as [->|_]; [contradiction|reflexivity].
  - intros ->.
    assert (Hans : HciCmd.answers (HciCmd.cmd p) evt).
    { split; [exact Hop|]. rewrite Hh. eauto. }
    split.
    + unfold HciCmd.onCmdResult. rewrite Hp, handler_answers by exact Hans.
      unfold HciCmd.classify. destruct (_ =? _); apply complete_clears.
    + intros Hnone.
      destruct (answered st p evt Hp Hnone Hans) as (_ & _ & H0 & H1). now split.
Qed.

Lemma handle_demultiplexing_witness :
  let st := HciCmd.run Scenario.channelMapPending in
  let st' := HciCmd.onCmdResult (Scenario.channelMapOf 11) st in
  (11 <> 10 -> st' = st) /\
  (11 = 10 ->
   HciCmd.onResult st' = None /\
   (HciCmd.promises st !! 0%nat = None ->
    (0 = 0 ->
     HciCmd.promises st' !! 0%nat = Some (Resolved (Scenario.channelMapOf 11))) /\
    (0 <> 0 ->
     HciCmd.promises st' !! 0%nat = Some (Rejected (makeHciError 0))))).
Proof.
  apply (handle_demultiplexing (HciCmd.run Scenario.channelMapPending)
           {| HciCmd.call := 0; HciCmd.cmd := Scenario.leReadChannelMap |}
           10 11 (Scenario.channelMapOf 11) [11; 0; 255; 255; 255; 255; 31]).
  - reflexivity.
  - reflexivity.
  - reflexivity.
  - reflexivity.
  - reflexivity.
Defined.

(** C10: with a handle registered, a result that carries no return
    parameters, or fewer than two bytes of them, leaves the dispatcher
    exactly as it was, whatever its opcode and status; the call stays
    pending, and is then settled by a later result that answers the command
    or rejected with [Timeout] when its timer fires. *)
Theorem short_return_parameters_ignored
  (inputs : list HciCmd.input) (p : HciCmd.closure) (connHandle : Z)
  (evt : HciCmdResult.t) :
  HciCmd.onResult (HciCmd.run inputs) = Some p ->
  Command.connHandle (HciCmd.cmd p) = Some connHandle ->
  match HciCmdResult.returnParameters evt with
  | None => True
  | Some returnParameters => (length returnParameters < 2)%nat
  end ->
  let st := HciCmd.run inputs in
  let st' := HciCmd.step st (HciCmd.Deliver evt) in
  st' = st /\
  (HciCmd.outstanding st (HciCmd.call p) ->
   HciCmd.outstanding st' (HciCmd.call p) /\
   (forall later, HciCmd.answers (HciCmd.cmd p) later ->
      classified (HciCmd.call p) later (HciCmd.step st' (HciCmd.Deliver later))) /\
   HciCmd.promises (HciCmd.step st' (HciCmd.Expire (HciCmd.call p))) !! HciCmd.call p
     = Some (Rejected (makeParserError Timeout)) /\
   HciCmd.onResult (HciCmd.step st' (HciCmd.Expire (HciCmd.call p))) = None).
Proof.
  intros Hp Hh Hshort. cbv zeta.
  assert (E : HciCmd.step (HciCmd.run inputs) (HciCmd.Deliver evt) = HciCmd.run inputs).
  { simpl. unfold HciCmd.onCmdResult, HciCmd.handler. rewrite Hp, Hh.
    destruct (negb _); [reflexivity|].
    destruct (HciCmdResult.returnParameters evt) as [rp|]; [|reflexivity].
    destruct (Nat.ltb_spec (length rp) 2); [reflexivity|lia]. }
  rewrite E. split; [reflexivity|]. intros Hout. split; [exact Hout|].
  destruct Hout as [_ Hnone]. split.
  - intros later Hans. simpl. now apply answered.
  - simpl. unfold HciCmd.onTimeout.
    pose proof (inv_timers _ (inv_run inputs)) as Htim. rewrite Hp in Htim.
    destruct (decide _) as [_|Hnot].
    + destruct (complete_settles (HciCmd.call p)
                  (Rejected (makeParserError Timeout)) _ Hnone) as (H1 & H2 & _).
      now split.
    + exfalso. apply Hnot. rewrite Htim. now apply elem_of_singleton.
Qed.

Lemma short_return_parameters_ignored_witness :
  let p := {| HciCmd.call := 0; HciCmd.cmd := Scenario.leReadChannelMap |} in
  let st := HciCmd.run Scenario.channelMapPending in
  let st' := HciCmd.step st (HciCmd.Deliver Scenario.channelMapStatus) in
  st' = st /\
  (HciCmd.outstanding st 0 ->
   HciCmd.outstanding st' 0 /\
   (forall later, HciCmd.answers Scenario.leReadChannelMap later ->
      classified 0 later (HciCmd.step st' (HciCmd.Deliver later))) /\
   HciCmd.promises (HciCmd.step st' (HciCmd.Expire 0)) !! 0%nat
     = Some (Rejected (makeParserError Timeout)) /\
   HciCmd.onResult (HciCmd.step st' (HciCmd.Expire 0)) = None).
Proof.
  apply (short_return_parameters_ignored Scenario.channelMapPending
           {| HciCmd.call := 0; HciCmd.cmd := Scenario.leReadChannelMap |}
           10 Scenario.channelMapStatus).
  - reflexivity.
  - reflexivity.
  - exact I.
Defined.

Lemma sendWaitResult_busy
  (mem : nat -> Z) (c : Command.t) (st : HciCmd.state) (p : HciCmd.closure) :
  HciCmd.onResult st = Some p ->
  HciCmd.sendWaitResult mem c st =
  HciCmd.settle (HciCmd.calls st) (Rejected (makeParserError Busy))
    {| HciCmd.onResult := HciCmd.onResult st; HciCmd.timers := HciCmd.timers st;
       HciCmd.promises := HciCmd.promises st; HciCmd.calls := S (HciCmd.calls st);
       HciCmd.sent := HciCmd.sent st |}.
Proof. intros H. unfold HciCmd.sendWaitResult. simpl. now rewrite H. Qed.

(** C1: along every sequence of submissions, deliveries and timer expiries,
    when a call is pending it is the only one, and a command submitted
    meanwhile is rejected on the spot with the [Busy] parser error: nothing
    is given to [send], the installed closure and its timer are untouched,
    the earlier call is still the one pending call, and a successful result
    that answers its command then resolves it and empties the slot. *)
Theorem one_pending_command
  (inputs : list HciCmd.input) (id : nat) (mem : nat -> Z) (c : Command.t) :
  HciCmd.outstanding (HciCmd.run inputs) id ->
  let st := HciCmd.run inputs in
  let st' := HciCmd.step st (HciCmd.Submit mem c) in
  (forall j, HciCmd.outstanding st j -> j = id) /\
  HciCmd.promises st' !! HciCmd.calls st = Some (Rejected (makeParserError Busy)) /\
  HciCmd.sent st' = HciCmd.sent st /\
  HciCmd.onResult st' = HciCmd.onResult st /\
  HciCmd.timers st' = HciCmd.timers st /\
  (forall j, HciCmd.outstanding st' j <-> j = id) /\
  exists p,
    HciCmd.onResult st = Some p /\ HciCmd.call p = id /\
    forall evt,
      HciCmd.answers (HciCmd.cmd p) evt ->
      HciCmdResult.status evt = 0 ->
      let st'' := HciCmd.step st' (HciCmd.Deliver evt) in
      HciCmd.promises st'' !! id = Some (Resolved evt) /\
      HciCmd.onResult st'' = None.
Proof.
  intros Hout. cbv zeta.
  pose proof (inv_run inputs) as Hinv.
  destruct (inv_slot _ Hinv id Hout) as (p & Hp & Hid).
  assert (Hfresh : HciCmd.promises (HciCmd.run inputs) !! HciCmd.calls (HciCmd.run inputs)
                   = None).
  { destruct (HciCmd.promises _ !! _) eqn:E; [|reflexivity].
    assert (HciCmd.calls (HciCmd.run inputs) < HciCmd.calls (HciCmd.run inputs))%nat
      by (apply (inv_made _ Hinv); eauto). lia. }
  assert (Huniq : forall j, HciCmd.outstanding (HciCmd.run inputs) j -> j = id).
  { intros j Hj. destruct (inv_slot _ Hinv j Hj) as (q & Hq & Hjq). congruence. }
  simpl. rewrite (sendWaitResult_busy mem c _ p Hp).
  set (busy := HciCmd.settle _ _ _).
  assert (Hlt : (id < HciCmd.calls (HciCmd.run inputs))%nat) by apply Hout.
  assert (Hp' : HciCmd.onResult busy = HciCmd.onResult (HciCmd.run inputs))
    by (unfold busy; now rewrite settle_onResult).
  assert (Hout' : forall j, HciCmd.outstanding busy j <-> j = id).
  { intros j. unfold HciCmd.outstanding, busy. rewrite settle_calls. simpl. split.
    - intros [Hj Hnone]. apply Huniq.
      destruct (decide (j = HciCmd.calls (HciCmd.run inputs))) as [->|Hne].
      + rewrite settle_fresh in Hnone by exact Hfresh. discriminate.
      + rewrite settle_other in Hnone by exact Hne. split; [lia|exact Hnone].
    - intros ->. split; [lia|]. rewrite settle_other by lia. apply Hout. }
  split; [exact Huniq|].
  split; [unfold busy; now rewrite settle_fresh|].
  split; [unfold busy; now rewrite settle_sent|].
  split; [exact Hp'|].
  split; [unfold busy; now rewrite settle_timers|].
  split; [exact Hout'|].
  exists p. split; [exact Hp|]. split; [exact Hid|].
  intros evt Hans Hstatus.
  assert (Hnone' : HciCmd.promises busy !! HciCmd.call p = None).
  { rewrite Hid. apply (proj2 (Hout' id) eq_refl). }
  rewrite Hp in Hp'.
  destruct (answered busy p evt Hp' Hnone' Hans) as (H1 & _ & H2 & _).
  rewrite <- Hid. split; [now apply H2|exact H1].
Qed.

Lemma one_pending_command_witness :
  let st := HciCmd.run Scenario.resetPending in
  let st' := HciCmd.step st (HciCmd.Submit Scenario.mem Scenario.readBdAddr) in
  (forall j, HciCmd.outstanding st j -> j = 0%nat) /\
  HciCmd.promises st' !! HciCmd.calls st = Some (Rejected (makeParserError Busy)) /\
  HciCmd.sent st' = HciCmd.sent st /\
  HciCmd.onResult st' = HciCmd.onResult st /\
  HciCmd.timers st' = HciCmd.timers st /\
  (forall j, HciCmd.outstanding st' j <-> j = 0%nat) /\
  exists p,
    HciCmd.onResult st = Some p /\ HciCmd.call p = 0%nat /\
    forall evt,
      HciCmd.answers (HciCmd.cmd p) evt ->
      HciCmdResult.status evt = 0 ->
      let st'' := HciCmd.step st' (HciCmd.Deliver evt) in
      HciCmd.promises st'' !! 0%nat = Some (Resolved evt) /\
      HciCmd.onResult st'' = None.
Proof.
  apply (one_pending_command Scenario.resetPending 0 Scenario.mem Scenario.readBdAddr).
  split.
  - vm_compute. lia.
  - reflexivity.
Defined.

(** Scenario 2 of the specification, run: [Reset] is submitted, [ReadBdAddr]
    is rejected as busy, the completion of [Reset] resolves the first call;
    one packet, [03 0C 00], went to [send]. *)
Example busy_rejection_run :
  let st := HciCmd.run [HciCmd.Submit Scenario.mem Scenario.reset;
                        HciCmd.Submit Scenario.mem Scenario.readBdAddr;
                        HciCmd.Deliver Scenario.resetComplete] in
  HciCmd.promises st !! 0%nat = Some (Resolved Scenario.resetComplete) /\
  HciCmd.promises st !! 1%nat = Some (Rejected (makeParserError Busy)) /\
  HciCmd.onResult st = None /\
  HciCmd.sent st = [(HciCommand, [3; 12; 0])].
Proof. repeat split. Qed.

(** Scenario 6, run: the completion for handle 0x000B is ignored, the one for
    0x000A resolves the call. *)
Example handle_demultiplexing_run :
  let st1 := HciCmd.run [HciCmd.Submit Scenario.mem Scenario.leReadChannelMap;
                         HciCmd.Deliver (Scenario.channelMapOf 11)] in
  let st2 := HciCmd.step st1 (HciCmd.Deliver (Scenario.channelMapOf 10)) in
  HciCmd.promises st1 !! 0%nat = None /\
  HciCmd.promises st2 !! 0%nat = Some (Resolved (Scenario.channelMapOf 10)) /\
  HciCmd.onResult st2 = None.
Proof. repeat split. Qed.

(** Scenario 4, run: the timer fires, the call is rejected with [Timeout]
    and the next command is accepted. *)
Example timeout_then_recovery_run :
  let st := HciCmd.run [HciCmd.Submit Scenario.mem Scenario.readBdAddr;
                        HciCmd.Expire 0;
                        HciCmd.Submit Scenario.mem Scenario.reset;
                        HciCmd.Deliver Scenario.resetComplete] in
  HciCmd.promises st !! 0%nat = Some (Rejected (makeParserError Timeout)) /\
  HciCmd.promises st !! 1%nat = Some (Resolved Scenario.resetComplete) /\
  length (HciCmd.sent st) = 2%nat.
Proof. repeat split. Qed.

(** ** Encoders *)

Lemma checkInt_range (v : float) (max : Z) :
  0 <= max -> Buffer.checkInt v max = true -> 0 <= JS.ToUint v <= max.
Proof.
  unfold Buffer.checkInt, JS.ToUint. intros Hmax.
  destruct (JS.value v) as [| | |n|n]; intros H; try discriminate H.
  - lia.
  - apply andb_prop in H as [H1 H2]. apply Z.leb_le in H1, H2. lia.
  - apply andb_prop in H as [H1 H2]. apply Z.leb_le in H1. apply Z.ltb_lt in H2. lia.
Qed.

Lemma writeNumberLE_ok (buf : Buffer.t) (v : float) (off n : nat) :
  Buffer.checkInt v (2 ^ (8 * Z.of_nat n) - 1) = true ->
  (off + n <= length buf)%nat ->
  Buffer.writeNumberLE buf v off n =
  Ok (Buffer.poke buf off (Buffer.le_bytes n (JS.ToUint v)), (off + n)%nat).
Proof.
  intros Hchk Hoff. unfold Buffer.writeNumberLE. rewrite Hchk.
  apply writeUIntLE_ok; [|exact Hoff].
  assert (0 < 2 ^ (8 * Z.of_nat n)) by (apply Z.pow_pos_nonneg; lia).
  assert (Hmax : 0 <= 2 ^ (8 * Z.of_nat n) - 1) by lia.
  pose proof (checkInt_range v _ Hmax Hchk). lia.
Qed.

(** One write into a buffer whose cells are spelled out. *)
Ltac poked :=
  cbn [bind]; unfold Buffer.poke;
  cbn [Buffer.le_bytes firstn skipn app length Nat.add].

Ltac write_uint :=
  rewrite writeUIntLE_ok;
  [ poked
  | first [ change (2 ^ (8 * Z.of_nat 1)) with 256
          | change (2 ^ (8 * Z.of_nat 2)) with 65536 ];
    first [ lia | cbn; lia
          | split; [apply Z.leb_le|apply Z.ltb_lt]; vm_compute; reflexivity ]
  | cbn [length]; lia ].

Ltac write_number H :=
  rewrite writeNumberLE_ok;
  [ poked | exact H | cbn [length]; lia ].

Lemma extendedData_payload {Op : Type} `{Enum Op}
  (mem : nat -> Z) (advertisingHandle : Z) (operation : Op) (fragment : bool)
  (data : Buffer.t) :
  0 <= advertisingHandle <= 255 ->
  0 <= ordinal operation <= 255 ->
  (length data <= 255)%nat ->
  Hci.extendedData mem advertisingHandle operation fragment data =
  Ok ([advertisingHandle; ordinal operation; Z.b2z (negb fragment);
       Z.of_nat (length data)] ++ data).
Proof.
  intros Hh Hop Hlen. unfold Hci.extendedData.
  assert (Hsplit : exists a b c d rest,
            Buffer.allocUnsafe mem (4 + length data) = a :: b :: c :: d :: rest /\
            length rest = length data).
  { pose proof (allocUnsafe_length mem (4 + length data)) as L.
    destruct (Buffer.allocUnsafe mem (4 + length data)) as [|a [|b [|c [|d rest]]]];
      simpl in L; try lia.
    exists a, b, c, d, rest. split; [reflexivity|lia]. }
  destruct Hsplit as (a & b & c & d & rest & -> & Hrest).
  write_uint. write_uint.
  rewrite writeUIntLE_ok;
    [poked|change (2 ^ (8 * Z.of_nat 1)) with 256; destruct fragment; lia
    |cbn [length]; lia].
  write_uint.
  rewrite !Z.mod_small by (try destruct fragment; lia).
  f_equal.
  destruct fragment; exact (copy_after [_; _; _; _] rest data Hrest).
Qed.


(** C9: in [leSetExtendedAdvertisingData] and in
    [leSetExtendedScanResponseData] the payload is the advertising handle,
    the operation byte, the fragment-preference byte, the data length and the
    data; the preference byte is the negation of the [fragment] argument
    ([false] gives 1, [true] gives 0) and the operation byte is the enum's
    number: Intermediate 0, First 1, Last 2, Complete 3, Unchanged 4 (the
    scan-response enum has the first three only). *)
Theorem fragment_preference_inverted
  (mem : nat -> Z) (advertisingHandle : Z)
  (operation : LeAdvertisingDataOperation)
  (scanOperation : LeScanResponseDataOperation)
  (fragment : bool) (data : Buffer.t) :
  0 <= advertisingHandle <= 255 ->
  (length data <= 255)%nat ->
  Hci.leSetExtendedAdvertisingData mem advertisingHandle operation fragment data =
  Ok ([advertisingHandle; ordinal operation; Z.b2z (negb fragment);
       Z.of_nat (length data)] ++ data) /\
  Hci.leSetExtendedScanResponseData mem advertisingHandle scanOperation fragment data =
  Ok ([advertisingHandle; ordinal scanOperation; Z.b2z (negb fragment);
       Z.of_nat (length data)] ++ data) /\
  Z.b2z (negb false) = 1 /\ Z.b2z (negb true) = 0 /\
  map ordinal [FragmentIntermediate; FragmentFirst; FragmentLast; Complete; Unchanged]
  = [0; 1; 2; 3; 4] /\
  map ordinal [ScanRspFragmentIntermediate; ScanRspFragmentFirst; ScanRspFragmentLast]
  = [0; 1; 2].
Proof.
  intros Hh Hlen.
  split; [|split; [|repeat split]].
  - apply extendedData_payload; [exact Hh| |exact Hlen].
    destruct operation; cbn; lia.
  - apply extendedData_payload; [exact Hh| |exact Hlen].
    destruct scanOperation; cbn; lia.
Qed.

Lemma fragment_preference_inverted_witness :
  Hci.leSetExtendedAdvertisingData Scenario.mem 1 Complete false [2; 1; 6] =
  Ok [1; 3; 1; 3; 2; 1; 6] /\
  Hci.leSetExtendedScanResponseData Scenario.mem 1 ScanRspFragmentFirst false [2; 1; 6] =
  Ok [1; 1; 1; 3; 2; 1; 6] /\
  Z.b2z (negb false) = 1 /\ Z.b2z (negb true) = 0 /\
  map ordinal [FragmentIntermediate; FragmentFirst; FragmentLast; Complete; Unchanged]
  = [0; 1; 2; 3; 4] /\
  map ordinal [ScanRspFragmentIntermediate; ScanRspFragmentFirst; ScanRspFragmentLast]
  = [0; 1; 2].
Proof.
  apply (fragment_preference_inverted Scenario.mem 1 Complete ScanRspFragmentFirst
           false [2; 1; 6]).
  - lia.
  - simpl. lia.
Defined.


(** C7: with [N] of the two PHYs selected ([N] is 1 or 2) and tick values
    that pass the 2-byte range check, [leSetExtendedScanParameters] returns
    [3 + 5 * N] bytes: own address type, scanning filter policy and the PHY
    bitmask (bit 0 for 1M, bit 2 for Coded), then all scan types, then all
    2-byte intervals, then all 2-byte windows, 1M before Coded in each
    group. *)
Theorem extended_scan_parameters_layout
  (mem : nat -> Z) (ownAddressType : LeOwnAddressType)
  (scanningFilterPolicy : LeScanningFilterPolicy)
  (phy1M phyCoded : option Hci.ScanningPhy) :
  let selected := option_list phy1M ++ option_list phyCoded in
  selected <> [] ->
  Forall scanFits selected ->
  exists payload,
    Hci.leSetExtendedScanParameters mem ownAddressType scanningFilterPolicy
      phy1M phyCoded = Ok payload /\
    length payload = (3 + length selected * 5)%nat /\
    payload =
      [ordinal ownAddressType; ordinal scanningFilterPolicy;
       match phy1M with Some _ => 1 | None => 0 end +
       match phyCoded with Some _ => 4 | None => 0 end] ++
      scanBlocks selected.
Proof.
  intros selected Hsel Hfits. subst selected.
  assert (Hown : 0 <= ordinal ownAddressType <= 255)
    by (destruct ownAddressType; cbn; lia).
  assert (Hpol : 0 <= ordinal scanningFilterPolicy <= 255)
    by (destruct scanningFilterPolicy; cbn; lia).
  assert (Hty : forall t : LeScanType, 0 <= ordinal t <= 255)
    by (intros []; cbn; lia).

  unfold Hci.leSetExtendedScanParameters, scanBlocks, scanTicks.
  destruct phy1M as [a|], phyCoded as [b|]; cbn [option_list app] in *.
  - apply Forall_cons_iff in Hfits as [[Hai Haw] Hfits].
    apply Forall_cons_iff in Hfits as [[Hbi Hbw] _].
    pose proof (Hty (Hci.type a)). pose proof (Hty (Hci.type b)).
    eexists. split; [|split].
    + cbn [Nat.eqb Nat.mul Nat.add Buffer.allocUnsafe seq map Hci.whenSome].
      write_uint. write_uint. write_uint. write_uint. write_uint.
      write_number Hai. write_number Hbi. write_number Haw. write_number Hbw.
      reflexivity.
    + reflexivity.
    + cbn [map flat_map app Buffer.le_bytes].
      rewrite !(Z.mod_small (ordinal _)) by lia. reflexivity.
  - apply Forall_cons_iff in Hfits as [[Hai Haw] _].
    pose proof (Hty (Hci.type a)).
    eexists. split; [|split].
    + cbn [Nat.eqb Nat.mul Nat.add Buffer.allocUnsafe seq map Hci.whenSome].
      write_uint. write_uint. write_uint. write_uint.
      write_number Hai. write_number Haw.
      reflexivity.
    + reflexivity.
    + cbn [map flat_map app Buffer.le_bytes].
      rewrite !(Z.mod_small (ordinal _)) by lia. reflexivity.
  - apply Forall_cons_iff in Hfits as [[Hbi Hbw] _].
    pose proof (Hty (Hci.type b)).
    eexists. split; [|split].
    + cbn [Nat.eqb Nat.mul Nat.add Buffer.allocUnsafe seq map Hci.whenSome].
      write_uint. write_uint. write_uint. write_uint.
      write_number Hbi. write_number Hbw.
      reflexivity.
    + reflexivity.
    + cbn [map flat_map app Buffer.le_bytes].
      rewrite !(Z.mod_small (ordinal _)) by lia. reflexivity.
  - contradiction.
Qed.

Lemma extended_scan_parameters_layout_witness :
  exists payload,
    Hci.leSetExtendedScanParameters Scenario.mem OwnRandomDeviceAddress All
      (Some Scenario.scan1M) (Some Scenario.scanCoded) = Ok payload /\
    length payload = 13%nat /\
    payload =
      [1; 0; 5] ++ scanBlocks [Scenario.scan1M; Scenario.scanCoded].
Proof.
  apply (extended_scan_parameters_layout Scenario.mem OwnRandomDeviceAddress All
           (Some Scenario.scan1M) (Some Scenario.scanCoded)).
  - simpl. congruence.
  - repeat constructor; vm_compute; reflexivity.
Defined.

(** The bytes of that payload: types [01 00], intervals [A0 00] and
    [E0 01], windows [50 00] and [F0 00]. *)
Example extended_scan_parameters_bytes :
  Hci.leSetExtendedScanParameters Scenario.mem OwnRandomDeviceAddress All
    (Some Scenario.scan1M) (Some Scenario.scanCoded) =
  Ok [1; 0; 5; 1; 0; 160; 0; 224; 1; 80; 0; 240; 0].
Proof. vm_compute. reflexivity. Qed.

(** With no PHY selected the encoder throws and nothing is sent. *)
Example extended_scan_parameters_none :
  Hci.leSetExtendedScanParameters Scenario.mem OwnRandomDeviceAddress All None None =
  Throw (makeHciError InvalidCommandParameter).
Proof. reflexivity. Qed.

Lemma writeNumberLE_throws (buf : Buffer.t) (v : float) (off n : nat) :
  Buffer.checkInt v (2 ^ (8 * Z.of_nat n) - 1) = false ->
  Buffer.writeNumberLE buf v off n = Throw RangeError.
Proof. intros H. unfold Buffer.writeNumberLE. now rewrite H. Qed.

(** When a tick value does not pass the range check, the encoder throws and
    there is no payload. *)
Lemma extended_scan_parameters_throws
  (mem : nat -> Z) (ownAddressType : LeOwnAddressType)
  (scanningFilterPolicy : LeScanningFilterPolicy)
  (phy1M phyCoded : option Hci.ScanningPhy) :
  ~ Forall scanFits (option_list phy1M ++ option_list phyCoded) ->
  option_list phy1M ++ option_list phyCoded <> [] ->
  Hci.leSetExtendedScanParameters mem ownAddressType scanningFilterPolicy
    phy1M phyCoded = Throw RangeError.
Proof.
  intros Hbad Hsel.
  assert (Hown : 0 <= ordinal ownAddressType <= 255)
    by (destruct ownAddressType; cbn; lia).
  assert (Hpol : 0 <= ordinal scanningFilterPolicy <= 255)
    by (destruct scanningFilterPolicy; cbn; lia).
  assert (Hty : forall t : LeScanType, 0 <= ordinal t <= 255)
    by (intros []; cbn; lia).
  unfold Hci.leSetExtendedScanParameters.
  destruct phy1M as [a|], phyCoded as [b|]; cbn [option_list app] in *;
    try contradiction;
    try pose proof (Hty (Hci.type a)); try pose proof (Hty (Hci.type b));
    cbn [Nat.eqb Nat.mul Nat.add Buffer.allocUnsafe seq map Hci.whenSome].
  - destruct (Buffer.checkInt (Hci.msToHciValue (Hci.intervalMs a)) 65535) eqn:Hai;
    destruct (Buffer.checkInt (Hci.msToHciValue (Hci.intervalMs b)) 65535) eqn:Hbi;
    destruct (Buffer.checkInt (Hci.msToHciValue (Hci.windowMs a)) 65535) eqn:Haw;
    destruct (Buffer.checkInt (Hci.msToHciValue (Hci.windowMs b)) 65535) eqn:Hbw;
    try (exfalso; apply Hbad; repeat constructor; assumption);
    write_uint; write_uint; write_uint; write_uint; write_uint;
    repeat first [ write_number Hai | write_number Hbi | write_number Haw
                 | rewrite writeNumberLE_throws by assumption; reflexivity ].
  - destruct (Buffer.checkInt (Hci.msToHciValue (Hci.intervalMs a)) 65535) eqn:Hai;
    destruct (Buffer.checkInt (Hci.msToHciValue (Hci.windowMs a)) 65535) eqn:Haw;
    try (exfalso; apply Hbad; repeat constructor; assumption);
    write_uint; write_uint; write_uint; write_uint;
    repeat first [ write_number Hai
                 | rewrite writeNumberLE_throws by assumption; reflexivity ].
  - destruct (Buffer.checkInt (Hci.msToHciValue (Hci.intervalMs b)) 65535) eqn:Hbi;
    destruct (Buffer.checkInt (Hci.msToHciValue (Hci.windowMs b)) 65535) eqn:Hbw;
    try (exfalso; apply Hbad; repeat constructor; assumption);
    write_uint; write_uint; write_uint; write_uint;
    repeat first [ write_number Hbi
                 | rewrite writeNumberLE_throws by assumption; reflexivity ].
Qed.

(** ** Unit conversions *)

Lemma digits2_pos_size (p : positive) : digits2_pos p = Pos.size p.
Proof. induction p; simpl; congruence. Qed.

Lemma size_53 (p : positive) :
  2 ^ 52 <= Z.pos p < 2 ^ 53 -> Pos.size p = 53%positive.
Proof.
  intros [Hlo Hhi].
  pose proof (Pos.size_gt p) as Hgt. pose proof (Pos.size_le p) as Hle.
  apply Pos2Z.pos_lt_pos in Hgt. apply Pos2Z.pos_le_pos in Hle.
  rewrite Pos2Z.inj_pow in Hgt, Hle.
  change (Z.pos p~0) with (2 * Z.pos p) in Hle.
  assert (52 < Z.pos (Pos.size p)).
  { apply (Z.pow_lt_mono_r_iff 2); [lia|lia|].
    apply Z.le_lt_trans with (Z.pos p); assumption. }
  assert (Z.pos (Pos.size p) < 54).
  { apply (Z.pow_lt_mono_r_iff 2); [lia|lia|].
    apply Z.le_lt_trans with (2 * Z.pos p); [exact Hle|].
    change (2 ^ 54) with (2 * 2 ^ 53). lia. }
  lia.
Qed.

(** What [Double.decode] returns is what [Prim2SF] returns. *)
Lemma decode_spec (x : float) (mant k : int) :
  Double.decode x = Some (mant, k) ->
  Prim2SF x = S754_finite false (Z.to_pos (Uint63.to_Z mant)) (- Uint63.to_Z k) /\
  2 ^ 52 <= Uint63.to_Z mant < 2 ^ 53 /\
  1 <= Uint63.to_Z k <= 62.
Proof.
  unfold Double.decode.
  destruct (PrimFloat.is_nan x) eqn:Hnan; [discriminate|].
  destruct (PrimFloat.is_zero x) eqn:Hzero; [discriminate|].
  destruct (PrimFloat.is_infinity x) eqn:Hinf; [discriminate|].
  destruct (PrimFloat.get_sign x) eqn:Hsign; [discriminate|].
  cbn [orb].
  destruct (frshiftexp x) as [r se] eqn:Hfr.
  destruct (Uint63.leb 4503599627370496 (normfr_mantissa r)) eqn:H1; [|discriminate].
  destruct (Uint63.ltb (normfr_mantissa r) 9007199254740992) eqn:H2; [|discriminate].
  destruct (Uint63.leb 2092 se) eqn:H3; [|discriminate].
  destruct (Uint63.leb se 2153) eqn:H4; [|discriminate].
  cbn [andb]. intros [= <- <-].
  apply Uint63.leb_spec in H1, H3, H4. apply Uint63.ltb_spec in H2.
  change (Uint63.to_Z 4503599627370496) with (2 ^ 52) in H1.
  change (Uint63.to_Z 9007199254740992) with (2 ^ 53) in H2.
  change (Uint63.to_Z 2092) with 2092 in H3.
  change (Uint63.to_Z 2153) with 2153 in H4.
  assert (Hk : Uint63.to_Z (2154 - se) = 2154 - Uint63.to_Z se).
  { rewrite Uint63.sub_spec. change (Uint63.to_Z 2154) with 2154.
    apply Z.mod_small. change wB with (2 ^ 63). lia. }
  rewrite Hk. split; [|split; [lia|lia]].
  unfold Prim2SF. rewrite Hnan, Hzero, Hinf, Hsign.
  unfold Z.frexp. rewrite Hfr.
  destruct (Uint63.to_Z (normfr_mantissa r)) as [|p|p] eqn:Hm; try lia.
  unfold shr_fexp, Zdigits2. rewrite digits2_pos_size, (size_53 p) by lia.
  unfold fexp, SpecFloat.emin, prec, emax. change FloatOps.shift with 2101.
  rewrite Z.max_l by lia.
  replace (53 + (Uint63.to_Z se - 2101 - 53) - 53 - (Uint63.to_Z se - 2101 - 53)) with 0
    by lia.
  cbn [shr shr_record_of_loc shr_m Z.to_pos]. f_equal. lia.
Qed.

Lemma round_spec (x : float) (n : int) :
  Double.round x = Some n -> JS.Math_round x = of_uint63 n.
Proof.
  unfold Double.round. destruct (Double.decode x) as [[mant k]|] eqn:Hd; [|discriminate].
  intros [= <-]. destruct (decode_spec x mant k Hd) as (Hsf & Hm & Hk).
  unfold JS.Math_round. rewrite Hsf.
  destruct (Z.leb_spec 0 (- Uint63.to_Z k)); [lia|].
  cbv zeta. unfold JS.signed. rewrite Z2Pos.id by lia.
  replace (- - Uint63.to_Z k) with (Uint63.to_Z k) by lia.
  assert (Hk1 : Uint63.to_Z (k - 1) = Uint63.to_Z k - 1).
  { rewrite Uint63.sub_spec. change (Uint63.to_Z 1) with 1.
    apply Z.mod_small. change wB with (2 ^ 63). lia. }
  assert (Hpow : 0 < 2 ^ (Uint63.to_Z k - 1) <= 2 ^ 61).
  { split; [apply Z.pow_pos_nonneg; lia|apply Z.pow_le_mono_r; lia]. }
  assert (Hhalf : Uint63.to_Z (1 << (k - 1)) = 2 ^ (Uint63.to_Z k - 1)).
  { rewrite Uint63.lsl_spec, Hk1. change (Uint63.to_Z 1) with 1. rewrite Z.mul_1_l.
    apply Z.mod_small. change wB with (2 ^ 63). lia. }
  assert (Hsum : Uint63.to_Z (mant + (1 << (k - 1))) =
                 Uint63.to_Z mant + 2 ^ (Uint63.to_Z k - 1)).
  { rewrite Uint63.add_spec, Hhalf. apply Z.mod_small. change wB with (2 ^ 63). lia. }
  assert (Hn : Z.shiftr (Uint63.to_Z mant + Z.shiftl 1 (Uint63.to_Z k - 1)) (Uint63.to_Z k) =
               Uint63.to_Z ((mant + (1 << (k - 1))) >> k)).
  { rewrite Uint63.lsr_spec, Hsum, Z.shiftr_div_pow2, Z.shiftl_1_l by lia. reflexivity. }
  rewrite Hn. set (n := ((mant + (1 << (k - 1))) >> k)%uint63).
  rewrite andb_false_r. unfold JS.Number.
  pose proof (Uint63.to_Z_bounded n) as Hb.
  destruct (Z.ltb_spec (Uint63.to_Z n) 0); [lia|].
  rewrite Z.abs_eq by lia. now rewrite Uint63.of_to_Z.
Qed.

Lemma integer_spec (x : float) (n : int) :
  Double.integer x = Some n -> JS.value x = JS.Integer (Uint63.to_Z n).
Proof.
  unfold Double.integer. destruct (Double.decode x) as [[mant k]|] eqn:Hd; [|discriminate].
  cbv zeta. destruct (Uint63.eqb _ _) eqn:Heq; [|discriminate].
  intros [= <-]. destruct (decode_spec x mant k Hd) as (Hsf & Hm & Hk).
  apply Uint63.eqb_spec in Heq.
  unfold JS.value. rewrite Hsf.
  destruct (Z.leb_spec 0 (- Uint63.to_Z k)); [lia|].
  cbv zeta. unfold JS.signed. rewrite Z2Pos.id by lia.
  replace (- - Uint63.to_Z k) with (Uint63.to_Z k) by lia.
  assert (Hbelow : Z.shiftr (Uint63.to_Z mant) (Uint63.to_Z k) = Uint63.to_Z (mant >> k)).
  { rewrite Uint63.lsr_spec, Z.shiftr_div_pow2 by lia. reflexivity. }
  rewrite Hbelow.
  assert (Hback : Z.shiftl (Uint63.to_Z (mant >> k)) (Uint63.to_Z k) = Uint63.to_Z mant).
  { rewrite <- Heq at 2. rewrite Uint63.lsl_spec, Z.shiftl_mul_pow2 by lia.
    symmetry. apply Z.mod_small.
    rewrite Uint63.lsr_spec.
    assert (0 < 2 ^ Uint63.to_Z k) by (apply Z.pow_pos_nonneg; lia).
    pose proof (Z.mul_div_le (Uint63.to_Z mant) (2 ^ Uint63.to_Z k) ltac:(lia)).
    assert (0 <= Uint63.to_Z mant / 2 ^ Uint63.to_Z k) by (apply Z.div_pos; lia).
    change wB with (2 ^ 63). nia. }
  rewrite Hback, Z.eqb_refl. reflexivity.
Qed.

Lemma all_from_spec (depth : nat) (f : int -> bool) (lo step : int) :
  Uint63.to_Z step = 2 ^ Z.of_nat depth ->
  Uint63.to_Z lo + 2 ^ Z.of_nat depth <= wB ->
  Double.all_from depth f lo step = true ->
  forall i, Uint63.to_Z lo <= Uint63.to_Z i < Uint63.to_Z lo + 2 ^ Z.of_nat depth ->
  f i = true.
Proof.
  revert lo step. induction depth as [|d IH]; intros lo step Hstep Hfit H i Hi.
  - simpl in *. replace i with lo; [exact H|]. apply Uint63.to_Z_inj. lia.
  - cbn [Double.all_from] in H. apply andb_prop in H as [H1 H2].
    rewrite Nat2Z.inj_succ, Z.pow_succ_r in Hstep, Hfit, Hi by lia.
    assert (Hpos : 0 < 2 ^ Z.of_nat d) by (apply Z.pow_pos_nonneg; lia).
    assert (Hhalf : Uint63.to_Z (step >> 1) = 2 ^ Z.of_nat d).
    { rewrite Uint63.lsr_spec, Hstep. change (Uint63.to_Z 1) with 1.
      change (2 ^ 1) with 2. rewrite Z.mul_comm. apply Z.div_mul. lia. }
    pose proof (Uint63.to_Z_bounded lo) as Hlo.
    assert (Hmid : Uint63.to_Z (lo + (step >> 1)) = Uint63.to_Z lo + 2 ^ Z.of_nat d).
    { rewrite Uint63.add_spec, Hhalf. apply Z.mod_small. lia. }
    destruct (Z.lt_ge_cases (Uint63.to_Z i) (Uint63.to_Z lo + 2 ^ Z.of_nat d)).
    + apply (IH lo (step >> 1)%uint63 Hhalf ltac:(lia) H1). lia.
    + apply (IH _ (step >> 1)%uint63 Hhalf ltac:(rewrite Hmid; lia) H2).
      rewrite Hmid. lia.
Qed.

Lemma within_spec (depth : nat) (lo hi : int) (f : int -> bool) (step : int) :
  Uint63.to_Z step = 2 ^ Z.of_nat depth ->
  Z.of_nat depth <= 62 ->
  Double.all_from depth (Double.within lo hi f) 0 step = true ->
  Uint63.to_Z hi < 2 ^ Z.of_nat depth ->
  forall z, Uint63.to_Z lo <= z <= Uint63.to_Z hi -> f (Uint63.of_Z z) = true.
Proof.
  intros Hstep Hdepth H Hhi z Hz.
  pose proof (Uint63.to_Z_bounded lo) as Hlo.
  assert (Hpow : 2 ^ Z.of_nat depth <= 2 ^ 62) by (apply Z.pow_le_mono_r; lia).
  assert (Hzi : Uint63.to_Z (Uint63.of_Z z) = z).
  { rewrite Uint63.of_Z_spec. apply Z.mod_small. change wB with (2 ^ 63). lia. }
  pose proof (all_from_spec depth _ 0 step Hstep
                ltac:(change (Uint63.to_Z 0) with 0; change wB with (2 ^ 63); lia) H
                (Uint63.of_Z z)
                ltac:(change (Uint63.to_Z 0) with 0; lia)) as Hw.
  unfold Double.within in Hw.
  destruct (Uint63.leb lo (Uint63.of_Z z)) eqn:E1.
  - destruct (Uint63.leb (Uint63.of_Z z) hi) eqn:E2; [exact Hw|].
    assert (Uint63.leb (Uint63.of_Z z) hi = true) by (apply Uint63.leb_spec; lia).
    congruence.
  - assert (Uint63.leb lo (Uint63.of_Z z) = true) by (apply Uint63.leb_spec; lia).
    congruence.
Qed.

Lemma uint16_all : forall n, 1 <= n <= 65535 -> uint16_ok (Uint63.of_Z n) = true.
Proof.
  apply (within_spec 16 1 65535 uint16_ok 65536);
    [reflexivity|lia|vm_cast_no_check (eq_refl true)|reflexivity].
Qed.

Lemma Number_whole (n : Z) : 0 <= n -> JS.Number n = of_uint63 (Uint63.of_Z n).
Proof.
  intros Hn. unfold JS.Number. destruct (Z.ltb_spec n 0); [lia|].
  now rewrite Z.abs_eq by lia.
Qed.

Lemma of_Z_small (n : Z) : 0 <= n < 2 ^ 62 -> Uint63.to_Z (Uint63.of_Z n) = n.
Proof.
  intros Hn. rewrite Uint63.of_Z_spec. apply Z.mod_small. change wB with (2 ^ 63). lia.
Qed.

(** The Number of a 16-bit integer is read back as that integer. *)
Lemma value_uint16 (n : Z) :
  0 <= n <= 65535 -> JS.value (JS.Number n) = JS.Integer n.
Proof.
  intros Hn. destruct (Z.eq_dec n 0) as [->|Hnz]; [reflexivity|].
  rewrite Number_whole by lia.
  pose proof (uint16_all n ltac:(lia)) as H. unfold uint16_ok in H.
  destruct (Double.integer _) as [k|] eqn:Hk; [|discriminate].
  apply Uint63.eqb_spec in H. subst k.
  rewrite (integer_spec _ _ Hk). now rewrite of_Z_small by lia.
Qed.

Lemma uint16_written (v : float) (k : Z) :
  JS.value v = JS.Integer k -> 0 <= k <= 65535 ->
  Buffer.checkInt v 65535 = true /\ JS.ToUint v = k.
Proof.
  intros Hv Hk. unfold Buffer.checkInt, JS.ToUint. rewrite Hv.
  split; [|reflexivity].
  destruct (Z.leb_spec 0 k); [|lia]. destruct (Z.leb_spec k 65535); [|lia]. reflexivity.
Qed.

Lemma spec_round_whole (z : Z) : spec_round (inject_Z z) = z.
Proof.
  unfold spec_round, Qfloor, Qplus, inject_Z. cbn [Qnum Qden].
  rewrite Z.mul_1_l. change (Z.pos (1 * 2)) with 2.
  replace (z * 2 + 1) with (1 + z * 2) by lia.
  rewrite Z.div_add by lia. reflexivity.
Qed.

Lemma spec_round_dyadic (sm k : Z) :
  0 < k ->
  spec_round (sm # Z.to_pos (2 ^ k)) = (sm + 2 ^ (k - 1)) / 2 ^ k.
Proof.
  intros Hk.
  assert (Hp : 0 < 2 ^ k) by (apply Z.pow_pos_nonneg; lia).
  assert (Hh : 0 < 2 ^ (k - 1)) by (apply Z.pow_pos_nonneg; lia).
  assert (Hd : 2 ^ k = 2 * 2 ^ (k - 1)).
  { replace k with (1 + (k - 1)) at 1 by lia. rewrite Z.pow_add_r by lia. reflexivity. }
  unfold spec_round, Qfloor, Qplus. cbn [Qnum Qden].
  rewrite Pos2Z.inj_mul, Z2Pos.id by lia.
  rewrite Z.mul_1_l.
  replace (sm * 2 + 2 ^ k) with (2 * (sm + 2 ^ (k - 1))) by lia.
  rewrite (Z.mul_comm (2 ^ k) 2).
  now rewrite Z.div_mul_cancel_l by lia.
Qed.

(** [Math.round] is exact: on every finite double whose rounding fits 16
    bits it returns the integer [round] of the double's value. *)
Lemma round_exact (x : float) (q : Q) :
  double_value x = Some q -> 0 <= spec_round q <= 65535 ->
  JS.value (JS.Math_round x) = JS.Integer (spec_round q).
Proof.
  unfold double_value, JS.Math_round, JS.value at 1.
  destruct (Prim2SF x) as [s| | |s m e] eqn:Hx; try discriminate.
  - intros [= <-] _. unfold JS.value. now rewrite Hx.
  - cbv zeta. fold (JS.signed s m).
    destruct (Z.leb_spec 0 e) as [He|He].
    + intros [= <-] _. unfold JS.value. rewrite Hx.
      destruct (Z.leb_spec 0 e); [|lia].
      now rewrite spec_round_whole, Z.shiftl_mul_pow2.
    + intros [= <-]. rewrite spec_round_dyadic by lia.
      rewrite Z.shiftl_1_l, Z.shiftr_div_pow2 by lia.
      set (n := (JS.signed s m + 2 ^ (- e - 1)) / 2 ^ (- e)).
      intros Hn.
      destruct ((n =? 0) && s) eqn:Hz.
      * apply andb_prop in Hz as [Hz _]. apply Z.eqb_eq in Hz. rewrite Hz. reflexivity.
      * now apply value_uint16.
Qed.

Lemma spec_ticks_0625 (ms : Z) : spec_ticks ms (5 # 8) = (16 * ms + 5) / 10.
Proof.
  unfold spec_ticks, spec_round, Qfloor, Qdiv, Qmult, Qplus, Qinv, inject_Z.
  cbn [Qnum Qden]. f_equal. lia.
Qed.

Lemma spec_ticks_10 (ms : Z) : spec_ticks ms 10 = (ms + 5) / 10.
Proof.
  unfold spec_ticks, spec_round, Qfloor, Qdiv, Qmult, Qplus, Qinv, inject_Z.
  cbn [Qnum Qden].
  change (Z.pos (1 * 10)) with 10. change (Z.pos (1 * 10 * 2)) with (2 * 10).
  replace (ms * 1 * 2 + 1 * 10) with (2 * (ms + 5)) by lia.
  now rewrite Z.div_mul_cancel_l by lia.
Qed.

Lemma spec_ticks_128 (sec : Z) : spec_ticks sec (32 # 25) = (25 * sec + 16) / 32.
Proof.
  unfold spec_ticks, spec_round, Qfloor, Qdiv, Qmult, Qplus, Qinv, inject_Z.
  cbn [Qnum Qden].
  change (Z.pos (1 * 32)) with 32. change (Z.pos (1 * 32 * 2)) with (2 * 32).
  replace (sec * 25 * 2 + 1 * 32) with (2 * (25 * sec + 16)) by lia.
  now rewrite Z.div_mul_cancel_l by lia.
Qed.

Lemma ticks_all : forall ms, 1 <= ms <= 40959 -> ticks_ok (Uint63.of_Z ms) = true.
Proof.
  apply (within_spec 16 1 40959 ticks_ok 65536);
    [reflexivity|lia|vm_cast_no_check (eq_refl true)|reflexivity].
Qed.

Lemma duration_all : forall ms, 1 <= ms <= 655354 -> duration_ok (Uint63.of_Z ms) = true.
Proof.
  apply (within_spec 20 1 655354 duration_ok 1048576);
    [reflexivity|lia|vm_cast_no_check (eq_refl true)|reflexivity].
Qed.

Lemma period_all : forall sec, 1 <= sec <= 83885 -> period_ok (Uint63.of_Z sec) = true.
Proof.
  apply (within_spec 17 1 83885 period_ok 131072);
    [reflexivity|lia|vm_cast_no_check (eq_refl true)|reflexivity].
Qed.

Lemma roundtrip_all : forall ms, 20 <= ms <= 10240 -> roundtrip_ok (Uint63.of_Z ms) = true.
Proof.
  apply (within_spec 14 20 10240 roundtrip_ok 16384);
    [reflexivity|lia|vm_cast_no_check (eq_refl true)|reflexivity].
Qed.

Lemma bitfield_step (acc : Z) (c : LeAdvertisingChannelMap) :
  0 <= acc <= 7 -> 0 <= JS.bor acc (JS.shl 1 (ordinal c)) <= 7.
Proof.
  intros Hacc.
  assert (Hcases : acc = 0 \/ acc = 1 \/ acc = 2 \/ acc = 3 \/
                   acc = 4 \/ acc = 5 \/ acc = 6 \/ acc = 7) by lia.
  destruct c; repeat (destruct Hcases as [->|Hcases]); try subst acc;
    split; apply Z.leb_le; vm_compute; reflexivity.
Qed.

Lemma buildBitfield_channels (channels : list LeAdvertisingChannelMap) :
  0 <= Hci.buildBitfield (map ordinal channels) <= 7.
Proof.
  unfold Hci.buildBitfield.
  assert (H : forall acc, 0 <= acc <= 7 ->
            0 <= fold_left (fun bitfield bit => JS.bor bitfield (JS.shl 1 bit))
                   (map ordinal channels) acc <= 7).
  { induction channels as [|c channels IH]; intros acc Hacc; simpl; [exact Hacc|].
    apply IH. now apply bitfield_step. }
  apply H. lia.
Qed.

#[local] Set Warnings "-inexact-float".

Lemma leSetAdvertisingParameters_payload
  (mem : nat -> Z) (minMs maxMs : float) (advertisingType : LeAdvertisingType)
  (ownAddressType : LeOwnAddressType) (peerAddressType : LePeerAddressType)
  (peerAddress : Z) (channels : list LeAdvertisingChannelMap)
  (policy : LeAdvertisingFilterPolicy) :
  Buffer.checkInt (JS.Math_round (minMs / 0.625)) 65535 = true ->
  Buffer.checkInt (JS.Math_round (maxMs / 0.625)) 65535 = true ->
  0 <= peerAddress < 2 ^ 48 ->
  Hci.leSetAdvertisingParameters mem minMs maxMs
    advertisingType ownAddressType peerAddressType peerAddress channels policy =
  Ok (Buffer.le_bytes 2 (JS.ToUint (JS.Math_round (minMs / 0.625))) ++
      Buffer.le_bytes 2 (JS.ToUint (JS.Math_round (maxMs / 0.625))) ++
      [ordinal advertisingType; ordinal ownAddressType; ordinal peerAddressType] ++
      Buffer.le_bytes 6 peerAddress ++
      [Hci.buildBitfield (map ordinal channels); ordinal policy]).
Proof.
  intros Hcmin Hcmax Hpeer.
  assert (Hty : 0 <= ordinal advertisingType <= 255)
    by (destruct advertisingType; cbn; lia).
  assert (Hown : 0 <= ordinal ownAddressType <= 255)
    by (destruct ownAddressType; cbn; lia).
  assert (Hpt : 0 <= ordinal peerAddressType <= 255)
    by (destruct peerAddressType; cbn; lia).
  assert (Hpol : 0 <= ordinal policy <= 255) by (destruct policy; cbn; lia).
  pose proof (buildBitfield_channels channels) as Hbits.
  unfold Hci.leSetAdvertisingParameters.
  cbn [Buffer.allocUnsafe seq map].
  write_number Hcmin. write_number Hcmax.
  write_uint. write_uint. write_uint. write_uint. write_uint. write_uint.
  rewrite !(Z.mod_small (ordinal _)), (Z.mod_small (Hci.buildBitfield _)) by lia.
  reflexivity.
Qed.

Lemma leSetExtendedScanEnable_payload
  (mem : nat -> Z) (enable : bool) (filterDuplicates : LeScanFilterDuplicates)
  (durationMs periodSec : option float) :
  Buffer.checkInt (JS.Math_round (Hci.orZero durationMs / 10)) 65535 = true ->
  Buffer.checkInt (JS.Math_round (Hci.orZero periodSec / 1.28)) 65535 = true ->
  Hci.leSetExtendedScanEnable mem enable filterDuplicates durationMs periodSec =
  Ok ([Hci.flag enable; ordinal filterDuplicates] ++
      Buffer.le_bytes 2 (JS.ToUint (JS.Math_round (Hci.orZero durationMs / 10))) ++
      Buffer.le_bytes 2 (JS.ToUint (JS.Math_round (Hci.orZero periodSec / 1.28)))).
Proof.
  intros Hcd Hcp.
  assert (Hfd : 0 <= ordinal filterDuplicates <= 255)
    by (destruct filterDuplicates; cbn; lia).
  assert (Hen : 0 <= Hci.flag enable <= 255) by (destruct enable; cbn; lia).
  unfold Hci.leSetExtendedScanEnable.
  cbn [Buffer.allocUnsafe seq map Nat.add].
  write_uint. write_uint. write_number Hcd. write_number Hcp.
  rewrite (Z.mod_small (ordinal _)), (Z.mod_small (Hci.flag _)) by lia.
  reflexivity.
Qed.

Lemma ticks_exact (ms : Z) :
  0 <= ms <= 40959 ->
  JS.value (Hci.msToHciValue (JS.Number ms)) = JS.Integer (spec_ticks ms (5 # 8)).
Proof.
  intros Hms. destruct (Z.eq_dec ms 0) as [->|Hnz]; [vm_compute; reflexivity|].
  rewrite spec_ticks_0625. unfold Hci.msToHciValue. rewrite Number_whole by lia.
  pose proof (ticks_all ms ltac:(lia)) as H. unfold ticks_ok in H.
  destruct (Double.round _) as [n|] eqn:Hr; [|discriminate].
  apply Uint63.eqb_spec in H. rewrite (round_spec _ _ Hr).
  assert (Hn : Uint63.to_Z n = (16 * ms + 5) / 10).
  { rewrite H, Uint63.div_spec, Uint63.add_spec, Uint63.mul_spec, of_Z_small by lia.
    change (Uint63.to_Z 16) with 16. change (Uint63.to_Z 5) with 5.
    change (Uint63.to_Z 10) with 10. change wB with (2 ^ 63).
    rewrite (Z.mod_small (16 * ms)) by lia. now rewrite Z.mod_small by lia. }
  assert (0 <= (16 * ms + 5) / 10 <= 65535).
  { split; [apply Z.div_pos; lia|]. apply Z.lt_succ_r, Z.div_lt_upper_bound; lia. }
  rewrite <- (Uint63.of_to_Z n), Hn, <- Number_whole by lia.
  now apply value_uint16.
Qed.

Lemma duration_exact (ms : Z) :
  0 <= ms <= 655354 ->
  JS.value (JS.Math_round (JS.Number ms / 10)) = JS.Integer (spec_ticks ms 10).
Proof.
  intros Hms. destruct (Z.eq_dec ms 0) as [->|Hnz]; [vm_compute; reflexivity|].
  rewrite spec_ticks_10. rewrite Number_whole by lia.
  pose proof (duration_all ms ltac:(lia)) as H. unfold duration_ok in H.
  destruct (Double.round _) as [n|] eqn:Hr; [|discriminate].
  apply Uint63.eqb_spec in H. rewrite (round_spec _ _ Hr).
  assert (Hn : Uint63.to_Z n = (ms + 5) / 10).
  { rewrite H, Uint63.div_spec, Uint63.add_spec, of_Z_small by lia.
    change (Uint63.to_Z 5) with 5. change (Uint63.to_Z 10) with 10.
    change wB with (2 ^ 63). now rewrite Z.mod_small by lia. }
  assert (0 <= (ms + 5) / 10 <= 65535).
  { split; [apply Z.div_pos; lia|]. apply Z.lt_succ_r, Z.div_lt_upper_bound; lia. }
  rewrite <- (Uint63.of_to_Z n), Hn, <- Number_whole by lia.
  now apply value_uint16.
Qed.

Lemma period_exact (sec : Z) :
  0 <= sec <= 83885 ->
  JS.value (JS.Math_round (JS.Number sec / 1.28)) = JS.Integer (spec_ticks sec (32 # 25)).
Proof.
  intros Hs. destruct (Z.eq_dec sec 0) as [->|Hnz]; [vm_compute; reflexivity|].
  rewrite spec_ticks_128. rewrite Number_whole by lia.
  pose proof (period_all sec ltac:(lia)) as H. unfold period_ok in H.
  destruct (Double.round _) as [n|] eqn:Hr; [|discriminate].
  apply Uint63.eqb_spec in H. rewrite (round_spec _ _ Hr).
  assert (Hn : Uint63.to_Z n = (25 * sec + 16) / 32).
  { rewrite H, Uint63.div_spec, Uint63.add_spec, Uint63.mul_spec, of_Z_small by lia.
    change (Uint63.to_Z 25) with 25. change (Uint63.to_Z 16) with 16.
    change (Uint63.to_Z 32) with 32. change wB with (2 ^ 63).
    rewrite (Z.mod_small (25 * sec)) by lia. now rewrite Z.mod_small by lia. }
  assert (0 <= (25 * sec + 16) / 32 <= 65535).
  { split; [apply Z.div_pos; lia|]. apply Z.lt_succ_r, Z.div_lt_upper_bound; lia. }
  rewrite <- (Uint63.of_to_Z n), Hn, <- Number_whole by lia.
  now apply value_uint16.
Qed.

Lemma roundtrip_exact (ms : Z) :
  20 <= ms <= 10240 ->
  JS.value (JS.Math_round (Hci.hciValueToMs (Hci.msToHciValue (JS.Number ms)))) =
  JS.Integer ms.
Proof.
  intros Hms. unfold Hci.msToHciValue, Hci.hciValueToMs. rewrite Number_whole by lia.
  pose proof (roundtrip_all ms ltac:(lia)) as H. unfold roundtrip_ok in H.
  destruct (Double.round (of_uint63 (Uint63.of_Z ms) / 0.625)) as [n|] eqn:Hr;
    [|discriminate].
  rewrite (round_spec _ _ Hr).
  destruct (Double.round (of_uint63 n * 0.625)) as [back|] eqn:Hb; [|discriminate].
  apply Uint63.eqb_spec in H. subst back.
  rewrite (round_spec _ _ Hb), <- Number_whole by lia.
  apply value_uint16. lia.
Qed.

Lemma le_bytes_uint16 (v : Z) : 0 <= v <= 65535 -> Buffer.le_bytes 2 v = uint16_le v.
Proof.
  intros Hv. unfold uint16_le. cbn [Buffer.le_bytes]. do 2 f_equal.
  apply Z.mod_small. split; [apply Z.div_pos; lia|apply Z.div_lt_upper_bound; lia].
Qed.

(** What [leSetAdvertisingParameters] writes once the two rounded intervals
    are known to be the 16-bit integers [tmin] and [tmax]. *)
Lemma advertising_intervals_written
  (mem : nat -> Z) (minMs maxMs : float) (tmin tmax : Z)
  (advertisingType : LeAdvertisingType)
  (ownAddressType : LeOwnAddressType) (peerAddressType : LePeerAddressType)
  (peerAddress : Z) (channels : list LeAdvertisingChannelMap)
  (policy : LeAdvertisingFilterPolicy) :
  JS.value (JS.Math_round (minMs / 0.625)) = JS.Integer tmin -> 0 <= tmin <= 65535 ->
  JS.value (JS.Math_round (maxMs / 0.625)) = JS.Integer tmax -> 0 <= tmax <= 65535 ->
  0 <= peerAddress < 2 ^ 48 ->
  Hci.leSetAdvertisingParameters mem minMs maxMs
    advertisingType ownAddressType peerAddressType peerAddress channels policy =
  Ok (uint16_le tmin ++ uint16_le tmax ++
      [ordinal advertisingType; ordinal ownAddressType; ordinal peerAddressType] ++
      Buffer.le_bytes 6 peerAddress ++
      [Hci.buildBitfield (map ordinal channels); ordinal policy]).
Proof.
  intros Hmin Htmin Hmax Htmax Hpeer.
  destruct (uint16_written _ _ Hmin Htmin) as [Hcmin Humin].
  destruct (uint16_written _ _ Hmax Htmax) as [Hcmax Humax].
  rewrite leSetAdvertisingParameters_payload by assumption.
  now rewrite Humin, Humax, !le_bytes_uint16 by assumption.
Qed.

Lemma scan_enable_written
  (mem : nat -> Z) (enable : bool) (filterDuplicates : LeScanFilterDuplicates)
  (durationMs periodSec : option float) (duration period : Z) :
  JS.value (JS.Math_round (match durationMs with Some v => v | None => 0 end / 10)) =
    JS.Integer duration -> 0 <= duration <= 65535 ->
  JS.value (JS.Math_round (match periodSec with Some v => v | None => 0 end / 1.28)) =
    JS.Integer period -> 0 <= period <= 65535 ->
  Hci.leSetExtendedScanEnable mem enable filterDuplicates durationMs periodSec =
  Ok ([if enable then 1 else 0; ordinal filterDuplicates] ++
      uint16_le duration ++ uint16_le period).
Proof.
  intros Hd Hdr Hp Hpr.
  destruct (uint16_written _ _ Hd Hdr) as [Hcd Hud].
  destruct (uint16_written _ _ Hp Hpr) as [Hcp Hup].
  rewrite leSetExtendedScanEnable_payload by assumption.
  unfold Hci.orZero. now rewrite Hud, Hup, !le_bytes_uint16 by assumption.
Qed.

Lemma spec_ticks_range (ms : Z) :
  (0 <= ms <= 40959 -> 0 <= spec_ticks ms (5 # 8) <= 65535) /\
  (0 <= ms <= 655354 -> 0 <= spec_ticks ms 10 <= 65535) /\
  (0 <= ms <= 83885 -> 0 <= spec_ticks ms (32 # 25) <= 65535).
Proof.
  rewrite spec_ticks_0625, spec_ticks_10, spec_ticks_128.
  repeat split; try (apply Z.div_pos; lia);
    apply Z.lt_succ_r, Z.div_lt_upper_bound; lia.
Qed.

(** C8: the conversions are [round(ms / unit)].  For whole numbers of
    milliseconds [leSetAdvertisingParameters] writes, little-endian in its
    two 2-byte fields, the exact rational [round(ms / 0.625)] of each
    interval, for every interval whose ticks fit 16 bits (0 to 40959 ms);
    [leSetExtendedScanEnable] writes [round(ms / 10)] for every duration
    from 0 to 655354 ms and [round(sec / 1.28)] for every period from 0 to
    83885 s, the whole range of each field, an absent one counting as 0.
    For any Numbers at all, the value written is [round(q)], [q] being the
    double that [ms / unit] evaluates to.  [msToHciValue] is
    [round(ms / 0.625)] on whole numbers too; for every whole [ms] from 20
    to 10240 the ticks times 0.625 round back to [ms]; 20 ms is 32 ticks
    and 10240 ms is 16384 ticks, both within the 2-byte field. *)
Theorem conversions_round_to_ticks :
  (forall mem minMs maxMs advertisingType ownAddressType peerAddressType
          peerAddress channels policy,
     0 <= minMs <= 40959 -> 0 <= maxMs <= 40959 -> 0 <= peerAddress < 2 ^ 48 ->
     Hci.leSetAdvertisingParameters mem (JS.Number minMs) (JS.Number maxMs)
       advertisingType ownAddressType peerAddressType peerAddress channels policy =
     Ok (uint16_le (spec_ticks minMs (5 # 8)) ++ uint16_le (spec_ticks maxMs (5 # 8)) ++
         [ordinal advertisingType; ordinal ownAddressType; ordinal peerAddressType] ++
         Buffer.le_bytes 6 peerAddress ++
         [Hci.buildBitfield (map ordinal channels); ordinal policy])) /\
  (forall mem enable filterDuplicates durationMs periodSec,
     match durationMs with Some ms => 0 <= ms <= 655354 | None => True end ->
     match periodSec with Some sec => 0 <= sec <= 83885 | None => True end ->
     Hci.leSetExtendedScanEnable mem enable filterDuplicates
       (option_map JS.Number durationMs) (option_map JS.Number periodSec) =
     Ok ([if enable then 1 else 0; ordinal filterDuplicates] ++
         uint16_le (spec_ticks_or_zero durationMs 10) ++
         uint16_le (spec_ticks_or_zero periodSec (32 # 25)))) /\
  (forall mem minMs maxMs a b advertisingType ownAddressType peerAddressType
          peerAddress channels policy,
     double_value (minMs / 0.625) = Some a -> 0 <= spec_round a <= 65535 ->
     double_value (maxMs / 0.625) = Some b -> 0 <= spec_round b <= 65535 ->
     0 <= peerAddress < 2 ^ 48 ->
     Hci.leSetAdvertisingParameters mem minMs maxMs
       advertisingType ownAddressType peerAddressType peerAddress channels policy =
     Ok (uint16_le (spec_round a) ++ uint16_le (spec_round b) ++
         [ordinal advertisingType; ordinal ownAddressType; ordinal peerAddressType] ++
         Buffer.le_bytes 6 peerAddress ++
         [Hci.buildBitfield (map ordinal channels); ordinal policy])) /\
  (forall mem enable filterDuplicates durationMs periodSec d p,
     double_value (match durationMs with Some v => v | None => 0 end / 10) = Some d ->
     0 <= spec_round d <= 65535 ->
     double_value (match periodSec with Some v => v | None => 0 end / 1.28) = Some p ->
     0 <= spec_round p <= 65535 ->
     Hci.leSetExtendedScanEnable mem enable filterDuplicates durationMs periodSec =
     Ok ([if enable then 1 else 0; ordinal filterDuplicates] ++
         uint16_le (spec_round d) ++ uint16_le (spec_round p))) /\
  (forall ms, 0 <= ms <= 40959 ->
     JS.value (Hci.msToHciValue (JS.Number ms)) = JS.Integer (spec_ticks ms (5 # 8))) /\
  (forall ms, 0 <= ms <= 655354 ->
     JS.value (JS.Math_round (JS.Number ms / 10)) = JS.Integer (spec_ticks ms 10)) /\
  (forall sec, 0 <= sec <= 83885 ->
     JS.value (JS.Math_round (JS.Number sec / 1.28)) =
     JS.Integer (spec_ticks sec (32 # 25))) /\
  (forall ms, 20 <= ms <= 10240 ->
     JS.value (JS.Math_round (Hci.hciValueToMs (Hci.msToHciValue (JS.Number ms))))
     = JS.Integer ms) /\
  spec_ticks 20 (5 # 8) = 32 /\ spec_ticks 10240 (5 # 8) = 16384 /\
  JS.value (Hci.msToHciValue (JS.Number 20)) = JS.Integer 32 /\
  JS.value (Hci.msToHciValue (JS.Number 10240)) = JS.Integer 16384 /\
  Buffer.checkInt (Hci.msToHciValue (JS.Number 20)) 65535 = true /\
  Buffer.checkInt (Hci.msToHciValue (JS.Number 10240)) 65535 = true.
Proof.
  split; [|split; [|split; [|split; [|split; [|split; [|split; [|split]]]]]]].
  - intros mem minMs maxMs ty own pt peer channels policy Hmin Hmax Hpeer.
    apply advertising_intervals_written;
      [exact (ticks_exact minMs Hmin)|now apply spec_ticks_range
      |exact (ticks_exact maxMs Hmax)|now apply spec_ticks_range|exact Hpeer].
  - intros mem enable fd durationMs periodSec Hd Hp.
    apply scan_enable_written.
    + destruct durationMs as [ms|]; [exact (duration_exact ms Hd)|vm_compute; reflexivity].
    + destruct durationMs as [ms|]; [now apply spec_ticks_range|simpl; lia].
    + destruct periodSec as [sec|]; [exact (period_exact sec Hp)|vm_compute; reflexivity].
    + destruct periodSec as [sec|]; [now apply spec_ticks_range|simpl; lia].
  - intros mem minMs maxMs a b ty own pt peer channels policy Ha Hra Hb Hrb Hpeer.
    apply advertising_intervals_written;
      [now apply round_exact|exact Hra|now apply round_exact|exact Hrb|exact Hpeer].
  - intros mem enable fd durationMs periodSec d p Hd Hrd Hp Hrp.
    apply scan_enable_written;
      [now apply round_exact|exact Hrd|now apply round_exact|exact Hrp].
  - exact ticks_exact.
  - exact duration_exact.
  - exact period_exact.
  - exact roundtrip_exact.
  - repeat split; vm_compute; reflexivity.
Qed.

(** The statement at work: 100 ms to 200 ms is written as [A0 00] and
    [40 01]; 20.5 ms is 32.8 ticks and is written as 33, 100.3125 ms is
    160.5 ticks and is written as 161; a scan of 12345.5 ms every 16 s is
    written as 1235 ticks of 10 ms and 13 ticks of 1.28 s. *)
Lemma conversions_round_to_ticks_witness :
  Hci.leSetAdvertisingParameters Scenario.mem 100 200 Undirected
    OwnPublicDeviceAddress PeerPublicDeviceAddress 0
    [Channel37; Channel38; Channel39] Any =
  Ok [160; 0; 64; 1; 0; 0; 0; 0; 0; 0; 0; 0; 0; 7; 0] /\
  Hci.leSetAdvertisingParameters Scenario.mem 20.5 100.3125 Undirected
    OwnPublicDeviceAddress PeerPublicDeviceAddress 0
    [Channel37; Channel38; Channel39] Any =
  Ok [33; 0; 161; 0; 0; 0; 0; 0; 0; 0; 0; 0; 0; 7; 0] /\
  Hci.leSetExtendedScanEnable Scenario.mem true Enabled (Some 12345.5%float) (Some 16%float) =
  Ok [1; 1; 211; 4; 13; 0].
Proof.
  destruct conversions_round_to_ticks as (W & _ & G & S & _).
  split; [|split].
  - apply (W Scenario.mem 100 200 Undirected OwnPublicDeviceAddress
             PeerPublicDeviceAddress 0 [Channel37; Channel38; Channel39] Any); lia.
  - let a := eval vm_compute in (double_value (20.5 / 0.625)) in
    let b := eval vm_compute in (double_value (100.3125 / 0.625)) in
    match constr:((a, b)) with
    | (Some ?a, Some ?b) =>
        apply (G Scenario.mem 20.5%float 100.3125%float a b Undirected
                 OwnPublicDeviceAddress PeerPublicDeviceAddress 0
                 [Channel37; Channel38; Channel39] Any)
    end; first [reflexivity | split; apply Z.leb_le; reflexivity | lia].
  - let d := eval vm_compute in (double_value (12345.5 / 10)) in
    let p := eval vm_compute in (double_value (16 / 1.28)) in
    match constr:((d, p)) with
    | (Some ?d, Some ?p) =>
        apply (S Scenario.mem true Enabled (Some 12345.5%float) (Some 16%float) d p)
    end; first [reflexivity | split; apply Z.leb_le; reflexivity].
Defined.

(** The legacy advertising parameters of 100 ms to 200 ms on all three
    channels: intervals [A0 00] and [40 01]. *)
Example advertising_parameters_bytes :
  Hci.leSetAdvertisingParameters Scenario.mem 100 200 Undirected
    OwnPublicDeviceAddress PeerPublicDeviceAddress 0
    [Channel37; Channel38; Channel39] Any =
  Ok [160; 0; 64; 1; 0; 0; 0; 0; 0; 0; 0; 0; 0; 7; 0].
Proof. vm_compute. reflexivity. Qed.

(** Scanning for 10 s every 16 s: 1000 ticks of 10 ms, and a period of
    12.5 ticks of 1.28 s, which rounds up to 13. *)
Example extended_scan_enable_bytes :
  Hci.leSetExtendedScanEnable Scenario.mem true Enabled (Some 10000%float) (Some 16%float) =
  Ok [1; 1; 232; 3; 13; 0].
Proof. vm_compute. reflexivity. Qed.

#[local] Set Warnings "+inexact-float".

(** ** The dispatcher of the stand-alone [Hci] class *)

Lemma HciSend_settle_frame (id : nat) (how : HciSend.settlement) (st : HciSend.state) :
  HciSend.cmdOpcode (HciSend.settle id how st) = HciSend.cmdOpcode st /\
  HciSend.onCmdComplete (HciSend.settle id how st) = HciSend.onCmdComplete st /\
  HciSend.timers (HciSend.settle id how st) = HciSend.timers st /\
  HciSend.calls (HciSend.settle id how st) = HciSend.calls st /\
  HciSend.sent (HciSend.settle id how st) = HciSend.sent st /\
  (forall j, is_Some (HciSend.promises (HciSend.settle id how st) !! j) ->
             j = id \/ is_Some (HciSend.promises st !! j)) /\
  (HciSend.promises st !! id = None ->
   HciSend.promises (HciSend.settle id how st) !! id = Some how).
Proof.
  unfold HciSend.settle.
  destruct (HciSend.promises st !! id) eqn:E; simpl; repeat split; auto.
  - discriminate.
  - intros j H. destruct (decide (j = id)) as [->|Hne]; [now left|right].
    now rewrite lookup_insert_ne in H.
  - intros _. apply lookup_insert_eq.
Qed.


Lemma HciSend_inv_init : HciSend_inv HciSend.init.
Proof.
  split; simpl.
  - discriminate.
  - intros id H. now apply elem_of_empty in H.
  - intros id [x H]. now rewrite lookup_empty in H.
Qed.

Lemma HciSend_inv_complete (id : nat) (how : HciSend.settlement) (st : HciSend.state) :
  HciSend_inv st -> (id < HciSend.calls st)%nat ->
  HciSend_inv (HciSend.complete id how st).
Proof.
  intros [Hop Htim Hmade] Hid. unfold HciSend.complete.
  destruct (HciSend_settle_frame id how
              {| HciSend.cmdOpcode := HciSend.cmdOpcode st;
                 HciSend.onCmdComplete := None;
                 HciSend.timers := HciSend.timers st ∖ {[id]};
                 HciSend.promises := HciSend.promises st;
                 HciSend.calls := HciSend.calls st;
                 HciSend.sent := HciSend.sent st |})
    as (_ & H2 & H3 & H4 & _ & H6 & _).
  split.
  - intros c. rewrite H2. discriminate.
  - intros j. rewrite H3, H4. simpl. rewrite elem_of_difference.
    intros [Hj _]. now apply Htim.
  - intros j Hj. rewrite H4. simpl.
    destruct (H6 j Hj) as [->|H]; [exact Hid|now apply Hmade].
Qed.

Lemma HciSend_inv_step (st : HciSend.state) (i : HciSend.input) :
  HciSend_inv st -> HciSend_inv (HciSend.step st i).
Proof.
  intros Hinv. pose proof Hinv as [Hop Htim Hmade].
  destruct i as [mem c|evt|id]; simpl.
  - unfold HciSend.send. simpl.
    destruct (HciSend.onCmdComplete st) as [p|] eqn:Hp.
    + match goal with |- HciSend_inv (HciSend.settle ?i ?h ?s) =>
        destruct (HciSend_settle_frame i h s) as (H1 & H2 & H3 & H4 & _ & H6 & _)
      end.
      split.
      * intros c'. rewrite H1, H2, H4. simpl. intros Hc'.
        destruct (Hop c' Hc') as [Ho Hc]. split; [exact Ho|lia].
      * intros j. rewrite H3, H4. simpl. intros Hj. specialize (Htim j Hj). lia.
      * intros j Hj. rewrite H4. simpl.
        destruct (H6 j Hj) as [->|H]; [lia|]. simpl in H. specialize (Hmade j H). lia.
    + destruct (buildBuffer mem c) as [packet|e].
      * split; simpl.
        -- intros c' [= <-]. simpl. split; [reflexivity|lia].
        -- intros j. rewrite elem_of_union, elem_of_singleton.
           intros [Hj| ->]; [specialize (Htim j Hj)|]; lia.
        -- intros j Hj. specialize (Hmade j Hj). lia.
      * match goal with |- HciSend_inv (HciSend.settle ?i ?h ?s) =>
          destruct (HciSend_settle_frame i h s) as (H1 & H2 & H3 & H4 & _ & H6 & _)
        end.
        split.
        -- intros c'. rewrite H1, H2, H4. simpl. intros [= <-]. simpl.
           split; [reflexivity|lia].
        -- intros j. rewrite H3, H4. simpl. rewrite elem_of_union, elem_of_singleton.
           intros [Hj| ->]; [specialize (Htim j Hj)|]; lia.
        -- intros j Hj. rewrite H4. simpl.
           destruct (H6 j Hj) as [->|H]; [lia|]. simpl in H.
           specialize (Hmade j H). lia.
  - unfold HciSend.onCmdCompleteEvent.
    destruct (HciSend.onCmdComplete st) as [p|] eqn:Hp; [|exact Hinv].
    unfold HciSend.handler. destruct (negb _); [exact Hinv|].
    destruct (Hop p eq_refl) as [_ Hcall].
    destruct (_ =? _); now apply HciSend_inv_complete.
  - unfold HciSend.onTimeout. destruct (decide _) as [Hin|]; [|exact Hinv].
    apply HciSend_inv_complete; [exact Hinv|now apply Htim].
Qed.

Lemma HciSend_inv_run (inputs : list HciSend.input) : HciSend_inv (HciSend.run inputs).
Proof.
  unfold HciSend.run. induction inputs as [|i inputs IH] using rev_ind.
  - exact HciSend_inv_init.
  - rewrite fold_left_app. simpl. now apply HciSend_inv_step.
Qed.

(** [Hci.send] refuses a second command in the same way: the new promise
    is rejected with the busy error, nothing is handed to [sendRaw], and the
    pending opcode, closure and timer stay as they were. *)
Lemma HciSend_busy
  (inputs : list HciSend.input) (p : HciSend.closure) (mem : nat -> Z)
  (c : HciCommand.t) :
  HciSend.onCmdComplete (HciSend.run inputs) = Some p ->
  let st := HciSend.run inputs in
  let st' := HciSend.step st (HciSend.Submit mem c) in
  HciSend.promises st' !! HciSend.calls st =
    Some (HciSend.Rejected (JsError "Busy, command in progress.")) /\
  HciSend.sent st' = HciSend.sent st /\
  HciSend.onCmdComplete st' = Some p /\
  HciSend.cmdOpcode st' = HciCommand.opcode (HciSend.cmd p) /\
  HciSend.timers st' = HciSend.timers st.
Proof.
  intros Hp. cbv zeta. pose proof (HciSend_inv_run inputs) as [Hop _ Hmade].
  simpl. unfold HciSend.send. simpl. rewrite Hp.
  match goal with |- context [HciSend.settle ?i ?h ?s] =>
    destruct (HciSend_settle_frame i h s) as (H1 & H2 & H3 & _ & H5 & _ & H7)
  end.
  rewrite H1, H2, H3, H5, H7; simpl.
  - destruct (Hop p Hp) as [Ho _]. now rewrite Ho.
  - destruct (HciSend.promises _ !! _) eqn:E; [|reflexivity].
    assert (HciSend.calls (HciSend.run inputs) < HciSend.calls (HciSend.run inputs))%nat
      by (apply Hmade; eauto). lia.
Qed.

(** In [Hci.send] too, a Command Complete for an opcode other than the
    opcode of the pending command changes nothing. *)
Lemma HciSend_mismatched_opcode
  (inputs : list HciSend.input) (p : HciSend.closure) (evt : HciEvtCmdComplete.t) :
  HciSend.onCmdComplete (HciSend.run inputs) = Some p ->
  HciCommand.opcode (HciSend.cmd p) <> HciEvtCmdComplete.opcode evt ->
  HciSend.step (HciSend.run inputs) (HciSend.Deliver evt) = HciSend.run inputs.
Proof.
  intros Hp Hne. pose proof (HciSend_inv_run inputs) as [Hop _ _].
  destruct (Hop p Hp) as [Ho _].
  simpl. unfold HciSend.onCmdCompleteEvent, HciSend.handler. rewrite Hp, Ho.
  destruct (Z.eqb_spec (HciCommand.opcode (HciSend.cmd p)) (HciEvtCmdComplete.opcode evt));
    [contradiction|reflexivity].
Qed.

(** * Further properties of the code *)

(** ** [HciCmd]: what the dispatcher writes and when *)

Lemma buildCommand_Ok (mem : nat -> Z) (cmd : Command.t) (packet : Buffer.t) :
  buildCommand mem cmd = Ok packet ->
  0 <= Command.opcode cmd <= 65535 /\
  (payloadLength (Command.payload cmd) <= 255)%nat /\
  packet = frame (Command.opcode cmd) (Command.payload cmd).
Proof.
  intros Hok.
  destruct (Z_le_dec 0 (Command.opcode cmd)) as [H0|H0];
    [destruct (Z_le_dec (Command.opcode cmd) 65535) as [H1|H1];
       [destruct (le_dec (payloadLength (Command.payload cmd)) 255) as [H2|H2]|]|].
  - rewrite buildCommand_frame in Hok by auto. injection Hok as <-. auto.
  - rewrite buildCommand_throws in Hok by lia. discriminate.
  - rewrite buildCommand_throws in Hok by lia. discriminate.
  - rewrite buildCommand_throws in Hok by lia. discriminate.
Qed.

(** X1: [buildCommand] returns a packet exactly when the opcode is a 16-bit
    number and the payload has at most 255 bytes; otherwise it throws a
    [RangeError] and there is no packet. *)
Theorem buildCommand_returns_iff (mem : nat -> Z) (cmd : Command.t) :
  (0 <= Command.opcode cmd <= 65535 /\
   (payloadLength (Command.payload cmd) <= 255)%nat <->
   exists packet, buildCommand mem cmd = Ok packet) /\
  (~ (0 <= Command.opcode cmd <= 65535 /\
      (payloadLength (Command.payload cmd) <= 255)%nat) <->
   buildCommand mem cmd = Throw RangeError).
Proof.
  split; split.
  - intros [Hop Hlen]. eexists. now apply buildCommand_frame.
  - intros [packet Hok]. destruct (buildCommand_Ok mem cmd packet Hok) as (H1 & H2 & _).
    now split.
  - apply buildCommand_throws.
  - intros Hthrow [Hop Hlen]. rewrite buildCommand_frame in Hthrow by assumption.
    discriminate.
Qed.

Lemma step_keeps_settled
  (st : HciCmd.state) (i : HciCmd.input) (id : nat) (how : settlement) :
  HciCmd.promises st !! id = Some how ->
  HciCmd.promises (HciCmd.step st i) !! id = Some how.
Proof.
  intros Hs.
  assert (Hcomplete : forall j h, HciCmd.promises (HciCmd.complete j h st) !! id = Some how).
  { intros j h. unfold HciCmd.complete. now apply settle_keeps. }
  destruct i as [mem c|evt|j]; simpl.
  - unfold HciCmd.sendWaitResult. simpl.
    destruct (HciCmd.onResult st); [now apply settle_keeps|].
    destruct (buildCommand mem c); [exact Hs|now apply settle_keeps].
  - unfold HciCmd.onCmdResult. destruct (HciCmd.onResult st) as [p|]; [|exact Hs].
    unfold HciCmd.handler, HciCmd.classify.
    repeat match goal with
           | |- context [if ?b then _ else _] => destruct b
           | |- context [match ?x with _ => _ end] => destruct x
           end; auto.
  - unfold HciCmd.onTimeout. destruct (decide _); auto.
Qed.

Lemma run_keeps_settled
  (inputs later : list HciCmd.input) (id : nat) (how : settlement) :
  HciCmd.promises (HciCmd.run inputs) !! id = Some how ->
  HciCmd.promises (HciCmd.run (inputs ++ later)) !! id = Some how.
Proof.
  intros Hs. unfold HciCmd.run. rewrite fold_left_app.
  fold (HciCmd.run inputs). revert Hs. generalize (HciCmd.run inputs) as st.
  induction later as [|i later IH]; intros st Hs; simpl; [exact Hs|].
  apply IH. now apply step_keeps_settled.
Qed.

Lemma complete_sent (id : nat) (how : settlement) (st : HciCmd.state) :
  HciCmd.sent (HciCmd.complete id how st) = HciCmd.sent st.
Proof. unfold HciCmd.complete. now rewrite settle_sent. Qed.

Lemma handler_sent (p : HciCmd.closure) (evt : HciCmdResult.t) (st : HciCmd.state) :
  HciCmd.sent (HciCmd.handler p evt st) = HciCmd.sent st.
Proof.
  unfold HciCmd.handler, HciCmd.classify.
  repeat match goal with
         | |- context [if ?b then _ else _] => destruct b
         | |- context [match ?x with _ => _ end] => destruct x
         end; auto using complete_sent.
Qed.

(** X3: the dispatcher writes to the transport only for a submission made
    while no call is pending, and then exactly one packet, the frame of that
    command, provided the packet can be built (a 16-bit opcode and at most
    255 bytes of payload); a submission made while the slot is taken, or
    whose packet cannot be built, writes nothing, and neither does a
    delivered result or a timer.  With the slot free no call is pending. *)
Theorem writes_only_when_idle (inputs : list HciCmd.input) :
  let st := HciCmd.run inputs in
  (forall mem c,
     HciCmd.sent (HciCmd.step st (HciCmd.Submit mem c)) =
     match HciCmd.onResult st with
     | Some _ => HciCmd.sent st
     | None =>
         if (0 <=? Command.opcode c) && (Command.opcode c <=? 65535) &&
            (Z.of_nat (payloadLength (Command.payload c)) <=? 255)
         then HciCmd.sent st ++
              [(HciCommand, frame (Command.opcode c) (Command.payload c))]
         else HciCmd.sent st
     end) /\
  (HciCmd.onResult st = None -> forall j, ~ HciCmd.outstanding st j) /\
  (forall evt, HciCmd.sent (HciCmd.step st (HciCmd.Deliver evt)) = HciCmd.sent st) /\
  (forall id, HciCmd.sent (HciCmd.step st (HciCmd.Expire id)) = HciCmd.sent st).
Proof.
  cbv zeta. pose proof (inv_run inputs) as Hinv. split; [|split; [|split]].
  - intros mem c. simpl. unfold HciCmd.sendWaitResult. simpl.
    destruct (HciCmd.onResult (HciCmd.run inputs)) as [p|] eqn:Hp.
    + now rewrite settle_sent.
    + destruct (Z.leb_spec 0 (Command.opcode c)) as [H0|H0];
        [destruct (Z.leb_spec (Command.opcode c) 65535) as [H1|H1];
         [destruct (Z.leb_spec (Z.of_nat (payloadLength (Command.payload c))) 255)
            as [H2|H2]|]|]; cbn [andb].
      * rewrite buildCommand_frame by lia. reflexivity.
      * rewrite buildCommand_throws by lia. now rewrite settle_sent.
      * rewrite buildCommand_throws by lia. now rewrite settle_sent.
      * rewrite buildCommand_throws by lia. now rewrite settle_sent.
  - intros Hidle j Hj. destruct (inv_slot _ Hinv j Hj) as (q & Hq & _). congruence.
  - intros evt. simpl. unfold HciCmd.onCmdResult.
    destruct (HciCmd.onResult _); [apply handler_sent|reflexivity].
  - intros id. simpl. unfold HciCmd.onTimeout.
    destruct (decide _); [apply complete_sent|reflexivity].
Qed.

Lemma frame_well_framed (op : Z) (p : option Buffer.t) :
  (payloadLength p <= 255)%nat -> well_framed (HciCommand, frame op p).
Proof.
  intros Hlen. unfold well_framed. simpl fst. simpl snd.
  rewrite frame_length. split; [reflexivity|]. split; [lia|].
  unfold frame. simpl. do 2 f_equal. lia.
Qed.

Lemma step_well_framed (st : HciCmd.state) (i : HciCmd.input) :
  Forall well_framed (HciCmd.sent st) ->
  Forall well_framed (HciCmd.sent (HciCmd.step st i)).
Proof.
  intros Hwf. destruct i as [mem c|evt|id]; simpl.
  - unfold HciCmd.sendWaitResult. simpl.
    destruct (HciCmd.onResult st); [now rewrite settle_sent|].
    destruct (buildCommand mem c) as [packet|e] eqn:Hb; [|now rewrite settle_sent].
    simpl. apply Forall_app. split; [exact Hwf|].
    destruct (buildCommand_Ok mem c packet Hb) as (_ & Hlen & ->).
    constructor; [now apply frame_well_framed|constructor].
  - unfold HciCmd.onCmdResult.
    destruct (HciCmd.onResult st); [now rewrite handler_sent|exact Hwf].
  - unfold HciCmd.onTimeout. destruct (decide _); [now rewrite complete_sent|exact Hwf].
Qed.

(** X4: every packet the dispatcher ever hands to [send] is tagged as a
    command and is a complete command frame: between 3 and 258 bytes, with
    the byte at offset 2 equal to the number of bytes that follow it. *)
Theorem sent_packets_well_framed (inputs : list HciCmd.input) :
  Forall well_framed (HciCmd.sent (HciCmd.run inputs)).
Proof.
  unfold HciCmd.run. induction inputs as [|i inputs IH] using rev_ind.
  - constructor.
  - rewrite fold_left_app. simpl. now apply step_well_framed.
Qed.

Lemma idle_is_fresh (inputs : list HciCmd.input) :
  HciCmd.promises (HciCmd.run inputs) !! HciCmd.calls (HciCmd.run inputs) = None.
Proof.
  destruct (HciCmd.promises _ !! _) eqn:E; [|reflexivity].
  assert (HciCmd.calls (HciCmd.run inputs) < HciCmd.calls (HciCmd.run inputs))%nat
    by (apply (inv_made _ (inv_run inputs)); eauto). lia.
Qed.

(** ** [HciCmd]: whose outcome is whose *)

Lemma settle_lookup (id : nat) (how : settlement) (st : HciCmd.state)
  (j : nat) (x : settlement) :
  HciCmd.promises (HciCmd.settle id how st) !! j = Some x ->
  HciCmd.promises st !! j = Some x \/
  (j = id /\ x = how /\ HciCmd.promises st !! id = None).
Proof.
  unfold HciCmd.settle. destruct (HciCmd.promises st !! id) eqn:E; [now left|].
  simpl. destruct (decide (j = id)) as [->|Hne].
  - rewrite lookup_insert_eq. intros [= <-]. now right.
  - rewrite lookup_insert_ne by congruence. now left.
Qed.

Lemma complete_lookup (id : nat) (how : settlement) (st : HciCmd.state)
  (j : nat) (x : settlement) :
  HciCmd.promises (HciCmd.complete id how st) !! j = Some x ->
  HciCmd.promises st !! j = Some x \/ (j = id /\ x = how).
Proof.
  unfold HciCmd.complete. intros H. apply settle_lookup in H as [H|(-> & -> & _)];
    [now left|now right].
Qed.

Lemma handler_cases (p : HciCmd.closure) (evt : HciCmdResult.t) (st : HciCmd.state) :
  HciCmd.handler p evt st = st \/
  (HciCmd.answers (HciCmd.cmd p) evt /\
   HciCmd.handler p evt st = HciCmd.classify (HciCmd.call p) evt st).
Proof.
  unfold HciCmd.handler, HciCmd.answers.
  destruct (Z.eqb_spec (Command.opcode (HciCmd.cmd p)) (HciCmdResult.opcode evt))
    as [Hop|_]; cbn [negb]; [|now left].
  destruct (Command.connHandle (HciCmd.cmd p)) as [h|]; [|now right].
  destruct (HciCmdResult.returnParameters evt) as [rp|]; [|now left].
  destruct (length rp <? 2)%nat; [now left|].
  destruct (Buffer.readUInt16LE rp 0) as [handle|] eqn:Hrd; [|now left].
  destruct (Z.eqb_spec h handle) as [->|_]; cbn [negb]; [|now left].
  right. split; [|reflexivity]. split; [exact Hop|]. eauto.
Qed.

Lemma outcome_of_app (inputs more : list HciCmd.input) (id : nat) (c : Command.t)
  (how : settlement) :
  outcome_of inputs id c how -> outcome_of (inputs ++ more) id c how.
Proof.
  unfold outcome_of. destruct how as [evt|err].
  - intros (H1 & H2 & H3). split; [apply in_or_app; now left|now split].
  - intros [H|[H|[[H1 H2]|(evt & H1 & H2)]]]; [now left|now right; left| |].
    + right; right; left. split; [exact H1|apply in_or_app; now left].
    + right; right; right. exists evt. split; [apply in_or_app; now left|exact H2].
Qed.

Lemma traced_step (inputs : list HciCmd.input) (i : HciCmd.input) :
  traced inputs -> traced (inputs ++ [i]).
Proof.
  intros (Hcalls & Hslot & Hprom).
  pose proof (inv_run inputs) as Hinv.
  pose proof (idle_is_fresh inputs) as Hfresh.
  unfold traced. cbv zeta. unfold HciCmd.run. rewrite fold_left_app.
  fold (HciCmd.run inputs). cbn [fold_left]. unfold submitted. rewrite flat_map_app.
  fold (submitted inputs). cbn [flat_map].
  set (st := HciCmd.run inputs) in *.
  assert (Hold : forall id how,
            HciCmd.promises st !! id = Some how ->
            exists c, nth_error (submitted inputs ++
                        match i with HciCmd.Submit _ c => [c] | _ => [] end ++ []) id
                      = Some c /\
                      outcome_of (inputs ++ [i]) id c how).
  { intros id how H. destruct (Hprom id how H) as (c & Hc & Ho).
    exists c. split; [|now apply outcome_of_app].
    rewrite nth_error_app1; [exact Hc|]. apply nth_error_Some. congruence. }
  assert (Hkeep : forall id c,
            nth_error (submitted inputs) id = Some c ->
            nth_error (submitted inputs ++
                        match i with HciCmd.Submit _ c => [c] | _ => [] end ++ []) id
            = Some c).
  { intros id c Hc. rewrite nth_error_app1; [exact Hc|].
    apply nth_error_Some. congruence. }
  destruct i as [mem c|evt|id]; cbn [HciCmd.step].
  - (* a submission *)
    assert (Hnew : nth_error (submitted inputs ++ [c] ++ []) (HciCmd.calls st) = Some c).
    { rewrite nth_error_app2 by lia. rewrite Hcalls, Nat.sub_diag. reflexivity. }
    unfold HciCmd.sendWaitResult. cbn [HciCmd.onResult HciCmd.calls HciCmd.promises
      HciCmd.timers HciCmd.sent].
    destruct (HciCmd.onResult st) as [p|] eqn:Hp.
    + rewrite settle_calls, settle_onResult. cbn [HciCmd.calls HciCmd.onResult].
      split; [rewrite length_app; simpl; lia|]. split.
      * intros q [= <-]. apply Hkeep, Hslot; first [exact Hp|reflexivity].
      * intros id how H. apply settle_lookup in H as [H|(-> & -> & _)];
          [now apply Hold|].
        exists c. split; [exact Hnew|]. now left.
    + destruct (buildCommand mem c) as [packet|e] eqn:Hb.
      * cbn [HciCmd.calls HciCmd.onResult HciCmd.promises].
        split; [rewrite length_app; simpl; lia|]. split.
        -- intros q [= <-]. exact Hnew.
        -- exact Hold.
      * rewrite settle_calls, settle_onResult. cbn [HciCmd.calls HciCmd.onResult].
        split; [rewrite length_app; simpl; lia|]. split.
        -- intros q [= <-]. exact Hnew.
        -- intros id how H. apply settle_lookup in H as [H|(-> & -> & _)];
             [now apply Hold|].
           exists c. split; [exact Hnew|]. right; left.
           assert (Hbad : ~ (0 <= Command.opcode c <= 65535 /\
                             (payloadLength (Command.payload c) <= 255)%nat)).
           { intros [H1 H2]. rewrite buildCommand_frame in Hb by assumption.
             discriminate. }
           split; [|exact Hbad].
           rewrite buildCommand_throws in Hb by exact Hbad. congruence.
  - (* a result *)
    unfold HciCmd.onCmdResult.
    destruct (HciCmd.onResult st) as [p|] eqn:Hp.
    2:{ rewrite Hp. split; [rewrite length_app; simpl; lia|]. split.
        - intros q Hq. discriminate.
        - exact Hold. }
    destruct (handler_cases p evt st) as [->|[Hans ->]].
    { rewrite Hp. split; [rewrite length_app; simpl; lia|]. split.
      - intros q [= <-]. apply Hkeep, Hslot; first [exact Hp|reflexivity].
      - exact Hold. }
    assert (Hc : nth_error (submitted inputs ++ [] ++ []) (HciCmd.call p) =
                 Some (HciCmd.cmd p)) by (apply Hkeep, Hslot; first [exact Hp|reflexivity]).
    assert (Hin : In (HciCmd.Deliver evt) (inputs ++ [HciCmd.Deliver evt]))
      by (apply in_or_app; right; now left).
    unfold HciCmd.classify, Success.
    destruct (Z.eqb_spec (HciCmdResult.status evt) 0) as [Hz|Hnz];
      unfold HciCmd.complete; rewrite settle_calls, settle_onResult;
      cbn [HciCmd.calls HciCmd.onResult];
      (split; [rewrite length_app; simpl; lia|]);
      (split; [discriminate|]);
      intros id how H; apply settle_lookup in H as [H|(-> & -> & _)];
      try (now apply Hold); exists (HciCmd.cmd p); (split; [exact Hc|]).
    + exact (conj Hin (conj Hans Hz)).
    + right; right; right. exists evt.
      exact (conj Hin (conj Hans (conj Hnz eq_refl))).
  - (* a timer *)
    unfold HciCmd.onTimeout. destruct (decide (id ∈ HciCmd.timers st)) as [Hin|_].
    2:{ split; [rewrite length_app; simpl; lia|]. split.
        - intros q Hq. apply Hkeep, Hslot, Hq.
        - exact Hold. }
    rewrite (inv_timers _ Hinv) in Hin.
    destruct (HciCmd.onResult st) as [p|] eqn:Hp;
      [|now apply elem_of_empty in Hin].
    apply elem_of_singleton in Hin. subst id.
    unfold HciCmd.complete. rewrite settle_calls, settle_onResult.
    cbn [HciCmd.calls HciCmd.onResult].
    split; [rewrite length_app; simpl; lia|]. split; [discriminate|].
    intros id how H. apply settle_lookup in H as [H|(-> & -> & _)];
      [now apply Hold|].
    exists (HciCmd.cmd p). split; [apply Hkeep, Hslot; first [exact Hp|reflexivity]|].
    right; right; left. split; [reflexivity|]. apply in_or_app; right; now left.
Qed.

Lemma traced_run (inputs : list HciCmd.input) : traced inputs.
Proof.
  induction inputs as [|i inputs IH] using rev_ind.
  - split; [reflexivity|]. split; [discriminate|].
    intros id how H. simpl in H. now rewrite lookup_empty in H.
  - now apply traced_step.
Qed.

(** X2: every settled call got the outcome of its own command, and keeps
    it.  A call is resolved only with a delivered result of status 0 that
    answers the command the call was made for (same opcode and, if a handle
    was registered, that handle); it is rejected only as busy, with the
    range error of a packet that cannot be built, with the timeout of its
    own timer, or with the controller error of a delivered result of
    non-zero status that answers its command.  Whatever is submitted,
    delivered or timed out afterwards, the outcome stays. *)
Theorem settled_by_own_outcome
  (inputs : list HciCmd.input) (id : nat) (how : settlement) :
  HciCmd.promises (HciCmd.run inputs) !! id = Some how ->
  (exists c, nth_error (submitted inputs) id = Some c /\
             outcome_of inputs id c how) /\
  (forall later,
     HciCmd.promises (HciCmd.run (inputs ++ later)) !! id = Some how).
Proof.
  intros Hs. split.
  - destruct (traced_run inputs) as (_ & _ & Hprom). now apply Hprom.
  - intros later. now apply run_keeps_settled.
Qed.


Lemma settled_by_own_outcome_witness :
  (exists c,
     nth_error (submitted [HciCmd.Submit Scenario.mem Scenario.reset;
                           HciCmd.Deliver Scenario.resetComplete]) 0 = Some c /\
     outcome_of [HciCmd.Submit Scenario.mem Scenario.reset;
                 HciCmd.Deliver Scenario.resetComplete] 0 c
       (Resolved Scenario.resetComplete)) /\
  (forall later,
     HciCmd.promises
       (HciCmd.run ([HciCmd.Submit Scenario.mem Scenario.reset;
                     HciCmd.Deliver Scenario.resetComplete] ++ later)) !! 0%nat =
     Some (Resolved Scenario.resetComplete)).
Proof.
  exact (settled_by_own_outcome
           [HciCmd.Submit Scenario.mem Scenario.reset;
            HciCmd.Deliver Scenario.resetComplete]
           0 (Resolved Scenario.resetComplete) eq_refl).
Defined.

(** X5: a command whose packet cannot be built (an opcode that is not a
    16-bit number, or more than 255 bytes of payload), submitted to an idle
    dispatcher, is rejected with the [RangeError] and nothing is written,
    but its closure and timer stay installed: no call is pending, yet the
    next command is rejected as busy, until the timer of the failed call
    fires and frees the slot. *)
Theorem unbuildable_command_holds_slot
  (inputs : list HciCmd.input) (mem mem' : nat -> Z) (c c' : Command.t) :
  HciCmd.onResult (HciCmd.run inputs) = None ->
  ~ (0 <= Command.opcode c <= 65535 /\
     (payloadLength (Command.payload c) <= 255)%nat) ->
  let st := HciCmd.run inputs in
  let id := HciCmd.calls st in
  let st1 := HciCmd.step st (HciCmd.Submit mem c) in
  let st2 := HciCmd.step st1 (HciCmd.Submit mem' c') in
  let st3 := HciCmd.step st2 (HciCmd.Expire id) in
  HciCmd.promises st1 !! id = Some (Rejected RangeError) /\
  HciCmd.sent st1 = HciCmd.sent st /\
  HciCmd.onResult st1 = Some {| HciCmd.call := id; HciCmd.cmd := c |} /\
  (forall j, ~ HciCmd.outstanding st1 j) /\
  HciCmd.promises st2 !! S id = Some (Rejected (makeParserError Busy)) /\
  HciCmd.sent st2 = HciCmd.sent st /\
  HciCmd.onResult st3 = None /\
  HciCmd.promises st3 !! id = Some (Rejected RangeError).
Proof.
  intros Hidle Hbad. cbv zeta.
  pose proof (idle_is_fresh inputs) as Hfresh.
  set (st := HciCmd.run inputs) in *.
  assert (E1 : HciCmd.step st (HciCmd.Submit mem c) =
               HciCmd.settle (HciCmd.calls st) (Rejected RangeError)
                 {| HciCmd.onResult :=
                      Some {| HciCmd.call := HciCmd.calls st; HciCmd.cmd := c |};
                    HciCmd.timers := HciCmd.timers st ∪ {[HciCmd.calls st]};
                    HciCmd.promises := HciCmd.promises st;
                    HciCmd.calls := S (HciCmd.calls st);
                    HciCmd.sent := HciCmd.sent st |}).
  { simpl. unfold HciCmd.sendWaitResult. simpl. rewrite Hidle.
    now rewrite (buildCommand_throws mem c Hbad). }
  assert (Hinv1 : inv (HciCmd.step st (HciCmd.Submit mem c)))
    by (apply inv_step, inv_run).
  set (st1 := HciCmd.step st (HciCmd.Submit mem c)) in *.
  assert (Hp1 : HciCmd.promises st1 !! HciCmd.calls st = Some (Rejected RangeError))
    by (rewrite E1; now apply settle_fresh).
  assert (Hs1 : HciCmd.sent st1 = HciCmd.sent st) by (rewrite E1; now rewrite settle_sent).
  assert (Ho1 : HciCmd.onResult st1 =
                Some {| HciCmd.call := HciCmd.calls st; HciCmd.cmd := c |})
    by (rewrite E1; now rewrite settle_onResult).
  assert (Hc1 : HciCmd.calls st1 = S (HciCmd.calls st))
    by (rewrite E1; now rewrite settle_calls).
  assert (Hfresh1 : HciCmd.promises st1 !! S (HciCmd.calls st) = None).
  { destruct (HciCmd.promises st1 !! S (HciCmd.calls st)) eqn:E; [|reflexivity].
    assert (S (HciCmd.calls st) < HciCmd.calls st1)%nat
      by (apply (inv_made _ Hinv1); eauto). lia. }
  assert (E2 : HciCmd.step st1 (HciCmd.Submit mem' c') =
               HciCmd.settle (HciCmd.calls st1) (Rejected (makeParserError Busy))
                 {| HciCmd.onResult := HciCmd.onResult st1;
                    HciCmd.timers := HciCmd.timers st1;
                    HciCmd.promises := HciCmd.promises st1;
                    HciCmd.calls := S (HciCmd.calls st1);
                    HciCmd.sent := HciCmd.sent st1 |})
    by (apply (sendWaitResult_busy mem' c' st1 _ Ho1)).
  set (st2 := HciCmd.step st1 (HciCmd.Submit mem' c')) in *.
  assert (Ht2 : HciCmd.calls st ∈ HciCmd.timers st2).
  { rewrite E2, settle_timers. simpl.
    rewrite (inv_timers _ Hinv1), Ho1. simpl. now apply elem_of_singleton. }
  assert (Hp2 : HciCmd.promises st2 !! HciCmd.calls st = Some (Rejected RangeError)).
  { rewrite E2. now apply settle_keeps. }
  split; [exact Hp1|]. split; [exact Hs1|]. split; [exact Ho1|].
  split.
  { intros j [Hj Hnone]. destruct (inv_slot _ Hinv1 j (conj Hj Hnone)) as (q & Hq & Hjq).
    rewrite Ho1 in Hq. injection Hq as <-. simpl in Hjq. subst j. congruence. }
  split; [rewrite E2, Hc1; now apply settle_fresh; rewrite Hc1 in *|].
  split; [rewrite E2, settle_sent; exact Hs1|].
  simpl. unfold HciCmd.onTimeout. destruct (decide _) as [_|Hn]; [|contradiction].
  split; [apply complete_clears|].
  unfold HciCmd.complete. now apply settle_keeps.
Qed.

Lemma unbuildable_command_holds_slot_witness :
  let big := {| Command.opcode := 70000; Command.connHandle := None;
                Command.payload := None |} in
  let st := HciCmd.run [] in
  let id := HciCmd.calls st in
  let st1 := HciCmd.step st (HciCmd.Submit Scenario.mem big) in
  let st2 := HciCmd.step st1 (HciCmd.Submit Scenario.mem Scenario.reset) in
  let st3 := HciCmd.step st2 (HciCmd.Expire id) in
  HciCmd.promises st1 !! id = Some (Rejected RangeError) /\
  HciCmd.sent st1 = HciCmd.sent st /\
  HciCmd.onResult st1 = Some {| HciCmd.call := id; HciCmd.cmd := big |} /\
  (forall j, ~ HciCmd.outstanding st1 j) /\
  HciCmd.promises st2 !! S id = Some (Rejected (makeParserError Busy)) /\
  HciCmd.sent st2 = HciCmd.sent st /\
  HciCmd.onResult st3 = None /\
  HciCmd.promises st3 !! id = Some (Rejected RangeError).
Proof.
  apply (unbuildable_command_holds_slot [] Scenario.mem Scenario.mem
           {| Command.opcode := 70000; Command.connHandle := None;
              Command.payload := None |} Scenario.reset).
  - reflexivity.
  - simpl. lia.
Defined.

(** X6: when the timer of the pending call fires, the call is rejected with
    [Timeout] and the dispatcher is idle again: every result delivered after
    that, the late completion of the timed-out command included, is
    discarded without any effect, and the next command is accepted and
    written to the transport. *)
Theorem timeout_frees_slot
  (inputs : list HciCmd.input) (id : nat) (mem : nat -> Z) (c : Command.t) :
  HciCmd.outstanding (HciCmd.run inputs) id ->
  0 <= Command.opcode c <= 65535 ->
  (payloadLength (Command.payload c) <= 255)%nat ->
  let st := HciCmd.run inputs in
  let st1 := HciCmd.step st (HciCmd.Expire id) in
  let st2 := HciCmd.step st1 (HciCmd.Submit mem c) in
  HciCmd.promises st1 !! id = Some (Rejected (makeParserError Timeout)) /\
  HciCmd.onResult st1 = None /\
  (forall j, ~ HciCmd.outstanding st1 j) /\
  (forall evt, HciCmd.step st1 (HciCmd.Deliver evt) = st1) /\
  HciCmd.onResult st2 = Some {| HciCmd.call := HciCmd.calls st; HciCmd.cmd := c |} /\
  HciCmd.outstanding st2 (HciCmd.calls st) /\
  HciCmd.sent st2 =
  HciCmd.sent st ++ [(HciCommand, frame (Command.opcode c) (Command.payload c))].
Proof.
  intros Hout Hop Hlen. cbv zeta.
  pose proof (inv_run inputs) as Hinv.
  destruct (inv_slot _ Hinv id Hout) as (p & Hp & Hid).
  assert (Hin : id ∈ HciCmd.timers (HciCmd.run inputs)).
  { rewrite (inv_timers _ Hinv), Hp, Hid. now apply elem_of_singleton. }
  assert (E1 : HciCmd.step (HciCmd.run inputs) (HciCmd.Expire id) =
               HciCmd.complete id (Rejected (makeParserError Timeout)) (HciCmd.run inputs)).
  { simpl. unfold HciCmd.onTimeout. destruct (decide _); [reflexivity|contradiction]. }
  assert (Hinv1 : inv (HciCmd.step (HciCmd.run inputs) (HciCmd.Expire id)))
    by (apply inv_step, Hinv).
  destruct (complete_settles id (Rejected (makeParserError Timeout)) _ (proj2 Hout))
    as (Hs & Ho & _ & Hsent).
  rewrite <- E1 in Hs, Ho, Hsent.
  set (st1 := HciCmd.step (HciCmd.run inputs) (HciCmd.Expire id)) in *.
  assert (Hcalls : HciCmd.calls st1 = HciCmd.calls (HciCmd.run inputs)).
  { rewrite E1. unfold HciCmd.complete. now rewrite settle_calls. }
  assert (Hnone : forall j, ~ HciCmd.outstanding st1 j).
  { intros j Hj. destruct (inv_slot _ Hinv1 j Hj) as (q & Hq & _). congruence. }
  assert (Hfresh : HciCmd.promises st1 !! HciCmd.calls st1 = None).
  { destruct (HciCmd.promises st1 !! HciCmd.calls st1) eqn:E; [|reflexivity].
    assert (HciCmd.calls st1 < HciCmd.calls st1)%nat
      by (apply (inv_made _ Hinv1); eauto). lia. }
  split; [exact Hs|]. split; [exact Ho|]. split; [exact Hnone|].
  split.
  { intros evt. simpl. unfold HciCmd.onCmdResult. now rewrite Ho. }
  simpl. unfold HciCmd.sendWaitResult. simpl. rewrite Ho.
  rewrite buildCommand_frame by assumption. simpl.
  rewrite Hsent. rewrite Hcalls in *. split; [reflexivity|].
  split; [|reflexivity]. split; [simpl; lia|exact Hfresh].
Qed.

Lemma timeout_frees_slot_witness :
  let st := HciCmd.run Scenario.resetPending in
  let st1 := HciCmd.step st (HciCmd.Expire 0) in
  let st2 := HciCmd.step st1 (HciCmd.Submit Scenario.mem Scenario.readBdAddr) in
  HciCmd.promises st1 !! 0%nat = Some (Rejected (makeParserError Timeout)) /\
  HciCmd.onResult st1 = None /\
  (forall j, ~ HciCmd.outstanding st1 j) /\
  (forall evt, HciCmd.step st1 (HciCmd.Deliver evt) = st1) /\
  HciCmd.onResult st2 =
    Some {| HciCmd.call := HciCmd.calls st; HciCmd.cmd := Scenario.readBdAddr |} /\
  HciCmd.outstanding st2 (HciCmd.calls st) /\
  HciCmd.sent st2 =
  HciCmd.sent st ++
  [(HciCommand, frame (Command.opcode Scenario.readBdAddr)
                  (Command.payload Scenario.readBdAddr))].
Proof.
  apply (timeout_frees_slot Scenario.resetPending 0 Scenario.mem Scenario.readBdAddr).
  - split; [vm_compute; lia|reflexivity].
  - simpl. lia.
  - simpl. lia.
Defined.

(** ** [HciCmd]: the command groups *)

Lemma sendWaitResult_idle (mem : nat -> Z) (c : Command.t) (st : HciCmd.state) :
  HciCmd.onResult st = None ->
  0 <= Command.opcode c <= 65535 ->
  (payloadLength (Command.payload c) <= 255)%nat ->
  HciCmd.sendWaitResult mem c st =
  {| HciCmd.onResult := Some {| HciCmd.call := HciCmd.calls st; HciCmd.cmd := c |};
     HciCmd.timers := HciCmd.timers st ∪ {[HciCmd.calls st]};
     HciCmd.promises := HciCmd.promises st;
     HciCmd.calls := S (HciCmd.calls st);
     HciCmd.sent :=
       HciCmd.sent st ++ [(HciCommand, frame (Command.opcode c) (Command.payload c))] |}.
Proof.
  intros Hidle Hop Hlen. unfold HciCmd.sendWaitResult. simpl. rewrite Hidle.
  now rewrite buildCommand_frame by assumption.
Qed.

Lemma frame_of_group (g ocf : Z) (p : option Buffer.t) :
  0 <= g < 64 -> 0 <= ocf <= 1023 ->
  frame (g * 1024 + ocf) p =
  [ocf mod 256; 4 * g + ocf / 256; Z.of_nat (payloadLength p)] ++
  match p with Some b => b | None => [] end.
Proof.
  intros Hg Hocf. unfold frame. simpl. f_equal; [|f_equal].
  - replace (g * 1024 + ocf) with (ocf + (g * 4) * 256) by lia.
    now rewrite Z.mod_add by lia.
  - replace (g * 1024 + ocf) with (ocf + (g * 4) * 256) by lia.
    rewrite Z.div_add by lia.
    assert (0 <= ocf / 256 < 4).
    { split; [apply Z.div_pos; lia|]. apply Z.div_lt_upper_bound; lia. }
    rewrite Z.mod_small by lia. lia.
Qed.

(** X7: on an idle dispatcher each command group writes one packet whose
    first two bytes carry the group and the command: the low byte of the
    OCF, then four times the OGF plus the two high bits of the OCF (0x0C for
    Controller and Baseband, 0x10 for Information Parameters, 0x14 for
    Status Parameters, 0x20 for LE), followed by the length byte and the
    payload; the opcode the closure then waits for is [1024 * ogf + ocf]. *)
Theorem command_group_packets
  (inputs : list HciCmd.input) (mem : nat -> Z) (ocf : Z) (connHandle : option Z)
  (payload : option Buffer.t) :
  HciCmd.onResult (HciCmd.run inputs) = None ->
  0 <= ocf <= 1023 ->
  (payloadLength payload <= 255)%nat ->
  let st := HciCmd.run inputs in
  let rest := Z.of_nat (payloadLength payload) ::
              match payload with Some b => b | None => [] end in
  let waits st' op :=
    HciCmd.onResult st' =
    Some {| HciCmd.call := HciCmd.calls st;
            HciCmd.cmd := {| Command.opcode := op; Command.connHandle := connHandle;
                             Command.payload := payload |} |} in
  let wrote st' hi :=
    HciCmd.sent st' = HciCmd.sent st ++ [(HciCommand, ocf mod 256 :: hi :: rest)] in
  (wrote (HciCmdGroups.controlAndBaseband mem ocf connHandle payload st) (12 + ocf / 256) /\
   waits (HciCmdGroups.controlAndBaseband mem ocf connHandle payload st) (3072 + ocf)) /\
  (wrote (HciCmdGroups.informationParameters mem ocf connHandle payload st) (16 + ocf / 256) /\
   waits (HciCmdGroups.informationParameters mem ocf connHandle payload st) (4096 + ocf)) /\
  (wrote (HciCmdGroups.statusParameters mem ocf connHandle payload st) (20 + ocf / 256) /\
   waits (HciCmdGroups.statusParameters mem ocf connHandle payload st) (5120 + ocf)) /\
  (wrote (HciCmdGroups.lowEnergy mem ocf connHandle payload st) (32 + ocf / 256) /\
   waits (HciCmdGroups.lowEnergy mem ocf connHandle payload st) (8192 + ocf)).
Proof.
  intros Hidle Hocf Hlen. cbv zeta.
  assert (Hgroup : forall g : HciOgf,
    let c := {| Command.opcode :=
                  HciOpcode.build {| HciOpcode.ogf := ordinal g; HciOpcode.ocf := ocf |};
                Command.payload := payload; Command.connHandle := connHandle |} in
    HciCmd.sent (HciCmd.sendWaitResult mem c (HciCmd.run inputs)) =
    HciCmd.sent (HciCmd.run inputs) ++
    [(HciCommand, ocf mod 256 :: 4 * ordinal g + ocf / 256 ::
                  Z.of_nat (payloadLength payload) ::
                  match payload with Some b => b | None => [] end)] /\
    HciCmd.onResult (HciCmd.sendWaitResult mem c (HciCmd.run inputs)) =
    Some {| HciCmd.call := HciCmd.calls (HciCmd.run inputs);
            HciCmd.cmd := {| Command.opcode := ordinal g * 1024 + ocf;
                             Command.connHandle := connHandle;
                             Command.payload := payload |} |}).
  { intros g c.
    assert (Hg : 0 <= ordinal g < 64) by (destruct g; cbn; lia).
    assert (Hop : Command.opcode c = ordinal g * 1024 + ocf)
      by (apply build_value; assumption).
    rewrite sendWaitResult_idle; [|exact Hidle|rewrite Hop; lia|exact Hlen].
    simpl HciCmd.sent. simpl HciCmd.onResult. unfold c in *. simpl in Hop.
    simpl Command.opcode. simpl Command.payload. rewrite Hop.
    rewrite frame_of_group by assumption. split; reflexivity. }
  unfold HciCmdGroups.controlAndBaseband, HciCmdGroups.informationParameters,
    HciCmdGroups.statusParameters, HciCmdGroups.lowEnergy.
  repeat split;
    first [ apply (proj1 (Hgroup ControlAndBasebandCommands))
          | apply (proj2 (Hgroup ControlAndBasebandCommands))
          | apply (proj1 (Hgroup InformationParameters))
          | apply (proj2 (Hgroup InformationParameters))
          | apply (proj1 (Hgroup StatusParameters))
          | apply (proj2 (Hgroup StatusParameters))
          | apply (proj1 (Hgroup LeControllerCommands))
          | apply (proj2 (Hgroup LeControllerCommands)) ].
Qed.

Lemma command_group_packets_witness :
  HciCmd.sent (HciCmdGroups.lowEnergy Scenario.mem 65 None (Some [0; 1; 5])
                 (HciCmd.run [])) =
  [(HciCommand, [65; 32; 3; 0; 1; 5])] /\
  HciCmd.sent (HciCmdGroups.controlAndBaseband Scenario.mem 3 None None
                 (HciCmd.run [])) =
  [(HciCommand, [3; 12; 0])].
Proof.
  destruct (command_group_packets [] Scenario.mem 65 None (Some [0; 1; 5]))
    as (_ & _ & _ & Hle & _); [reflexivity|lia|simpl; lia|].
  destruct (command_group_packets [] Scenario.mem 3 None None)
    as ((Hcb & _) & _); [reflexivity|lia|simpl; lia|].
  split; [exact Hle|exact Hcb].
Defined.

(** ** The event router *)

Section RouterProperties.

Variable getHciErrorMessage : Z -> string.
Context {leEventData : Type}.
Variables LeConnectionComplete_parse LeConnectionUpdateComplete_parse
          LeReadRemoteFeaturesComplete_parse LeEnhConnectionComplete_parse
  : Buffer.t -> result (Z * leEventData).
Variables LeAdvReport_parse LeExtAdvReport_parse
  : Buffer.t -> result (list leEventData).

Local Abbreviation onHciEvent :=
  (HciEvents.onHciEvent getHciErrorMessage
     LeConnectionComplete_parse LeConnectionUpdateComplete_parse
     LeReadRemoteFeaturesComplete_parse LeEnhConnectionComplete_parse
     LeAdvReport_parse LeExtAdvReport_parse).
Local Abbreviation onData :=
  (HciEvents.onData getHciErrorMessage
     LeConnectionComplete_parse LeConnectionUpdateComplete_parse
     LeReadRemoteFeaturesComplete_parse LeEnhConnectionComplete_parse
     LeAdvReport_parse LeExtAdvReport_parse).
Local Abbreviation onLeEvent :=
  (HciEvents.onLeEvent
     LeConnectionComplete_parse LeConnectionUpdateComplete_parse
     LeReadRemoteFeaturesComplete_parse LeEnhConnectionComplete_parse
     LeAdvReport_parse LeExtAdvReport_parse).
Local Abbreviation state := (@HciEvents.state leEventData).

(** An event packet whose length byte is right gets to the handler of its
    event code. *)
Lemma onHciEvent_framed (code : Z) (payload : Buffer.t) (st : state) :
  onHciEvent (code :: Z.of_nat (length payload) :: payload) st =
  if code =? 5 then HciEvents.onDisconnectionComplete getHciErrorMessage payload st
  else if code =? 8 then HciEvents.onEncryptionChange payload st
  else if code =? 14 then HciEvents.onCommandComplete payload st
  else if code =? 15 then HciEvents.onCommandStatus payload st
  else if code =? 19 then HciEvents.onNumberOfCompletedPackets payload st
  else if code =? 62 then onLeEvent payload st
  else Ok st.
Proof.
  unfold HciEvents.onHciEvent.
  change (length (code :: Z.of_nat (length payload) :: payload) <? 2)%nat with false.
  cbn [BufferRead.at_ BufferRead.slice nth skipn]. rewrite Z.eqb_refl. reflexivity.
Qed.

(** A Command Complete event is handed to the dispatcher field by field. *)
Lemma command_complete_decoded (n lo hi status : Z) (rp : Buffer.t) (st : state) :
  onData HciEvent (14 :: Z.of_nat (length (n :: lo :: hi :: status :: rp))
                      :: n :: lo :: hi :: status :: rp) st =
  {| HciEvents.cmd :=
       HciCmd.onCmdResult
         {| HciCmdResult.numHciPackets := n;
            HciCmdResult.opcode := lo + 256 * hi;
            HciCmdResult.status := status;
            HciCmdResult.returnParameters := Some rp |} (HciEvents.cmd st);
     HciEvents.emitted := HciEvents.emitted st |}.
Proof.
  unfold HciEvents.onData. rewrite onHciEvent_framed. reflexivity.
Qed.

(** A Command Status event is handed on without return parameters. *)
Lemma command_status_decoded (status n lo hi : Z) (rest : Buffer.t) (st : state) :
  onData HciEvent (15 :: Z.of_nat (length (status :: n :: lo :: hi :: rest))
                      :: status :: n :: lo :: hi :: rest) st =
  {| HciEvents.cmd :=
       HciCmd.onCmdResult
         {| HciCmdResult.numHciPackets := n;
            HciCmdResult.opcode := lo + 256 * hi;
            HciCmdResult.status := status;
            HciCmdResult.returnParameters := None |} (HciEvents.cmd st);
     HciEvents.emitted := HciEvents.emitted st |}.
Proof.
  unfold HciEvents.onData. rewrite onHciEvent_framed. reflexivity.
Qed.

(** X8: a Command Complete packet [0x0E, len, n, opcode low, opcode high,
    status, return parameters...] whose length byte is right and that
    answers the pending command (same opcode and, if a handle was
    registered, that handle first in the return parameters) settles the
    command: status 0 resolves it with the decoded fields, the return
    parameters being the bytes after the status; another status rejects it
    with the controller error of that status.  The slot is freed and no
    subscriber is notified. *)
Theorem command_complete_packet_settles
  (st : state) (p : HciCmd.closure) (n lo hi status : Z) (rp : Buffer.t) :
  HciCmd.onResult (HciEvents.cmd st) = Some p ->
  HciCmd.promises (HciEvents.cmd st) !! HciCmd.call p = None ->
  Command.opcode (HciCmd.cmd p) = lo + 256 * hi ->
  match Command.connHandle (HciCmd.cmd p) with
  | None => True
  | Some connHandle =>
      exists h0 h1 rest, rp = h0 :: h1 :: rest /\ connHandle = h0 + 256 * h1
  end ->
  let st' :=
    onData HciEvent
      (14 :: 4 + Z.of_nat (length rp) :: n :: lo :: hi :: status :: rp) st in
  HciCmd.promises (HciEvents.cmd st') !! HciCmd.call p =
    Some (if status =? 0
          then Resolved {| HciCmdResult.numHciPackets := n;
                           HciCmdResult.opcode := lo + 256 * hi;
                           HciCmdResult.status := status;
                           HciCmdResult.returnParameters := Some rp |}
          else Rejected (makeHciError status)) /\
  HciCmd.onResult (HciEvents.cmd st') = None /\
  (HciCmd.call p ∉ HciCmd.timers (HciEvents.cmd st')) /\
  HciEvents.emitted st' = HciEvents.emitted st.
Proof.
  intros Hp Hnone Hop Hh. cbv zeta.
  replace (4 + Z.of_nat (length rp))
    with (Z.of_nat (length (n :: lo :: hi :: status :: rp)))
    by (cbn [length]; lia).
  rewrite command_complete_decoded. cbn [HciEvents.cmd HciEvents.emitted].
  set (evt := {| HciCmdResult.numHciPackets := n |}).
  assert (Hans : HciCmd.answers (HciCmd.cmd p) evt).
  { split; [exact Hop|].
    destruct (Command.connHandle (HciCmd.cmd p)) as [h|]; [|exact I].
    destruct Hh as (h0 & h1 & rest & -> & ->).
    exists (h0 :: h1 :: rest). split; reflexivity. }
  destruct (answered _ _ _ Hp Hnone Hans) as (Hslot & Htimer & Hok & Hko).
  repeat split; try assumption.
  destruct (Z.eqb_spec status 0) as [E|E].
  - now apply Hok.
  - now apply Hko.
Qed.

(** X9: a Command Status packet [0x0F, len, status, n, opcode low, opcode
    high] never settles a command that registered a connection handle,
    whatever its opcode and status: the state stays as it was.  A pending
    command without a handle is settled by it when the opcode is its own,
    status 0 resolving it with no return parameters at all. *)
Theorem command_status_packet
  (st : state) (p : HciCmd.closure) (status n lo hi : Z) :
  HciCmd.onResult (HciEvents.cmd st) = Some p ->
  HciCmd.promises (HciEvents.cmd st) !! HciCmd.call p = None ->
  let st' := onData HciEvent [15; 4; status; n; lo; hi] st in
  match Command.connHandle (HciCmd.cmd p) with
  | Some _ => st' = st
  | None =>
      (Command.opcode (HciCmd.cmd p) <> lo + 256 * hi -> st' = st) /\
      (Command.opcode (HciCmd.cmd p) = lo + 256 * hi ->
       HciCmd.promises (HciEvents.cmd st') !! HciCmd.call p =
         Some (if status =? 0
               then Resolved {| HciCmdResult.numHciPackets := n;
                                HciCmdResult.opcode := lo + 256 * hi;
                                HciCmdResult.status := status;
                                HciCmdResult.returnParameters := None |}
               else Rejected (makeHciError status)) /\
       HciCmd.onResult (HciEvents.cmd st') = None /\
       HciEvents.emitted st' = HciEvents.emitted st)
  end.
Proof.
  intros Hp Hnone st'. subst st'.
  change 4 with (Z.of_nat (length [status; n; lo; hi])).
  rewrite command_status_decoded.
  set (evt := {| HciCmdResult.numHciPackets := n |}).
  destruct st as [c em]. cbn [HciEvents.cmd HciEvents.emitted] in *.
  destruct (Command.connHandle (HciCmd.cmd p)) as [h|] eqn:Hh.
  - f_equal. unfold HciCmd.onCmdResult, HciCmd.handler. rewrite Hp, Hh.
    subst evt; cbn [HciCmdResult.returnParameters HciCmdResult.opcode].
    now destruct (negb _).
  - split.
    + intros Hne. f_equal. unfold HciCmd.onCmdResult, HciCmd.handler. rewrite Hp.
      subst evt; cbn [HciCmdResult.opcode].
      destruct (Z.eqb_spec (Command.opcode (HciCmd.cmd p)) (lo + 256 * hi));
        [contradiction|reflexivity].
    + intros Hop.
      assert (Hans : HciCmd.answers (HciCmd.cmd p) evt).
      { split; [exact Hop|]. now rewrite Hh. }
      destruct (answered _ _ _ Hp Hnone Hans) as (Hslot & Htimer & Hok & Hko).
      repeat split; try assumption.
      destruct (Z.eqb_spec status 0) as [E|E].
      * now apply Hok.
      * now apply Hko.
Qed.




Lemma only_notifies_trans (st1 st2 st3 : state) :
  only_notifies st1 st2 -> only_notifies st2 st3 -> only_notifies st1 st3.
Proof.
  intros [H1 [m1 E1]] [H2 [m2 E2]]. split; [congruence|].
  exists (m1 ++ m2). now rewrite E2, E1, app_assoc.
Qed.

Lemma emit_reports (label : string) (reports : list leEventData) (st : state) :
  fold_left (fun st report =>
               HciEvents.emit (HciEvents.Emit label (HciEvents.LeEvent report)) st)
    reports st =
  {| HciEvents.cmd := HciEvents.cmd st;
     HciEvents.emitted :=
       HciEvents.emitted st ++
       map (fun report => HciEvents.Emit label (HciEvents.LeEvent report)) reports |}.
Proof.
  revert st. induction reports as [|r reports IH]; intros st; simpl.
  - rewrite app_nil_r. now destruct st.
  - rewrite IH. unfold HciEvents.emit. simpl. now rewrite <- app_assoc.
Qed.






(** X11: an Encryption Change or Disconnection Complete packet whose length
    byte is right notifies the subscribers once, from the first four bytes
    of its payload [status, handle low, handle high, x]: with no error when
    the status is 0 and with the controller error of the status otherwise;
    bytes after the fourth are ignored.  With fewer than four bytes nobody
    is notified and nothing is thrown.  A Channel Selection Algorithm
    sub-event does the same from its first three bytes, without a status. *)
Theorem status_event_packets (payload : Buffer.t) (st : state) :
  onData HciEvent (8 :: Z.of_nat (length payload) :: payload) st =
    match payload with
    | status :: h0 :: h1 :: encEnabled :: _ =>
        HciEvents.emit
          (HciEvents.EmitStatus "EncryptionChange"
             (if status =? 0 then None else Some (makeHciError status))
             (HciEvents.EncryptionChangeEvent (h0 + 256 * h1) encEnabled)) st
    | _ => st
    end /\
  onData HciEvent (5 :: Z.of_nat (length payload) :: payload) st =
    match payload with
    | status :: h0 :: h1 :: reasonCode :: _ =>
        HciEvents.emit
          (HciEvents.EmitStatus "DisconnectionComplete"
             (if status =? 0 then None else Some (makeHciError status))
             (HciEvents.DisconnectionCompleteEvent (h0 + 256 * h1) reasonCode
                (getHciErrorMessage reasonCode))) st
    | _ => st
    end /\
  onData HciEvent (62 :: Z.of_nat (length (20 :: payload)) :: 20 :: payload) st =
    match payload with
    | h0 :: h1 :: algorithm :: _ =>
        HciEvents.emit
          (HciEvents.Emit "LeChannelSelectionAlgorithm"
             (HciEvents.LeChannelSelAlgoEvent (h0 + 256 * h1) algorithm)) st
    | _ => st
    end.
Proof.
  unfold HciEvents.onData. rewrite !onHciEvent_framed.
  cbn [Z.eqb Pos.eqb].
  unfold HciEvents.onEncryptionChange, HciEvents.onDisconnectionComplete,
    HciEvents.onLeEvent, HciEvents.onLeChannelSelectionAlgorithm,
    HciEvents.emitEvent, BufferRead.readUIntLE.
  destruct payload as [|a [|b [|c [|d rest]]]]; try (repeat split; reflexivity).
  - cbn. rewrite ?Z.mul_0_r, ?Z.add_0_r. repeat split; reflexivity.
  - cbn. rewrite ?Z.mul_0_r, ?Z.add_0_r. unfold Success.
    repeat split; destruct (a =? 0); reflexivity.
Qed.

(** X12: an LE Advertising Report sub-event (0x02), or an Extended
    Advertising Report (0x0D), hands the bytes after the sub-event code to
    its decoder and notifies the subscribers once per decoded report, in
    the decoder's order and after the notifications emitted before; the
    dispatcher is not touched. *)
Theorem advertising_reports_fan_out
  (payload extPayload : Buffer.t) (reports extReports : list leEventData)
  (st : state) :
  LeAdvReport_parse payload = Ok reports ->
  LeExtAdvReport_parse extPayload = Ok extReports ->
  onData HciEvent (62 :: Z.of_nat (length (2 :: payload)) :: 2 :: payload) st =
  {| HciEvents.cmd := HciEvents.cmd st;
     HciEvents.emitted :=
       HciEvents.emitted st ++
       map (fun report =>
              HciEvents.Emit "LeAdvertisingReport" (HciEvents.LeEvent report))
         reports |} /\
  onData HciEvent
    (62 :: Z.of_nat (length (13 :: extPayload)) :: 13 :: extPayload) st =
  {| HciEvents.cmd := HciEvents.cmd st;
     HciEvents.emitted :=
       HciEvents.emitted st ++
       map (fun report =>
              HciEvents.Emit "LeExtendedAdvertisingReport" (HciEvents.LeEvent report))
         extReports |}.
Proof.
  intros Hadv Hext.
  unfold HciEvents.onData. rewrite !onHciEvent_framed.
  cbn [Z.eqb Pos.eqb]. unfold HciEvents.onLeEvent.
  cbn [Z.eqb Pos.eqb ordinal HciLeEventCode_enum]. unfold HciEvents.onLeReports.
  rewrite Hadv, Hext. simpl. now rewrite !emit_reports.
Qed.

End RouterProperties.

Lemma command_complete_packet_settles_witness :
  HciCmd.promises
    (HciEvents.cmd
       (RouterScenario.onData HciEvent
          [14; 11; 1; 21; 32; 0; 10; 0; 255; 255; 255; 255; 31]
          RouterScenario.channelMapPending)) !! 0%nat =
  Some (Resolved (Scenario.channelMapOf 10)).
Proof.
  refine (proj1 (command_complete_packet_settles (fun _ => EmptyString)
                   RouterScenario.refuse RouterScenario.refuse
                   RouterScenario.refuse RouterScenario.refuse
                   RouterScenario.perByte RouterScenario.perByte
                   RouterScenario.channelMapPending RouterScenario.pending
                   1 21 32 0 [10; 0; 255; 255; 255; 255; 31] _ _ _ _)).
  - reflexivity.
  - reflexivity.
  - reflexivity.
  - exists 10, 0, [255; 255; 255; 255; 31]. split; reflexivity.
Defined.

Lemma command_status_packet_witness :
  RouterScenario.onData HciEvent [15; 4; 12; 1; 21; 32]
    RouterScenario.channelMapPending =
  RouterScenario.channelMapPending.
Proof.
  refine (command_status_packet (fun _ => EmptyString)
            RouterScenario.refuse RouterScenario.refuse
            RouterScenario.refuse RouterScenario.refuse
            RouterScenario.perByte RouterScenario.perByte
            RouterScenario.channelMapPending RouterScenario.pending
            12 1 21 32 _ _).
  - reflexivity.
  - reflexivity.
Defined.

Lemma advertising_reports_fan_out_witness :
  HciEvents.emitted
    (RouterScenario.onData HciEvent [62; 4; 2; 7; 8; 9]
       RouterScenario.channelMapPending) =
  [HciEvents.Emit "LeAdvertisingReport" (HciEvents.LeEvent 7);
   HciEvents.Emit "LeAdvertisingReport" (HciEvents.LeEvent 8);
   HciEvents.Emit "LeAdvertisingReport" (HciEvents.LeEvent 9)] /\
  HciEvents.emitted
    (RouterScenario.onData HciEvent [62; 1; 13]
       RouterScenario.channelMapPending) = [].
Proof.
  destruct (advertising_reports_fan_out (fun _ => EmptyString)
              RouterScenario.refuse RouterScenario.refuse
              RouterScenario.refuse RouterScenario.refuse
              RouterScenario.perByte RouterScenario.perByte
              [7; 8; 9] [] [7; 8; 9] [] RouterScenario.channelMapPending
              eq_refl eq_refl) as [Hadv Hext].
  split.
  - exact (f_equal HciEvents.emitted Hadv).
  - exact (f_equal HciEvents.emitted Hext).
Defined.

(** ** ACL data *)

Lemma lor_shift (k lo hi : Z) :
  0 <= k -> 0 <= lo < 2 ^ k -> 0 <= hi -> Z.lor lo (hi * 2 ^ k) = lo + hi * 2 ^ k.
Proof.
  intros Hk Hlo Hhi.
  assert (Hland : Z.land lo (hi * 2 ^ k) = 0).
  { apply Z.bits_inj'. intros n Hn. rewrite Z.land_spec, Z.bits_0.
    destruct (Z.lt_ge_cases n k) as [Hlt|Hge].
    - rewrite Z.mul_pow2_bits_low by lia. apply andb_false_r.
    - destruct (Z.eq_dec lo 0) as [->|Hnz]; [now rewrite Z.bits_0|].
      rewrite Z.bits_above_log2; [reflexivity|lia|].
      apply Z.lt_le_trans with k; [|exact Hge].
      apply Z.log2_lt_pow2; lia. }
  rewrite <- Z.lxor_lor by exact Hland.
  symmetry. apply Z.add_nocarry_lxor. exact Hland.
Qed.

Lemma shl_small (v k : Z) :
  0 <= k < 31 -> 0 <= v -> v * 2 ^ k < 2 ^ 31 -> JS.shl v k = v * 2 ^ k.
Proof.
  intros Hk Hv Hfit. unfold JS.shl.
  rewrite (Z.mod_small k 32) by lia.
  assert (v <= v * 2 ^ k) by nia.
  rewrite (ToInt32_small v) by lia.
  rewrite Z.shiftl_mul_pow2 by lia.
  apply ToInt32_small. lia.
Qed.

Lemma acl_header (handle : Z) (boundary : AclDataBoundary) (broadcast : AclDataBroadcast) :
  0 <= handle < 4096 ->
  JS.bor (JS.bor (JS.shl handle 0) (JS.shl (ordinal boundary) 12))
         (JS.shl (ordinal broadcast) 14) =
  handle + 4096 * ordinal boundary + 16384 * ordinal broadcast.
Proof.
  intros Hh.
  assert (Hb : 0 <= ordinal boundary <= 3) by (destruct boundary; cbn; lia).
  assert (Hc : 0 <= ordinal broadcast <= 1) by (destruct broadcast; cbn; lia).
  rewrite !shl_small by lia.
  change (2 ^ 0) with 1. rewrite Z.mul_1_r.
  unfold JS.bor.
  rewrite (ToInt32_small handle), (ToInt32_small (_ * 2 ^ 12)) by lia.
  rewrite (lor_shift 12) by lia.
  rewrite !ToInt32_small by lia.
  rewrite (lor_shift 14) by lia. lia.
Qed.

(** X13: for a connection handle of 12 bits, [sendAclData] hands over the
    packet made of the 16-bit little-endian header
    [handle + 4096 * boundary + 16384 * broadcast], the 16-bit little-endian
    length of the data, and the data, when the data has at most 65535
    bytes; with more it throws a range error and hands over nothing. *)
Theorem acl_packet_layout
  (mem : nat -> Z) (handle : Z) (boundary : AclDataBoundary)
  (broadcast : AclDataBroadcast) (data : Buffer.t) :
  0 <= handle < 4096 ->
  sendAclData mem handle boundary broadcast data =
  if Z.of_nat (length data) <=? 65535
  then Ok (Buffer.le_bytes 2
             (handle + 4096 * ordinal boundary + 16384 * ordinal broadcast) ++
           Buffer.le_bytes 2 (Z.of_nat (length data)) ++ data)
  else Throw RangeError.
Proof.
  intros Hh. unfold sendAclData. cbv zeta. rewrite acl_header by exact Hh.
  assert (Hb : 0 <= ordinal boundary <= 3) by (destruct boundary; cbn; lia).
  assert (Hc : 0 <= ordinal broadcast <= 1) by (destruct broadcast; cbn; lia).
  set (hdr := handle + 4096 * ordinal boundary + 16384 * ordinal broadcast).
  assert (Hhdr : 0 <= hdr <= 65535) by (unfold hdr; lia).
  assert (Hsplit : exists a b c d rest,
            Buffer.allocUnsafe mem (4 + length data) = a :: b :: c :: d :: rest /\
            length rest = length data).
  { pose proof (allocUnsafe_length mem (4 + length data)) as L.
    destruct (Buffer.allocUnsafe mem (4 + length data)) as [|a [|b [|c [|d rest]]]];
      simpl in L; try lia.
    exists a, b, c, d, rest. split; [reflexivity|lia]. }
  destruct Hsplit as (a & b & c & d & rest & -> & Hrest).
  unfold Buffer.writeUInt16LE.
  rewrite writeUIntLE_ok;
    [poked|change (2 ^ (8 * Z.of_nat 2)) with 65536; lia|cbn [length]; lia].
  destruct (Z.leb_spec (Z.of_nat (length data)) 65535) as [Hlen|Hlen].
  - rewrite writeUIntLE_ok;
      [poked|change (2 ^ (8 * Z.of_nat 2)) with 65536; lia|cbn [length]; lia].
    f_equal. exact (copy_after [_; _; _; _] rest data Hrest).
  - rewrite writeUIntLE_throws; [reflexivity|].
    change (2 ^ (8 * Z.of_nat 2)) with 65536. lia.
Qed.

Lemma acl_packet_layout_witness :
  sendAclData Scenario.mem 10 FirstFrag PointToPoint [1; 2; 3] =
  Ok [10; 32; 3; 0; 1; 2; 3].
Proof.
  exact (acl_packet_layout Scenario.mem 10 FirstFrag PointToPoint [1; 2; 3]
           ltac:(lia)).
Defined.

(** ** Supported LE states *)

Lemma land_bit (m : Z) (b : nat) :
  negb (Z.land m (Z.shiftl 1 (Z.of_nat b)) =? 0) = Z.testbit m (Z.of_nat b).
Proof.
  rewrite Z.shiftl_1_l.
  destruct (Z.testbit m (Z.of_nat b)) eqn:Hbit.
  - destruct (Z.eqb_spec (Z.land m (2 ^ Z.of_nat b)) 0) as [E|_]; [|reflexivity].
    assert (Z.testbit (Z.land m (2 ^ Z.of_nat b)) (Z.of_nat b) = false)
      by (rewrite E; apply Z.bits_0).
    rewrite Z.land_spec, Hbit, Z.pow2_bits_true in H by lia. discriminate.
  - assert (E : Z.land m (2 ^ Z.of_nat b) = 0).
    { apply Z.bits_inj'. intros n Hn. rewrite Z.land_spec, Z.bits_0.
      rewrite Z.pow2_bits_eqb by lia.
      destruct (Z.eqb_spec (Z.of_nat b) n) as [<-|_];
        [now rewrite Hbit|apply andb_false_r]. }
    now rewrite E.
Qed.

Lemma fromBitmask_fold (m : Z) (bits : list nat) (acc : LeSupportedStates.t) :
  fold_left (LeSupportedStates.pushIfSet m) bits acc =
  acc ++ map (fun b => nth b LeAllowedStates [])
             (List.filter (fun b => Z.testbit m (Z.of_nat b)) bits).
Proof.
  revert acc. induction bits as [|b bits IH]; intros acc; simpl.
  - now rewrite app_nil_r.
  - rewrite IH. unfold LeSupportedStates.pushIfSet. rewrite land_bit.
    destruct (Z.testbit m (Z.of_nat b)); simpl; [now rewrite <- app_assoc|reflexivity].
Qed.

Lemma LeAllowedStates_NoDup : List.NoDup LeAllowedStates.
Proof.
  apply NoDup_ListNoDup. apply (bool_decide_unpack _). vm_compute. reflexivity.
Qed.

Lemma fromBitmask_bit (m : Z) (b : nat) :
  (b < 42)%nat ->
  In (nth b LeAllowedStates []) (LeSupportedStates.fromBitmask m) <->
  Z.testbit m (Z.of_nat b) = true.
Proof.
  intros Hb. unfold LeSupportedStates.fromBitmask. rewrite fromBitmask_fold, app_nil_l.
  rewrite in_map_iff. split.
  - intros (b' & Heq & Hin). apply List.filter_In in Hin as [Hin Hbit].
    apply in_seq in Hin.
    assert (b' = b); [|now subst].
    apply (proj1 (NoDup_nth LeAllowedStates []) LeAllowedStates_NoDup);
      [simpl; lia|simpl; lia|exact Heq].
  - intros Hbit. exists b. split; [reflexivity|].
    apply List.filter_In. split; [apply in_seq; lia|exact Hbit].
Qed.

(** X14: [fromBitmask] lists, in the order of the table [LeAllowedStates],
    the entries whose bit is set in the mask, for the bits 0 to 41: entry
    [b] of the table is in the result exactly when bit [b] of the mask is
    set, and nothing else is. *)
Theorem supported_states_follow_bits (bitmask : Z) :
  LeSupportedStates.fromBitmask bitmask =
    map (fun b => nth b LeAllowedStates [])
      (List.filter (fun b => Z.testbit bitmask (Z.of_nat b)) (seq 0 42)) /\
  (forall b, (b < 42)%nat ->
     In (nth b LeAllowedStates []) (LeSupportedStates.fromBitmask bitmask) <->
     Z.testbit bitmask (Z.of_nat b) = true) /\
  (forall states, In states (LeSupportedStates.fromBitmask bitmask) ->
     In states LeAllowedStates).
Proof.
  split; [|split].
  - unfold LeSupportedStates.fromBitmask. now rewrite fromBitmask_fold.
  - intros b Hb. now apply fromBitmask_bit.
  - intros states. unfold LeSupportedStates.fromBitmask. rewrite fromBitmask_fold, app_nil_l.
    rewrite in_map_iff. intros (b & <- & Hin).
    apply List.filter_In in Hin as [Hin _]. apply in_seq in Hin.
    apply nth_In. simpl. lia.
Qed.

(** X15: two masks give the same supported states exactly when they agree
    on their 42 low bits: the bits from 42 up are ignored, and no two
    different combinations of the low bits are confused. *)
Theorem supported_states_determine_low_bits (bitmask bitmask' : Z) :
  LeSupportedStates.fromBitmask bitmask = LeSupportedStates.fromBitmask bitmask' <->
  bitmask mod 2 ^ 42 = bitmask' mod 2 ^ 42.
Proof.
  split.
  - intros Heq. apply Z.bits_inj'. intros n Hn.
    destruct (Z.lt_ge_cases n 42) as [Hlt|Hge].
    + rewrite !Z.mod_pow2_bits_low by lia.
      pose proof (fromBitmask_bit bitmask (Z.to_nat n) ltac:(lia)) as H1.
      pose proof (fromBitmask_bit bitmask' (Z.to_nat n) ltac:(lia)) as H2.
      rewrite Heq in H1. rewrite Z2Nat.id in H1, H2 by lia.
      destruct (Z.testbit bitmask n), (Z.testbit bitmask' n); try reflexivity.
      * symmetry. apply H2, H1. reflexivity.
      * apply H1, H2. reflexivity.
    + rewrite !Z.mod_pow2_bits_high by lia. reflexivity.
  - intros Heq. unfold LeSupportedStates.fromBitmask. rewrite !fromBitmask_fold.
    f_equal. f_equal. apply List.filter_ext_in. intros b Hb. apply in_seq in Hb.
    rewrite <- (Z.mod_pow2_bits_low bitmask 42), <- (Z.mod_pow2_bits_low bitmask' 42)
      by lia.
    now rewrite Heq.
Qed.

(** X16: [toString] keeps the shape of the list and loses nothing: every
    state gets a name of [LeStateNames], different states get different
    names, so two lists of combinations with the same names are the same. *)
Theorem supported_states_names (states states' : LeSupportedStates.t) :
  map (@length _) (LeSupportedStates.toString states) = map (@length _) states /\
  Forall (Forall (fun name => In name LeStateNames)) (LeSupportedStates.toString states) /\
  (LeSupportedStates.toString states = LeSupportedStates.toString states' <->
   states = states').
Proof.
  unfold LeSupportedStates.toString.
  set (name := fun e : LeState => nth (Z.to_nat (ordinal e)) LeStateNames EmptyString).
  assert (Hinj : forall a b, name a = name b -> a = b).
  { intros a b. destruct a, b; intros H; try reflexivity; vm_compute in H;
      discriminate H. }
  assert (Hinj1 : forall l l' : list LeState, map name l = map name l' -> l = l').
  { induction l as [|a l IH]; destruct l' as [|b l']; simpl; intros H;
      try discriminate; [reflexivity|].
    injection H as Ha Hl. f_equal; [now apply Hinj|now apply IH]. }
  split; [|split].
  - rewrite map_map. apply map_ext. intros l. apply length_map.
  - apply List.Forall_forall. intros names Hin.
    apply in_map_iff in Hin as (l & <- & _).
    apply List.Forall_forall. intros n Hn. apply in_map_iff in Hn as (e & <- & _).
    destruct e; vm_compute; tauto.
  - split; [|now intros ->].
    revert states'. induction states as [|l ls IH]; destruct states' as [|l' ls'];
      simpl; intros H; try discriminate; [reflexivity|].
    injection H as Hl Hls. f_equal; [now apply Hinj1|now apply IH].
Qed.

(** ** Parameters and return parameters of the stand-alone [Hci] class *)

Tactic Notation "length_guard" integer(size) :=
  intros rp; split;
  [ intros Hlt;
    match goal with |- context [(length rp <? ?k)%nat] =>
      destruct (Nat.ltb_spec (length rp) k) as [_|Hge];
        [reflexivity|exfalso; revert Hlt Hge; cbn; lia]
    end
  | intros Hge;
    do size (destruct rp as [|? rp]; [exfalso; simpl in Hge; lia|]);
    eexists; split; [reflexivity|intros extra; reflexivity] ].

(** X17: every method of [Hci] that decodes return parameters checks their
    length first and the check is enough: with fewer bytes than its layout
    needs the method throws "Cannot parse payload, invalid size", never a
    range error of the buffer, and with enough bytes it returns a value
    that depends on the bytes of its layout only. *)
Theorem return_parameters_guarded :
  guards HciReturn.readLocalSupportedFeatures 8 /\
  guards HciReturn.readBdAddr 6 /\
  guards HciReturn.leReadBufferSize 3 /\
  guards HciReturn.leReadBufferSizeV2 6 /\
  guards HciReturn.leReadSupportedFeatures 8 /\
  guards HciReturn.leReadAdvertisingPhysicalChannelTxPower 1 /\
  guards HciReturn.leReadWhiteListSize 1 /\
  guards HciReturn.leReadSupportedStates 8 /\
  guards HciReturn.leReadSuggestedDefaultDataLength 4 /\
  guards HciReturn.leReadResolvingListSize 1 /\
  guards HciReturn.leReadMaximumDataLength 8 /\
  guards HciReturn.leReadPhy 4 /\
  guards HciReturn.leReadNumberOfSupportedAdvertisingSets 1 /\
  guards HciReturn.leSetExtendedAdvertisingParameters 1.
Proof.
  repeat match goal with |- _ /\ _ => split end.
  - unfold HciReturn.readLocalSupportedFeatures. length_guard 8.
  - unfold HciReturn.readBdAddr. length_guard 6.
  - unfold HciReturn.leReadBufferSize. length_guard 3.
  - unfold HciReturn.leReadBufferSizeV2. length_guard 6.
  - unfold HciReturn.leReadSupportedFeatures. length_guard 8.
  - unfold HciReturn.leReadAdvertisingPhysicalChannelTxPower. length_guard 1.
  - unfold HciReturn.leReadWhiteListSize. length_guard 1.
  - unfold HciReturn.leReadSupportedStates. length_guard 8.
  - unfold HciReturn.leReadSuggestedDefaultDataLength. length_guard 4.
  - unfold HciReturn.leReadResolvingListSize. length_guard 1.
  - unfold HciReturn.leReadMaximumDataLength. length_guard 8.
  - unfold HciReturn.leReadPhy. length_guard 4.
  - unfold HciReturn.leReadNumberOfSupportedAdvertisingSets. length_guard 1.
  - unfold HciReturn.leSetExtendedAdvertisingParameters. length_guard 1.
Qed.


Lemma le_bytes_length (byteLength : nat) (value : Z) :
  length (Buffer.le_bytes byteLength value) = byteLength.
Proof.
  revert value. induction byteLength as [|n IH]; intros value; simpl;
    [reflexivity|now rewrite IH].
Qed.

(** Writing a number over a whole fresh buffer. *)
Lemma write_whole (mem : nat -> Z) (value : Z) (byteLength : nat) :
  Buffer.writeUIntLE (Buffer.allocUnsafe mem byteLength) value 0 byteLength =
  if (0 <=? value) && (value <? 2 ^ (8 * Z.of_nat byteLength))
  then Ok (Buffer.le_bytes byteLength value, byteLength)
  else Throw RangeError.
Proof.
  unfold Buffer.writeUIntLE. rewrite allocUnsafe_length.
  rewrite Nat.leb_refl, andb_true_r.
  destruct (_ && _); [|reflexivity].
  unfold Buffer.poke. cbn [firstn app Nat.add]. rewrite le_bytes_length.
  rewrite skipn_all2 by (rewrite allocUnsafe_length; lia).
  now rewrite app_nil_r.
Qed.


(** X19: the suggested default data length survives the wire: for two
    16-bit values, the four bytes that [leWriteSuggestedDefaultDataLength]
    sends are read back by [leReadSuggestedDefaultDataLength] as the same
    two values, and the two bytes [leReadPhy] sends for a 16-bit handle,
    followed by the two PHY bytes, are read back as that handle and those
    PHYs. *)
Theorem data_length_round_trip
  (mem : nat -> Z) (suggestedMaxTxOctets suggestedMaxTxTime : Z)
  (connectionHandle txPhy rxPhy : Z) :
  0 <= suggestedMaxTxOctets <= 65535 ->
  0 <= suggestedMaxTxTime <= 65535 ->
  0 <= connectionHandle <= 65535 ->
  (exists payload,
     HciPayload.leWriteSuggestedDefaultDataLength mem
       suggestedMaxTxOctets suggestedMaxTxTime = Ok payload /\
     length payload = 4%nat /\
     HciReturn.leReadSuggestedDefaultDataLength payload =
       Ok (suggestedMaxTxOctets, suggestedMaxTxTime)) /\
  (exists payload,
     HciPayload.leReadPhy mem connectionHandle = Ok payload /\
     length payload = 2%nat /\
     HciReturn.leReadPhy (payload ++ [txPhy; rxPhy]) =
       Ok (connectionHandle, txPhy, rxPhy)).
Proof.
  intros Ha Hb Hh. split.
  - unfold HciPayload.leWriteSuggestedDefaultDataLength, Buffer.writeUInt16LE.
    destruct (Buffer.allocUnsafe mem 4) as [|a [|b [|c [|d rest]]]] eqn:E;
      try (apply (f_equal (@length _)) in E; rewrite allocUnsafe_length in E;
           simpl in E; lia).
    assert (rest = []) as ->.
    { apply (f_equal (@length _)) in E. rewrite allocUnsafe_length in E.
      destruct rest; [reflexivity|simpl in E; lia]. }
    write_uint. write_uint.
    eexists. split; [reflexivity|]. split; [reflexivity|].
    unfold HciReturn.leReadSuggestedDefaultDataLength. cbn.
    pose proof (Z.div_mod suggestedMaxTxOctets 256 ltac:(lia)).
    pose proof (Z.div_mod suggestedMaxTxTime 256 ltac:(lia)).
    assert (0 <= suggestedMaxTxOctets / 256 < 256)
      by (split; [apply Z.div_pos; lia|apply Z.div_lt_upper_bound; lia]).
    assert (0 <= suggestedMaxTxTime / 256 < 256)
      by (split; [apply Z.div_pos; lia|apply Z.div_lt_upper_bound; lia]).
    rewrite !(Z.mod_small (_ / 256)) by lia.
    do 2 f_equal; lia.
  - unfold HciPayload.leReadPhy, Buffer.writeUInt16LE. rewrite write_whole.
    change (2 ^ (8 * Z.of_nat 2)) with 65536.
    destruct (Z.leb_spec 0 connectionHandle); [|lia].
    destruct (Z.ltb_spec connectionHandle 65536); [|lia].
    eexists. split; [reflexivity|]. split; [reflexivity|].
    unfold HciReturn.leReadPhy. cbn.
    pose proof (Z.div_mod connectionHandle 256 ltac:(lia)).
    assert (0 <= connectionHandle / 256 < 256)
      by (split; [apply Z.div_pos; lia|apply Z.div_lt_upper_bound; lia]).
    rewrite !(Z.mod_small (_ / 256)) by lia.
    rewrite ?Z.mul_0_r, ?Z.add_0_r.
    do 3 f_equal; lia.
Qed.

Lemma data_length_round_trip_witness :
  (exists payload,
     HciPayload.leWriteSuggestedDefaultDataLength Scenario.mem 251 2120 = Ok payload /\
     length payload = 4%nat /\
     HciReturn.leReadSuggestedDefaultDataLength payload = Ok (251, 2120)) /\
  (exists payload,
     HciPayload.leReadPhy Scenario.mem 10 = Ok payload /\
     length payload = 2%nat /\
     HciReturn.leReadPhy (payload ++ [1; 3]) = Ok (10, 1, 3)).
Proof.
  apply (data_length_round_trip Scenario.mem 251 2120 10 1 3); lia.
Defined.

Lemma poke_head (b : Z) (rest : list Z) (v : Z) :
  Buffer.poke (b :: rest) 0 [v] = v :: rest.
Proof. reflexivity. Qed.

(** X20: [leSetAdvertisingData] and [leSetScanResponseData] send 32 bytes
    for data of at most 31 bytes: the length of the data, the data, and
    zeros up to the end; for longer data they throw the controller error
    Invalid Command Parameter and send nothing. *)
Theorem legacy_data_padded (data : Buffer.t) :
  let padded :=
    if (length data <=? 31)%nat
    then Ok (Z.of_nat (length data) :: data ++ repeat 0 (31 - length data))
    else Throw (makeHciError 18) in
  HciPayload.leSetAdvertisingData data = padded /\
  HciPayload.leSetScanResponseData data = padded.
Proof.
  cbv zeta.
  assert (E : HciPayload.legacyData data =
              if (length data <=? 31)%nat
              then Ok (Z.of_nat (length data) :: data ++ repeat 0 (31 - length data))
              else Throw (makeHciError 18)).
  { unfold HciPayload.legacyData.
    destruct (Nat.ltb_spec 31 (length data)) as [Hlong|Hshort];
      destruct (Nat.leb_spec (length data) 31) as [Hshort'|Hlong']; try lia;
      [reflexivity|].
    unfold Buffer.writeUInt8. change (repeat 0 (1 + 31)) with (0 :: repeat 0 31).
    rewrite writeUIntLE_ok;
      [|change (2 ^ (8 * Z.of_nat 1)) with 256; lia|simpl; lia].
    cbn [bind Buffer.le_bytes]. rewrite poke_head.
    rewrite Z.mod_small by lia. f_equal.
    unfold Buffer.copy. cbn [length]. rewrite repeat_length.
    replace (Nat.min (length data) (S 31 - 1)) with (length data) by lia.
    rewrite firstn_all.
    replace (repeat 0 31) with (repeat 0 (length data) ++ repeat 0 (31 - length data))
      by (rewrite <- repeat_app; f_equal; lia).
    exact (poke_app [Z.of_nat (length data)] (repeat 0 (length data))
             (repeat 0 (31 - length data)) data (repeat_length _ _)). }
  split; exact E.
Qed.

(** X21: in [leSetScanEnable] the enable flag never reaches the payload:
    both bytes are written at offset 0, so the first byte sent is the
    filter-duplicates flag (0 when it is left out), the second is whatever
    the fresh buffer held, and enabling and disabling scanning send the
    same two bytes. *)
Theorem scan_enable_flag_overwritten
  (mem : nat -> Z) (enable : bool) (filterDuplicates : option bool) :
  HciPayload.leSetScanEnable mem enable filterDuplicates =
    Ok [Hci.flag (match filterDuplicates with Some b => b | None => false end);
        mem 1%nat] /\
  HciPayload.leSetScanEnable mem true filterDuplicates =
  HciPayload.leSetScanEnable mem false filterDuplicates.
Proof.
  assert (E : forall e,
            HciPayload.leSetScanEnable mem e filterDuplicates =
            Ok [Hci.flag (match filterDuplicates with Some b => b | None => false end);
                mem 1%nat]).
  { intros e. unfold HciPayload.leSetScanEnable, Buffer.writeUInt8.
    change (Buffer.allocUnsafe mem 2) with [mem 0%nat; mem 1%nat].
    rewrite writeUIntLE_ok;
      [|change (2 ^ (8 * Z.of_nat 1)) with 256; destruct e; simpl; lia|simpl; lia].
    cbn [bind Buffer.le_bytes]. rewrite poke_head.
    rewrite writeUIntLE_ok;
      [|change (2 ^ (8 * Z.of_nat 1)) with 256;
        destruct filterDuplicates as [[]|]; simpl; lia|simpl; lia].
    cbn [bind Buffer.le_bytes]. rewrite poke_head.
    destruct filterDuplicates as [[]|]; reflexivity. }
  split; [apply E|now rewrite !E].
Qed.

(** X22: [leSetDefaultPhy] never throws and sends three bytes: bit 0 of the
    first is set exactly when no transmitter PHY is given and bit 1 exactly
    when no receiver PHY is given; the second and third bytes are the
    one-bit masks [1 << phy] of the PHYs given, and 0 for one left out. *)
Theorem default_phy_payload (mem : nat -> Z) (txPhys rxPhys : option LePhy) :
  HciPayload.leSetDefaultPhy mem txPhys rxPhys =
  Ok [(match txPhys with None => 1 | Some _ => 0 end) +
      (match rxPhys with None => 2 | Some _ => 0 end);
      match txPhys with None => 0 | Some phy => 2 ^ ordinal phy end;
      match rxPhys with None => 0 | Some phy => 2 ^ ordinal phy end].
Proof.
  unfold HciPayload.leSetDefaultPhy, Buffer.writeUInt8.
  change (Buffer.allocUnsafe mem 3) with [mem 0%nat; mem 1%nat; mem 2%nat].
  destruct txPhys as [[]|], rxPhys as [[]|]; reflexivity.
Qed.

(** ** The stand-alone [Hci] class: a command and its completion *)

Lemma HciSend_send_idle (mem : nat -> Z) (c : HciCommand.t) (st : HciSend.state) :
  HciSend.onCmdComplete st = None ->
  0 <= HciCommand.opcode c <= 65535 ->
  (payloadLength (HciCommand.params c) <= 255)%nat ->
  HciSend.send mem c st =
  {| HciSend.cmdOpcode := HciCommand.opcode c;
     HciSend.onCmdComplete := Some {| HciSend.call := HciSend.calls st; HciSend.cmd := c |};
     HciSend.timers := HciSend.timers st ∪ {[HciSend.calls st]};
     HciSend.promises := HciSend.promises st;
     HciSend.calls := S (HciSend.calls st);
     HciSend.sent :=
       HciSend.sent st ++ [frame (HciCommand.opcode c) (HciCommand.params c)] |}.
Proof.
  intros Hidle Hop Hlen. unfold HciSend.send. simpl. rewrite Hidle.
  now rewrite buildBuffer_frame by assumption.
Qed.

Lemma HciSend_fresh (inputs : list HciSend.input) :
  HciSend.promises (HciSend.run inputs) !! HciSend.calls (HciSend.run inputs) = None.
Proof.
  pose proof (HciSend_inv_run inputs) as [_ _ Hmade].
  destruct (HciSend.promises _ !! _) eqn:E; [|reflexivity].
  assert (HciSend.calls (HciSend.run inputs) < HciSend.calls (HciSend.run inputs))%nat
    by (apply Hmade; eauto).
  lia.
Qed.

(** X23: on an idle [Hci], [sendLeCommand] with a 10-bit OCF and at most
    255 bytes of payload writes the packet [ocf low byte, 0x20 + ocf high
    bits, length, payload...]; when [onData] then gets the Command Complete
    event that carries those same two opcode bytes, the promise of the call
    is settled: status 0 resolves it with the decoded event, whose return
    parameters are the bytes after the status, another status rejects it
    with the controller error of that status; the slot is free again and no
    parser error is reported. *)
Theorem le_command_round_trip
  (inputs : list HciSend.input) (errors : list HciReceive.parserError)
  (mem : nat -> Z) (ocf : Z) (payload : option Buffer.t)
  (n status : Z) (returnParameters : Buffer.t) :
  HciSend.onCmdComplete (HciSend.run inputs) = None ->
  0 <= ocf <= 1023 ->
  (payloadLength payload <= 255)%nat ->
  let st := {| HciReceive.dispatcher := HciSend.run inputs;
               HciReceive.parserErrors := errors |} in
  let st1 := HciReceive.sendLeCommand mem ocf payload st in
  let lo := ocf mod 256 in
  let hi := 32 + ocf / 256 in
  HciSend.sent (HciReceive.dispatcher st1) =
    HciSend.sent (HciSend.run inputs) ++
    [[lo; hi; Z.of_nat (payloadLength payload)] ++
     match payload with Some b => b | None => [] end] /\
  exists st2,
    HciReceive.onData
      ([14; 4 + Z.of_nat (length returnParameters); n; lo; hi; status] ++
       returnParameters) st1 = Ok st2 /\
    HciSend.promises (HciReceive.dispatcher st2) !! HciSend.calls (HciSend.run inputs) =
      Some (if status =? 0
            then HciSend.Resolved
                   {| HciEvtCmdComplete.numHciPackets := n;
                      HciEvtCmdComplete.opcode := 8192 + ocf;
                      HciEvtCmdComplete.status := status;
                      HciEvtCmdComplete.returnParameters := returnParameters |}
            else HciSend.Rejected (makeHciError status)) /\
    HciSend.onCmdComplete (HciReceive.dispatcher st2) = None /\
    HciReceive.parserErrors st2 = errors.
Proof.
  intros Hidle Hocf Hlen. cbv zeta.
  unfold HciReceive.sendLeCommand. cbn [HciReceive.dispatcher HciReceive.parserErrors].
  change (ordinal LeControllerCommands) with 8.
  rewrite (build_value 8 ocf) by lia.
  rewrite HciSend_send_idle by (cbn [HciCommand.opcode HciCommand.params]; first [assumption|lia]).
  cbn [HciCommand.opcode HciCommand.params HciSend.sent].
  rewrite (frame_of_group 8 ocf) by lia.
  change (4 * 8) with 32.
  split; [reflexivity|].
  unfold HciReceive.onData.
  cbn [app length Nat.ltb Nat.leb BufferRead.at_ BufferRead.slice nth skipn
       HciReceive.dispatcher HciReceive.parserErrors HciSend.onCmdComplete].
  replace (4 + Z.of_nat (length returnParameters) =?
           Z.of_nat (S (S (S (S (length returnParameters))))))
    with true by (symmetry; apply Z.eqb_eq; lia).
  cbn [negb]. change (14 =? HciReceive.HCI_EVT_CMD_COMPLETE) with true.
  cbn [Buffer.readUInt16LE skipn bind].
  assert (Hop : ocf mod 256 + 256 * (32 + ocf / 256) = 8 * 1024 + ocf)
    by (pose proof (Z.div_mod ocf 256 ltac:(lia)); lia).
  rewrite Hop. eexists. split; [reflexivity|].
  cbn [HciReceive.dispatcher HciReceive.parserErrors].
  unfold HciSend.handler.
  cbn [HciSend.cmdOpcode HciEvtCmdComplete.opcode HciEvtCmdComplete.status HciSend.call].
  rewrite Z.eqb_refl. cbn [negb]. unfold Success.
  pose proof (HciSend_fresh inputs) as Hfresh.
  change (8 * 1024 + ocf) with (8192 + ocf).
  destruct (status =? 0); unfold HciSend.complete;
    match goal with |- context [HciSend.settle ?i ?h ?s] =>
      destruct (HciSend_settle_frame i h s) as (_ & H2 & _ & _ & _ & _ & H7)
    end;
    (split; [apply H7; exact Hfresh|split; [rewrite H2; reflexivity|reflexivity]]).
Qed.

Lemma le_command_round_trip_witness :
  exists st2,
    HciReceive.onData [14; 5; 1; 12; 32; 0; 7]
      (HciReceive.sendLeCommand Scenario.mem 12 (Some [1; 0])
         {| HciReceive.dispatcher := HciSend.run [];
            HciReceive.parserErrors := [] |}) = Ok st2 /\
    HciSend.promises (HciReceive.dispatcher st2) !! 0%nat =
      Some (HciSend.Resolved
              {| HciEvtCmdComplete.numHciPackets := 1;
                 HciEvtCmdComplete.opcode := 8204;
                 HciEvtCmdComplete.status := 0;
                 HciEvtCmdComplete.returnParameters := [7] |}) /\
    HciSend.onCmdComplete (HciReceive.dispatcher st2) = None /\
    HciReceive.parserErrors st2 = [].
Proof.
  exact (proj2 (le_command_round_trip [] [] Scenario.mem 12 (Some [1; 0]) 1 0 [7]
                  eq_refl ltac:(lia) ltac:(simpl; lia))).
Defined.

(** X24: [Hci.onData] never throws.  A packet of fewer than two bytes is
    dropped; one whose length byte is not the length of what follows is
    reported as a parser error and changes nothing else; a Command Complete
    with fewer than four bytes of payload is reported likewise; a
    well-formed packet reports nothing, and only a Command Complete can
    change the dispatcher. *)
Theorem malformed_events_reported (data : Buffer.t) (st : HciReceive.state) :
  exists st',
    HciReceive.onData data st = Ok st' /\
    match data with
    | eventCode :: payloadLength :: payload =>
        if negb (payloadLength =? Z.of_nat (length payload))
        then st' = HciReceive.emit
                     (HciReceive.InvalidEventSize payloadLength (length payload)) st
        else if (eventCode =? 14) && (length payload <? 4)%nat
        then st' = HciReceive.emit
                     (HciReceive.InvalidCmdCompleteSize (length payload)) st
        else HciReceive.parserErrors st' = HciReceive.parserErrors st /\
             (eventCode = 14 \/ st' = st)
    | _ => st' = st
    end.
Proof.
  unfold HciReceive.onData.
  destruct data as [|eventCode [|payloadLength payload]];
    try (eexists; split; reflexivity).
  change (length (eventCode :: payloadLength :: payload) <? 2)%nat with false.
  change (BufferRead.slice (eventCode :: payloadLength :: payload) 2) with payload.
  change (BufferRead.at_ (eventCode :: payloadLength :: payload) 0) with eventCode.
  change (BufferRead.at_ (eventCode :: payloadLength :: payload) 1) with payloadLength.
  cbv zeta. unfold HciReceive.HCI_EVT_CMD_COMPLETE.
  destruct (negb (payloadLength =? Z.of_nat (length payload)));
    [eexists; split; reflexivity|].
  destruct (Z.eqb_spec eventCode 14) as [->|Hne]; cbn [andb].
  - destruct (Nat.ltb_spec (length payload) 4) as [Hshort|Hlong];
      [eexists; split; reflexivity|].
    destruct (HciSend.onCmdComplete (HciReceive.dispatcher st)) as [c|];
      [|eexists; split; [reflexivity|split; [reflexivity|now left]]].
    destruct payload as [|a [|b [|c0 rest]]]; try (simpl in Hlong; lia).
    cbn [Buffer.readUInt16LE skipn bind].
    eexists; split; [reflexivity|split; [reflexivity|now left]].
  - eexists; split; [reflexivity|split; [reflexivity|now right]].
Qed.

(** X25: while a command of [Hci.send] is pending, a second [send] is
    rejected with "Busy, command in progress." and writes nothing, a
    Command Complete packet that carries another opcode changes nothing,
    and in both cases the pending opcode, closure and timer stay. *)
Theorem hci_send_one_at_a_time
  (inputs : list HciSend.input) (errors : list HciReceive.parserError)
  (p : HciSend.closure) (mem : nat -> Z) (c : HciCommand.t)
  (n lo hi status : Z) (returnParameters : Buffer.t) :
  HciSend.onCmdComplete (HciSend.run inputs) = Some p ->
  HciCommand.opcode (HciSend.cmd p) <> lo + 256 * hi ->
  let st := HciSend.run inputs in
  let st' := HciSend.send mem c st in
  (HciSend.promises st' !! HciSend.calls st =
     Some (HciSend.Rejected (JsError "Busy, command in progress.")) /\
   HciSend.sent st' = HciSend.sent st /\
   HciSend.onCmdComplete st' = Some p /\
   HciSend.cmdOpcode st' = HciCommand.opcode (HciSend.cmd p) /\
   HciSend.timers st' = HciSend.timers st) /\
  HciReceive.onData
    ([14; 4 + Z.of_nat (length returnParameters); n; lo; hi; status] ++
     returnParameters)
    {| HciReceive.dispatcher := st; HciReceive.parserErrors := errors |} =
  Ok {| HciReceive.dispatcher := st; HciReceive.parserErrors := errors |}.
Proof.
  intros Hp Hne. cbv zeta. split.
  - exact (HciSend_busy inputs p mem c Hp).
  - unfold HciReceive.onData.
    cbn [app length Nat.ltb Nat.leb BufferRead.at_ BufferRead.slice nth skipn
         HciReceive.dispatcher HciReceive.parserErrors].
    replace (4 + Z.of_nat (length returnParameters) =?
             Z.of_nat (S (S (S (S (length returnParameters))))))
      with true by (symmetry; apply Z.eqb_eq; lia).
    cbn [negb]. change (14 =? HciReceive.HCI_EVT_CMD_COMPLETE) with true.
    rewrite Hp. cbn [Buffer.readUInt16LE skipn bind].
    pose proof (HciSend_inv_run inputs) as [Hop _ _].
    destruct (Hop p Hp) as [Ho _].
    unfold HciSend.handler. rewrite Ho. cbn [HciEvtCmdComplete.opcode].
    destruct (Z.eqb_spec (HciCommand.opcode (HciSend.cmd p)) (lo + 256 * hi));
      [contradiction|reflexivity].
Qed.

Lemma hci_send_one_at_a_time_witness :
  HciSend.sent
    (HciSend.send Scenario.mem
       {| HciCommand.opcode := 4105; HciCommand.params := None |}
       (HciSend.run [HciSend.Submit Scenario.mem
                       {| HciCommand.opcode := 3075; HciCommand.params := None |}])) =
  [[3; 12; 0]].
Proof.
  destruct (hci_send_one_at_a_time
              [HciSend.Submit Scenario.mem
                 {| HciCommand.opcode := 3075; HciCommand.params := None |}]
              []
              {| HciSend.call := 0;
                 HciSend.cmd := {| HciCommand.opcode := 3075; HciCommand.params := None |} |}
              Scenario.mem
              {| HciCommand.opcode := 4105; HciCommand.params := None |}
              1 9 16 0 [])
    as [(_ & Hsent & _) _]; [reflexivity|simpl; lia|].
  exact Hsent.
Defined.

(** ** Opcodes *)

(** X26: [HciOpcode.build] and [HciOpcode.expand] are inverse to each other
    on protocol values: a 6-bit OGF and a 10-bit OCF are packed into the
    16-bit number [1024 * ogf + ocf] and taken apart again, and every
    16-bit opcode is rebuilt from the group and command it expands to. *)
Theorem opcode_round_trip (ogf ocf opcode : Z) :
  0 <= ogf < 64 -> 0 <= ocf <= 1023 -> 0 <= opcode <= 65535 ->
  HciOpcode.build {| HciOpcode.ogf := ogf; HciOpcode.ocf := ocf |} = 1024 * ogf + ocf /\
  HciOpcode.expand (HciOpcode.build {| HciOpcode.ogf := ogf; HciOpcode.ocf := ocf |}) =
    {| HciOpcode.ogf := ogf; HciOpcode.ocf := ocf |} /\
  HciOpcode.expand opcode =
    {| HciOpcode.ogf := opcode / 1024; HciOpcode.ocf := opcode mod 1024 |} /\
  HciOpcode.build (HciOpcode.expand opcode) = opcode.
Proof.
  intros Hg Hc Hop.
  assert (Hexp : HciOpcode.expand opcode =
                 {| HciOpcode.ogf := opcode / 1024; HciOpcode.ocf := opcode mod 1024 |}).
  { unfold HciOpcode.expand, JS.sar, JS.band.
    change (10 mod 32) with 10.
    rewrite (ToInt32_small opcode), (ToInt32_small 1023) by lia.
    f_equal.
    - rewrite Z.shiftr_div_pow2 by lia. reflexivity.
    - change 1023 with (Z.ones 10). rewrite Z.land_ones by lia. reflexivity. }
  split; [rewrite build_value by assumption; lia|].
  split; [now apply expand_build|].
  split; [exact Hexp|].
  rewrite Hexp, build_value.
  - pose proof (Z.div_mod opcode 1024 ltac:(lia)). lia.
  - split; [apply Z.div_pos; lia|apply Z.div_lt_upper_bound; lia].
  - pose proof (Z.mod_pos_bound opcode 1024 ltac:(lia)). lia.
Qed.

Lemma opcode_round_trip_witness :
  HciOpcode.build {| HciOpcode.ogf := 8; HciOpcode.ocf := 65 |} = 8257 /\
  HciOpcode.expand 3075 = {| HciOpcode.ogf := 3; HciOpcode.ocf := 3 |}.
Proof.
  destruct (opcode_round_trip 8 65 3075) as (Hb & _ & He & _); try lia.
  split; [exact Hb|exact He].
Defined.

(** ** Bit fields and the limits of the encoders *)

Lemma lor_bound (k a b : Z) :
  0 <= k -> 0 <= a < 2 ^ k -> 0 <= b < 2 ^ k -> 0 <= Z.lor a b < 2 ^ k.
Proof.
  intros Hk Ha Hb.
  assert (Hnn : 0 <= Z.lor a b) by (apply Z.lor_nonneg; lia).
  split; [exact Hnn|].
  destruct (Z.eq_dec (Z.lor a b) 0) as [->|Hnz]; [lia|].
  apply Z.log2_lt_pow2; [lia|].
  rewrite Z.log2_lor by lia.
  assert (Hlog : forall x, 0 <= x < 2 ^ k -> 0 < k -> Z.log2 x < k).
  { intros x Hx Hpos. destruct (Z.eq_dec x 0) as [->|Hx0]; [simpl; lia|].
    apply Z.log2_lt_pow2; lia. }
  destruct (Z.eq_dec k 0) as [->|Hk0].
  - change (2 ^ 0) with 1 in *. assert (a = 0) by lia. assert (b = 0) by lia.
    subst. now contradiction Hnz.
  - apply Z.max_lub_lt; apply Hlog; lia.
Qed.

Lemma bitfield_fold (bits : list Z) (acc : Z) :
  Forall (fun bit => 0 <= bit <= 30) bits ->
  0 <= acc < 2 ^ 31 ->
  let bitfield :=
    fold_left (fun bitfield bit => JS.bor bitfield (JS.shl 1 bit)) bits acc in
  0 <= bitfield < 2 ^ 31 /\
  forall n, 0 <= n ->
    Z.testbit bitfield n = Z.testbit acc n || existsb (Z.eqb n) bits.
Proof.
  intros Hbits. revert acc. induction Hbits as [|bit bits Hbit Hbits IH];
    intros acc Hacc; cbn [fold_left existsb].
  - split; [exact Hacc|]. intros n _. now rewrite orb_false_r.
  - assert (Hpow : 0 < 2 ^ bit < 2 ^ 31).
    { split; [apply Z.pow_pos_nonneg; lia|apply Z.pow_lt_mono_r; lia]. }
    assert (Hstep : JS.bor acc (JS.shl 1 bit) = Z.lor acc (2 ^ bit)).
    { rewrite shl_small by lia. unfold JS.bor. rewrite Z.mul_1_l.
      now rewrite !ToInt32_small by lia. }
    rewrite Hstep.
    destruct (IH (Z.lor acc (2 ^ bit))) as [Hrange Htest];
      [apply lor_bound; lia|].
    split; [exact Hrange|].
    intros n Hn. rewrite Htest by exact Hn.
    rewrite Z.lor_spec, Z.pow2_bits_eqb by lia.
    rewrite (Z.eqb_sym bit n). now rewrite orb_assoc.
Qed.

(** X27: for bit numbers from 0 to 30, [buildBitfield] returns the
    non-negative number below [2^31] whose set bits are exactly the numbers
    listed; the order of the list and repetitions in it do not matter. *)
Theorem bitfield_bits (bits : list Z) :
  Forall (fun bit => 0 <= bit <= 30) bits ->
  0 <= Hci.buildBitfield bits < 2 ^ 31 /\
  forall n, 0 <= n -> (Z.testbit (Hci.buildBitfield bits) n = true <-> In n bits).
Proof.
  intros Hbits. unfold Hci.buildBitfield.
  destruct (bitfield_fold bits 0 Hbits ltac:(lia)) as [Hrange Htest].
  split; [exact Hrange|].
  intros n Hn. rewrite Htest by exact Hn. rewrite Z.bits_0. cbn [orb].
  rewrite existsb_exists. split.
  - intros (x & Hin & Heq). apply Z.eqb_eq in Heq. now subst.
  - intros Hin. exists n. split; [exact Hin|apply Z.eqb_refl].
Qed.

Lemma bitfield_bits_witness :
  0 <= Hci.buildBitfield [0; 2; 0] < 2 ^ 31 /\
  forall n, 0 <= n ->
    (Z.testbit (Hci.buildBitfield [0; 2; 0]) n = true <-> In n [0; 2; 0]).
Proof.
  apply (bitfield_bits [0; 2; 0]).
  repeat constructor; lia.
Defined.


(** X29: [leSetExtendedScanParameters] sends nothing in two cases: with no
    PHY selected it throws the controller error Invalid Command Parameter,
    whatever the other arguments, and with a PHY selected whose interval or
    window does not fit 16 bits once converted to ticks it throws a range
    error. *)
Theorem extended_scan_parameters_rejected
  (mem : nat -> Z) (ownAddressType : LeOwnAddressType)
  (scanningFilterPolicy : LeScanningFilterPolicy)
  (phy1M phyCoded : option Hci.ScanningPhy) :
  ~ Forall scanFits (option_list phy1M ++ option_list phyCoded) ->
  Hci.leSetExtendedScanParameters mem ownAddressType scanningFilterPolicy
    None None = Throw (makeHciError 18) /\
  Hci.leSetExtendedScanParameters mem ownAddressType scanningFilterPolicy
    phy1M phyCoded = Throw RangeError.
Proof.
  intros Hbad. split; [reflexivity|].
  apply extended_scan_parameters_throws; [exact Hbad|].
  intros Hnil. apply Hbad. rewrite Hnil. constructor.
Qed.

#[local] Set Warnings "-inexact-float".
Lemma extended_scan_parameters_rejected_witness :
  Hci.leSetExtendedScanParameters Scenario.mem OwnPublicDeviceAddress All
    (Some {| Hci.type := Active; Hci.intervalMs := 100000; Hci.windowMs := 50 |})
    None = Throw RangeError.
Proof.
  refine (proj2 (extended_scan_parameters_rejected Scenario.mem
                   OwnPublicDeviceAddress All
                   (Some {| Hci.type := Active; Hci.intervalMs := 100000;
                            Hci.windowMs := 50 |})
                   None _)).
  intros Hfits. inversion Hfits as [|phy rest [Hinterval _] _]; subst.
  vm_compute in Hinterval. discriminate Hinterval.
Defined.
#[local] Set Warnings "+inexact-float".

(** ** Parameters built in line *)

